(** * PriceChange: the column-spec parser and the two scan engines

    A shallow embedding of the two spreadsheet batch scripts
    ([excel_find_replace_columns current.py], the plain find/replace
    variant, and [excel_processor.py], the rule-driven variant).

    Modelling conventions.
    - Python [int] is [Z]; counters are [Z] as well.
    - Python [str] is [string]. For cell texts and column specs the model
      covers 7-bit text: on such text [str.upper], [str.lower], [str.strip]
      and [re.IGNORECASE] act as the functions of [PyStr] below.
    - Sheet names are Unicode text: a name is kept as its UTF-8 encoding and
      read as the list of its code points ([UStr.decode]); what [str.lower],
      [str.isspace] and [unicodedata.normalize] do to code points is library
      behaviour ([UnicodeData]).
    - A raised exception is the [Raise] branch of [res]; a handler
      ([try ... except Exception]) is a match on it.
    - [dict]s whose iteration order is observable are association lists,
      the counting dictionaries are [gmap]s, Python [set]s are [gset]s. *)

From Stdlib Require Import ZArith Ascii String List Lia Sorting.Sorted.
From stdpp Require Import base option list gmap sets strings sorting numbers.
From Equations Require Import Equations.

Open Scope Z_scope.

(** ** Exceptions *)

Inductive exn : Type :=
| ValueError      (* tuple unpacking of the wrong length *)
| IndexError      (* Range indexing outside the range *)
| AttributeError  (* a [str] method on a value that is no [str] *)
| ReError         (* [re.error]: a replacement template [re] rejects *)
| WriteError      (* assignment to a cell of a protected sheet *)
| ExcelError.     (* Excel does not start, or the workbook cannot be read *)

Inductive res (A : Type) : Type :=
| Ok (a : A)
| Raise (e : exn).
Arguments Ok {A} a.
Arguments Raise {A} e.

Definition bind {A B} (r : res A) (k : A -> res B) : res B :=
  match r with
  | Ok a => k a
  | Raise e => Raise e
  end.

Notation "x <- r ;; k" := (bind r (fun x => k))
  (at level 100, r at next level, right associativity).

Definition is_ok {A} (r : res A) : bool :=
  match r with Ok _ => true | Raise _ => false end.

(** A [for] loop whose body may raise: the first exception leaves the loop. *)
Fixpoint for_each {A S} (body : A -> S -> res S) (l : list A) (s : S) : res S :=
  match l with
  | [] => Ok s
  | a :: l' => s' <- body a s ;; for_each body l' s'
  end.

(** ** Python [str] operations on 7-bit text *)

Module PyStr.

Definition ord (c : ascii) : Z := Z.of_N (N_of_ascii c).
Definition chr (n : Z) : ascii := ascii_of_N (Z.to_N n).

(** [str.isspace] on one character, the set [str.strip] removes. *)
Definition is_space (c : ascii) : bool :=
  let n := ord c in
  ((9 <=? n) && (n <=? 13)) || ((28 <=? n) && (n <=? 32)).

Definition upper_char (c : ascii) : ascii :=
  let n := ord c in
  if (97 <=? n) && (n <=? 122) then chr (n - 32) else c.

Definition lower_char (c : ascii) : ascii :=
  let n := ord c in
  if (65 <=? n) && (n <=? 90) then chr (n + 32) else c.

Fixpoint map_chars (f : ascii -> ascii) (s : string) : string :=
  match s with
  | EmptyString => EmptyString
  | String c s' => String (f c) (map_chars f s')
  end.

Definition upper : string -> string := map_chars upper_char.
Definition lower : string -> string := map_chars lower_char.

Fixpoint chars (s : string) : list ascii :=
  match s with
  | EmptyString => []
  | String c s' => c :: chars s'
  end.

Fixpoint of_chars (l : list ascii) : string :=
  match l with
  | [] => EmptyString
  | c :: l' => String c (of_chars l')
  end.

Fixpoint lstrip (s : string) : string :=
  match s with
  | EmptyString => EmptyString
  | String c s' => if is_space c then lstrip s' else s
  end.

Definition reverse (s : string) : string := of_chars (rev (chars s)).

Definition rstrip (s : string) : string := reverse (lstrip (reverse s)).

Definition strip (s : string) : string := rstrip (lstrip s).

(** [sep in s] for a one-character [sep]. *)
Fixpoint contains (sep : ascii) (s : string) : bool :=
  match s with
  | EmptyString => false
  | String c s' => Ascii.eqb c sep || contains sep s'
  end.

(** [s.split(sep)] for a one-character [sep]: never the empty list. *)
Fixpoint split (sep : ascii) (s : string) : list string :=
  match s with
  | EmptyString => [EmptyString]
  | String c s' =>
      if Ascii.eqb c sep then EmptyString :: split sep s'
      else match split sep s' with
           | [] => [String c EmptyString]
           | p :: ps => String c p :: ps
           end
  end.

(** Number of occurrences of a character. *)
Fixpoint count (sep : ascii) (s : string) : nat :=
  match s with
  | EmptyString => 0%nat
  | String c s' => ((if Ascii.eqb c sep then 1 else 0) + count sep s')%nat
  end.

Definition is_upper_letter (c : ascii) : bool :=
  let n := ord c in (65 <=? n) && (n <=? 90).

End PyStr.

(** ** Unicode text: the code points of a sheet name *)

Module UStr.
Import PyStr.

(** The code points of a text given by its UTF-8 encoding. [pending] bytes
    of the current sequence are still to come and [acc] holds the bits read
    so far. On bytes that are no well-formed UTF-8 the result has no
    meaning. *)
Fixpoint utf8 (pending : nat) (acc : Z) (s : string) : list Z :=
  match s with
  | EmptyString => []
  | String c s' =>
      let n := ord c in
      match pending with
      | O =>
          if n <? 192 then n :: utf8 0 0 s'
          else if n <? 224 then utf8 1 (n - 192) s'
          else if n <? 240 then utf8 2 (n - 224) s'
          else utf8 3 (n - 240) s'
      | S k =>
          let acc := acc * 64 + (n - 128) in
          match k with
          | O => acc :: utf8 0 0 s'
          | S _ => utf8 k acc s'
          end
      end
  end.

Definition decode (s : string) : list Z := utf8 0 0 s.

End UStr.

(** ** Column letters (both scripts define the same [column_letter_to_index]) *)

Module Columns.
Import PyStr.

(** [for char in col_letter: result = result * 26 + (ord(char) - ord('A') + 1)] *)
Fixpoint letters_loop (col_letter : string) (result : Z) : Z :=
  match col_letter with
  | EmptyString => result
  | String char rest => letters_loop rest (result * 26 + (ord char - ord "A" + 1))
  end.

Definition column_letter_to_index (col_letter : string) : Z :=
  let col_letter := upper col_letter in
  letters_loop col_letter 0 - 1.

(** The [while temp > 0] loop of [column_index_to_letter]. *)
Equations? index_loop (temp : Z) (letter : string) : string
  by wf (Z.to_nat temp) lt :=
  index_loop temp letter with Z_lt_dec 0 temp => {
    | left _ :=
        index_loop ((temp - 1) / 26)
                   (String (chr ((temp - 1) mod 26 + ord "A")) letter);
    | right _ := letter }.
Proof.
  assert ((temp - 1) / 26 < temp).
  { apply Z.div_lt_upper_bound; lia. }
  assert (0 <= (temp - 1) / 26) by (apply Z.div_pos; lia).
  lia.
Qed.

Definition column_index_to_letter (col_index : Z) : string :=
  index_loop (col_index + 1) "".

End Columns.

(** ** The column-spec parser ([parse_column_range], find/replace script) *)

Module Parser.
Import PyStr Columns.

(** [range(a, b)] *)
Definition range (a b : Z) : list Z := seqZ a (b - a).

(** One iteration of [for part in parts], on the set [columns]. *)
Definition add_part (part : string) (columns : gset Z) : res (gset Z) :=
  if contains ":" part then
    match split ":" part with
    | [start_col; end_col] =>
        let start_idx := column_letter_to_index (strip start_col) in
        let end_idx := column_letter_to_index (strip end_col) in
        Ok (foldl (fun cols idx => {[idx]} ∪ cols) columns
                  (range start_idx (end_idx + 1)))
    | _ => Raise ValueError
    end
  else Ok ({[column_letter_to_index part]} ∪ columns).

(** [sorted(list(columns))] *)
Definition sorted (columns : gset Z) : list Z :=
  merge_sort Z.le (elements columns).

(** The argument is [None] or a [str]; the result is [None] ("no
    restriction") or the list of indices. *)
Definition parse_column_range (column_spec : option string)
  : res (option (list Z)) :=
  match column_spec with
  | None | Some EmptyString => Ok None
  | Some spec =>
      let parts := map strip (split "," spec) in
      columns <- for_each add_part parts ∅ ;;
      Ok (Some (sorted columns))
  end.

End Parser.
(** ** Cell values and the used range (the xlwings objects both scripts use) *)

Module Xl.
Import PyStr.

(** What [cell.value] can be. A number or a date is observed by the scripts
    only through [bool(v)] and [str(v)], and is represented by these two. *)
Inductive value : Type :=
| VNone
| VStr (s : string)
| VBool (b : bool)
| VOther (repr : string) (nonzero : bool).

(** [bool(v)] *)
Definition truthy (v : value) : bool :=
  match v with
  | VNone => false
  | VStr s => negb (String.eqb s "")
  | VBool b => b
  | VOther _ t => t
  end.

(** [str(v)] *)
Definition py_str (v : value) : string :=
  match v with
  | VNone => "None"
  | VStr s => s
  | VBool true => "True"
  | VBool false => "False"
  | VOther r _ => r
  end.

(** An access to the used range: [Index i j] is an evaluation of
    [used_range[i, j]], [Write i j s] an assignment to the value of the cell
    at position [(i, j)] of the range. *)
Inductive event : Type :=
| Index (i j : Z)
| Write (i j : Z) (s : string).

Inductive protection : Type :=
| Unprotected
| EmptyPassword   (* protected, [Unprotect(Password="")] succeeds *)
| Locked.         (* protected, [Unprotect(Password="")] raises *)

(** A worksheet seen through its used range. [shape] is [None] when
    [sheet.used_range] is [None]; [cells] holds the non-empty cells by their
    zero-based position in the used range; [row] is the sheet row of the
    first row of the range; [trace] lists the accesses made, newest first. *)
Record Sheet : Type := {
  name : string;
  shape : option (Z * Z);
  row : Z;
  cells : gmap (Z * Z) value;
  protect : protection;
  row_height : gmap Z Z;
  trace : list event
}.

Definition log (e : event) (sh : Sheet) : Sheet :=
  {| name := name sh; shape := shape sh; row := row sh; cells := cells sh;
     protect := protect sh; row_height := row_height sh;
     trace := e :: trace sh |}.

(** One coordinate of [Range.__getitem__]: a negative index counts from
    the end, an index outside the range raises [IndexError]. *)
Definition resolve (n i : Z) : res Z :=
  let i := if i <? 0 then i + n else i in
  if (i <? 0) || (n <=? i) then Raise IndexError else Ok i.

(** [used_range[i, j]]: the position of the cell. *)
Definition getitem (sh : Sheet) (i j : Z) : res (Z * Z) :=
  match shape sh with
  | None => Raise AttributeError
  | Some (n, m) =>
      r <- resolve n i ;;
      c <- resolve m j ;;
      Ok (r, c)
  end.

(** [cell.value] *)
Definition get_value (sh : Sheet) (cell : Z * Z) : value :=
  default VNone (cells sh !! cell).

(** [cell.value = s] *)
Definition set_value (cell : Z * Z) (s : string) (sh : Sheet) : res Sheet :=
  match protect sh with
  | Unprotected =>
      Ok {| name := name sh; shape := shape sh; row := row sh;
            cells := <[cell := VStr s]> (cells sh);
            protect := protect sh; row_height := row_height sh;
            trace := trace sh |}
  | _ => Raise WriteError
  end.

(** [sheet.range(f"{r}:{r}").row_height = h] *)
Definition set_row_height (r h : Z) (sh : Sheet) : res Sheet :=
  match protect sh with
  | Unprotected =>
      Ok {| name := name sh; shape := shape sh; row := row sh;
            cells := cells sh; protect := protect sh;
            row_height := <[r := h]> (row_height sh);
            trace := trace sh |}
  | _ => Raise WriteError
  end.

(** [sheet.api.Unprotect(Password="")] *)
Definition unprotect (sh : Sheet) : res Sheet :=
  match protect sh with
  | Locked => Raise WriteError
  | _ =>
      Ok {| name := name sh; shape := shape sh; row := row sh;
            cells := cells sh; protect := Unprotected;
            row_height := row_height sh; trace := trace sh |}
  end.

(** [d[k] += n] on a counting dictionary. *)
Definition incr (k : string) (n : Z) (d : gmap string Z) : gmap string Z :=
  <[k := default 0 (d !! k) + n]> d.

(** [sum(d.values())] *)
Definition sum_values (d : gmap string Z) : Z :=
  map_fold (fun _ v acc => v + acc) 0 d.

(** [range(a, b, step)] for a positive [step]. *)
Definition range_step (a b step : Z) : list Z :=
  (fun k => a + k * step) <$> seqZ 0 ((b - a + step - 1) / step).

(** The attempt of both scripts to lift the protection before a sheet
    is processed; a failure is reported and ignored. *)
Definition try_unprotect (sh : Sheet) : Sheet :=
  match protect sh with
  | Unprotected => sh
  | _ => match unprotect sh with Ok sh' => sh' | Raise _ => sh end
  end.

End Xl.

(** ** Library behaviour the scripts rely on *)

(** [re] compiles the replacement text of [subn] as a template before it
    looks for matches: a text without backslash stands for itself, other
    texts are expanded by the library against the matched text or rejected
    with [re.error] ([None]). *)
Class ReTemplate : Type := {
  compile_template : string -> option (string -> string);
  compile_template_plain :
    forall repl, PyStr.contains "\" repl = false ->
                 compile_template repl = Some (fun _ => repl)
}.

(** The Unicode tables of Python, on texts given by their code points:
    [unicodedata.normalize('NFKC', s)], [s.lower()], and [c.isspace()], which
    is the set of characters [str.strip] removes and [\s] matches in a [str]
    pattern. Of [str.lower] the model uses that it maps the empty text to
    itself, keeps a space (U+0020) and lower-cases the texts before and after
    a space on their own: the one rule of [str.lower] that looks at the
    neighbours of a character (capital sigma) does not look past a space. *)
Class UnicodeData : Type := {
  normalize_NFKC : list Z -> list Z;
  str_lower : list Z -> list Z;
  is_whitespace : Z -> bool;
  str_lower_nil : str_lower [] = [];
  str_lower_space :
    forall a b, str_lower (a ++ 32 :: b) = str_lower a ++ 32 :: str_lower b
}.

(** ** The find/replace script *)

Module FindReplace.
Import PyStr UStr Columns Parser Xl.

(** [re.compile(re.escape(find_text), flags=re.IGNORECASE)]: the regex
    matches the text itself, letter case ignored. *)
Inductive regex : Type :=
| LiteralIgnoreCase (lit : string).

(** The text matched when the literal matches at the start of [s]. *)
Fixpoint match_here (lit s : string) : option string :=
  match lit, s with
  | EmptyString, _ => Some EmptyString
  | String _ _, EmptyString => None
  | String a lit', String c s' =>
      if Ascii.eqb (lower_char a) (lower_char c)
      then String c <$> match_here lit' s'
      else None
  end.

(** Left-to-right scan for non-overlapping matches; [skip] characters of
    the last match are still to be passed. The empty literal matches
    before every character and at the end. *)
Fixpoint scan (lit : string) (repl : string -> string) (skip : nat) (s : string)
  : string * Z :=
  match skip with
  | S k =>
      match s with
      | EmptyString => (EmptyString, 0)
      | String _ s' => scan lit repl k s'
      end
  | O =>
      match match_here lit s with
      | Some m =>
          match s with
          | EmptyString => (repl m, 1)
          | String c s' =>
              match lit with
              | EmptyString =>
                  let '(out, n) := scan lit repl 0 s' in
                  (repl m +:+ String c out, n + 1)
              | String _ lit' =>
                  let '(out, n) := scan lit repl (String.length lit') s' in
                  (repl m +:+ out, n + 1)
              end
          end
      | None =>
          match s with
          | EmptyString => (EmptyString, 0)
          | String c s' =>
              let '(out, n) := scan lit repl 0 s' in (String c out, n)
          end
      end
  end.

(** [compiled_re.subn(replace_text, cell_value)] *)
Definition subn `{ReTemplate} (compiled_re : regex) (replace_text cell_value : string)
  : res (string * Z) :=
  match compile_template replace_text with
  | None => Raise ReError
  | Some repl =>
      match compiled_re with
      | LiteralIgnoreCase lit => Ok (scan lit repl 0 cell_value)
      end
  end.

Definition pattern : Type := string * regex * string.

(** The loop over [compiled_patterns] for one cell. The counts added
    before an exception stay in [chunk_replacements]. *)
Fixpoint apply_patterns `{ReTemplate} (compiled_patterns : list pattern)
    (cell_value : string) (modified : bool) (chunk_replacements : gmap string Z)
  : res (string * bool) * gmap string Z :=
  match compiled_patterns with
  | [] => (Ok (cell_value, modified), chunk_replacements)
  | (find_text, compiled_re, replace_text) :: rest =>
      match subn compiled_re replace_text cell_value with
      | Raise e => (Raise e, chunk_replacements)
      | Ok (new_value, num_subs) =>
          if 0 <? num_subs
          then apply_patterns rest new_value true
                              (incr find_text num_subs chunk_replacements)
          else apply_patterns rest cell_value modified chunk_replacements
      end
  end.

(** The state of [process_chunk]: the sheet and the two local collections. *)
Record chunk_state : Type := {
  sheet : Sheet;
  chunk_replacements : gmap string Z;
  affected_rows : gset Z
}.

(** The body of [for col_idx in columns_to_check], with its handler. *)
Definition process_cell `{ReTemplate} (compiled_patterns : list pattern)
    (row_idx col_idx : Z) (st : chunk_state) : chunk_state :=
  let sh := log (Index row_idx col_idx) (sheet st) in
  let skip := {| sheet := sh; chunk_replacements := chunk_replacements st;
                 affected_rows := affected_rows st |} in
  match getitem sh row_idx col_idx with
  | Raise _ => skip
  | Ok cell =>
      match get_value sh cell with
      | VStr cell_value =>
          if negb (String.eqb cell_value "")
             && (0 <? Z.of_nat (String.length (strip cell_value)))
          then
            let '(r, counts) :=
              apply_patterns compiled_patterns cell_value false
                             (chunk_replacements st) in
            match r with
            | Raise _ =>
                {| sheet := sh; chunk_replacements := counts;
                   affected_rows := affected_rows st |}
            | Ok (cell_value, modified) =>
                if modified then
                  let sh := log (Write cell.1 cell.2 cell_value) sh in
                  match set_value cell cell_value sh with
                  | Raise _ =>
                      {| sheet := sh; chunk_replacements := counts;
                         affected_rows := affected_rows st |}
                  | Ok sh' =>
                      {| sheet := sh'; chunk_replacements := counts;
                         affected_rows := {[row sh' + cell.1]} ∪ affected_rows st |}
                  end
                else
                  {| sheet := sh; chunk_replacements := counts;
                     affected_rows := affected_rows st |}
            end
          else skip
      | _ => skip
      end
  end.

(** [columns_to_check]: a list is a restriction only when it is not empty. *)
Definition columns_to_check (cols : Z) (target_column_indices : option (list Z))
  : list Z :=
  match target_column_indices with
  | Some (idx :: rest) =>
      filter (fun col_idx => col_idx < cols) (idx :: rest)
  | _ => range 0 (Z.min cols 108)
  end.

Definition process_chunk `{ReTemplate} (used_range : Sheet) (start_row end_row cols : Z)
    (compiled_patterns : list pattern) (target_column_indices : option (list Z))
  : gmap string Z * gset Z * Sheet :=
  let initial :=
    foldl (fun d '(find_text, _, _) => <[find_text := 0]> d) ∅ compiled_patterns in
  let st :=
    foldl (fun st row_idx =>
             foldl (fun st col_idx => process_cell compiled_patterns row_idx col_idx st)
                   st (columns_to_check cols target_column_indices))
          {| sheet := used_range; chunk_replacements := initial;
             affected_rows := ∅ |}
          (range start_row end_row) in
  (chunk_replacements st, affected_rows st, sheet st).

(** [for find_text, count in d2.items(): d1[find_text] += count] *)
Definition add_counts (d1 d2 : gmap string Z) : gmap string Z :=
  map_fold (fun find_text count d => incr find_text count d) d1 d2.

(** [bool(d)] for a dictionary *)
Definition nonempty_dict {V} (d : gmap string V) : bool :=
  negb (bool_decide (d = ∅)).

(** The locals of [process_sheet_in_chunks] that the chunk loop updates. *)
Record sheet_state : Type := {
  used_range : Sheet;
  total_replacements : Z;
  replacement_details : gmap string Z;
  affected_rows_overall : gset Z;
  chunks_processed : Z;
  chunks_with_changes : Z
}.

Definition chunk_size_for (rows : Z) : Z :=
  if 100000 <? rows then 500
  else if 10000 <? rows then 1000
  else 5000.

(** The body of [for start_row in range(0, rows, chunk_size)]. *)
Definition chunk_step `{ReTemplate} (rows cols chunk_size : Z)
    (compiled_patterns : list pattern) (target_column_indices : option (list Z))
    (st : sheet_state) (start_row : Z) : sheet_state :=
  let end_row := Z.min (start_row + chunk_size) rows in
  let '(chunk_replacements, affected_rows, ur) :=
    process_chunk (used_range st) start_row end_row cols compiled_patterns
                  target_column_indices in
  if nonempty_dict chunk_replacements then
    {| used_range := ur;
       total_replacements := total_replacements st + sum_values chunk_replacements;
       replacement_details := add_counts (replacement_details st) chunk_replacements;
       affected_rows_overall := affected_rows_overall st ∪ affected_rows;
       chunks_processed := chunks_processed st + 1;
       chunks_with_changes := chunks_with_changes st + 1 |}
  else
    {| used_range := ur;
       total_replacements := total_replacements st;
       replacement_details := replacement_details st;
       affected_rows_overall := affected_rows_overall st;
       chunks_processed := chunks_processed st + 1;
       chunks_with_changes := chunks_with_changes st |}.

(** [sheet.range(...).row_height = 16] for every row of the set, a failure
    skipped. *)
Definition touch_rows (rows : gset Z) (sh : Sheet) : Sheet :=
  foldl (fun sh sheet_row =>
           match set_row_height sheet_row 16 sh with
           | Ok sh' => sh'
           | Raise _ => sh
           end) sh (sorted rows).

Definition process_sheet_in_chunks `{ReTemplate} (used_range : Sheet)
    (replacement_pairs : list (string * string)) (rows cols : Z)
    (target_column_indices : option (list Z)) : Z * gmap string Z * Sheet :=
  let replacement_details :=
    foldl (fun d '(find_text, _) => <[find_text := 0]> d) ∅ replacement_pairs in
  let compiled_patterns :=
    map (fun '(find_text, replace_text) =>
           (find_text, LiteralIgnoreCase find_text, replace_text))
        replacement_pairs in
  let chunk_size := chunk_size_for rows in
  let st :=
    foldl (chunk_step rows cols chunk_size compiled_patterns target_column_indices)
          {| used_range := used_range; total_replacements := 0;
             replacement_details := replacement_details;
             affected_rows_overall := ∅;
             chunks_processed := 0; chunks_with_changes := 0 |}
          (range_step 0 rows chunk_size) in
  let sh :=
    if 0 <? chunks_with_changes st
    then touch_rows (affected_rows_overall st) (FindReplace.used_range st)
    else FindReplace.used_range st in
  (total_replacements st, FindReplace.replacement_details st, sh).

(** [max(column_indices)] of a non-empty list *)
Definition list_max (l : list Z) (d : Z) : Z := foldl Z.max d l.

(** [column_indices] as [process_sheet_intelligently] computes it from
    [target_columns], the value under ["columns"] of the sheet's
    configuration or [None]. *)
Definition target_indices (target_columns : value) : res (option (list Z)) :=
  if truthy target_columns then
    match target_columns with
    | VStr spec => parse_column_range (Some spec)
    | _ => Raise AttributeError
    end
  else Ok None.

(** [if column_indices: cols = min(cols, max(column_indices) + 1)] *)
Definition limit_cols (cols : Z) (column_indices : option (list Z)) : Z :=
  match column_indices with
  | Some (idx :: rest) => Z.min cols (list_max rest idx + 1)
  | _ => cols
  end.

(** The row cap of this script is the constant 300. An exception raised
    before the scan starts ends the function with [(0, {})]. *)
Definition process_sheet_intelligently `{ReTemplate} (sheet : Sheet)
    (replacement_pairs : list (string * string)) (target_columns : value)
  : Z * gmap string Z * Sheet :=
  match target_indices target_columns with
  | Raise _ => (0, ∅, sheet)
  | Ok column_indices =>
      match shape sheet with
      | None => (0, ∅, sheet)
      | Some (rows, cols) =>
          let rows_to_process := Z.min rows 300 in
          let cols := limit_cols cols column_indices in
          process_sheet_in_chunks sheet replacement_pairs rows_to_process cols
                                  column_indices
      end
  end.

(** [str.strip] on Unicode text. *)
Fixpoint text_lstrip `{UnicodeData} (s : list Z) : list Z :=
  match s with
  | [] => []
  | c :: s' => if is_whitespace c then text_lstrip s' else s
  end.

Definition text_rstrip `{UnicodeData} (s : list Z) : list Z :=
  rev (text_lstrip (rev s)).

Definition text_strip `{UnicodeData} (s : list Z) : list Z :=
  text_rstrip (text_lstrip s).

(** [re.sub(r"\s+", " ", s)]: every run of white space becomes one space. *)
Fixpoint collapse_spaces `{UnicodeData} (in_run : bool) (s : list Z) : list Z :=
  match s with
  | [] => []
  | c :: s' =>
      if is_whitespace c
      then if in_run then collapse_spaces true s'
           else 32 :: collapse_spaces true s'
      else c :: collapse_spaces false s'
  end.

(** A name that is no [str] has the empty normalised name. *)
Definition _normalize_sheet_name `{UnicodeData} (name : value) : list Z :=
  match name with
  | VStr name =>
      let normalized := text_strip (normalize_NFKC (decode name)) in
      let normalized := collapse_spaces false normalized in
      str_lower normalized
  | _ => []
  end.

(** A sheet's configuration: the dictionary with the optional keys
    ["columns"] and ["enabled"]. *)
Definition config : Type := gmap string value.

(** The loop [for config_name, config in sheet_configurations.items()]
    with its [break]. The keys of the configuration are strings. *)
Fixpoint find_config `{UnicodeData} (sheet_configurations : list (string * config))
    (normalized_sheet_name : list Z) : option config :=
  match sheet_configurations with
  | [] => None
  | (config_name, config) :: rest =>
      if bool_decide (_normalize_sheet_name (VStr config_name) = normalized_sheet_name)
      then Some config
      else find_config rest normalized_sheet_name
  end.

(** What the sheet loop decides before it touches the sheet: skip it, or
    process it with the given [target_columns]. An absent or empty
    [sheet_configurations] is the empty list. *)
Inductive decision : Type :=
| Skip
| Process (target_columns : value).

Definition sheet_decision `{UnicodeData} (sheet_configurations : list (string * config))
    (sheet_name : string) : decision :=
  match sheet_configurations with
  | [] => Process VNone
  | _ =>
      match find_config sheet_configurations
                        (_normalize_sheet_name (VStr sheet_name)) with
      | None => Skip
      | Some sheet_config =>
          if negb (nonempty_dict sheet_config) then Skip
          else if negb (truthy (default (VBool true) (sheet_config !! "enabled")))
          then Skip
          else Process (default VNone (sheet_config !! "columns"))
      end
  end.

Record file_state : Type := {
  done_sheets : list Sheet;
  modifications_made : bool;
  file_total : Z;
  file_details : gmap string Z
}.

(** The body of [for i, sheet in enumerate(wb.sheets, 1)]. *)
Definition sheet_step `{ReTemplate} `{UnicodeData}
    (replacement_pairs : list (string * string))
    (sheet_configurations : list (string * config))
    (st : file_state) (sheet : Sheet) : file_state :=
  match sheet_decision sheet_configurations (name sheet) with
  | Skip =>
      {| done_sheets := done_sheets st ++ [sheet];
         modifications_made := modifications_made st;
         file_total := file_total st; file_details := file_details st |}
  | Process target_columns =>
      let sheet := try_unprotect sheet in
      let '(sheet_replacements, sheet_replacement_details, sheet) :=
        process_sheet_intelligently sheet replacement_pairs target_columns in
      if 0 <? sheet_replacements then
        {| done_sheets := done_sheets st ++ [sheet];
           modifications_made := true;
           file_total := file_total st + sheet_replacements;
           file_details := add_counts (file_details st) sheet_replacement_details |}
      else
        {| done_sheets := done_sheets st ++ [sheet];
           modifications_made := modifications_made st;
           file_total := file_total st; file_details := file_details st |}
  end.

(** [opened] is the outcome of starting Excel, opening the workbook and
    reading its sheets: the list of the sheets, or the exception raised on
    the way, which the outer handler of the function turns into
    [(False, 0, {})]. [save_fails] tells whether [wb.save()] raises. The
    result is [(success, total, details)] and the sheets as the run leaves
    them, none when the workbook was not opened. *)
Definition process_excel_with_xlwings `{ReTemplate} `{UnicodeData}
    (opened : res (list Sheet)) (save_fails : bool)
    (replacement_pairs : list (string * string))
    (sheet_configurations : list (string * config))
  : bool * Z * gmap string Z * list Sheet :=
  match opened with
  | Raise _ => (false, 0, ∅, [])
  | Ok wb =>
      let replacement_details :=
        foldl (fun d '(find_text, _) => <[find_text := 0]> d) ∅ replacement_pairs in
      let st :=
        foldl (sheet_step replacement_pairs sheet_configurations)
              {| done_sheets := []; modifications_made := false;
                 file_total := 0; file_details := replacement_details |} wb in
      if modifications_made st then
        if save_fails then (false, 0, ∅, done_sheets st)
        else (true, file_total st, file_details st, done_sheets st)
      else (true, 0, file_details st, done_sheets st)
  end.

End FindReplace.

(** ** The rule-driven script ([excel_processor.py]) *)

Module Rules.
Import PyStr Columns Parser Xl.

(** A rule of the list given to [process_sheet_with_rules]: [rule_name] is
    [None] when the key ["name"] is absent ([main] fills in the default
    that [entry_of] uses). *)
Record rule : Type := {
  rule_name : option string;
  search_column : string;
  search_value : value;
  update_column : string;
  target_value : value
}.

(** The dictionary appended to a group of [grouped_rules]. *)
Record entry : Type := {
  e_name : string;
  e_search_value : string;
  e_target_value : string;
  e_original_search : string
}.

Definition entry_of (r : rule) : entry :=
  {| e_name := default "Unnamed rule" (rule_name r);
     e_search_value := lower (strip (py_str (search_value r)));
     e_target_value := py_str (target_value r);
     e_original_search := py_str (search_value r) |}.

(** [grouped_rules] keeps the order in which its keys were first seen. *)
Definition groups : Type := list (string * string * list entry).

(** [if key not in grouped_rules: grouped_rules[key] = []] and the
    [append] after it. *)
Fixpoint group_append (key : string * string) (e : entry) (g : groups) : groups :=
  match g with
  | [] => [(key, [e])]
  | (k, es) :: rest =>
      if decide (k = key) then (k, es ++ [e]) :: rest
      else (k, es) :: group_append key e rest
  end.

Definition group_rules (rules : list rule) : groups :=
  foldl (fun g r => group_append (search_column r, update_column r) (entry_of r) g)
        [] rules.

(** The locals of [process_sheet_with_rules] that its loops update. *)
Record state : Type := {
  used_range : Sheet;
  total_updates : Z;
  update_details : gmap string Z;
  all_affected_rows : gset Z
}.

(** [lookup = {}] and the loop that fills it and resets the counters. *)
Definition build_lookup (rule_group : list entry)
  : gmap string (string * string) :=
  foldl (fun lookup e => <[e_search_value e := (e_target_value e, e_name e)]> lookup)
        ∅ rule_group.

Definition reset_details (rule_group : list entry) (d : gmap string Z)
  : gmap string Z :=
  foldl (fun d e => <[e_name e := 0]> d) d rule_group.

(** The body of [for row_idx in range(rows_to_process)], with its handler. *)
Definition row_step (search_col_idx update_col_idx : Z)
    (lookup : gmap string (string * string)) (st : state) (row_idx : Z) : state :=
  let sh := log (Index row_idx search_col_idx) (used_range st) in
  let skip sh := {| used_range := sh; total_updates := total_updates st;
                    update_details := update_details st;
                    all_affected_rows := all_affected_rows st |} in
  match getitem sh row_idx search_col_idx with
  | Raise _ => skip sh
  | Ok search_cell =>
      let search_cell_value := get_value sh search_cell in
      if negb (truthy search_cell_value) then skip sh
      else
        let normalized_search := lower (strip (py_str search_cell_value)) in
        match lookup !! normalized_search with
        | None => skip sh
        | Some (target_value, rule_name) =>
            let sh := log (Index row_idx update_col_idx) sh in
            match getitem sh row_idx update_col_idx with
            | Raise _ => skip sh
            | Ok update_cell =>
                let current_value := get_value sh update_cell in
                let current_value_str :=
                  match current_value with
                  | VNone => ""
                  | v => py_str v
                  end in
                if negb (String.eqb (strip current_value_str) (strip target_value))
                then
                  let sh := log (Write update_cell.1 update_cell.2 target_value) sh in
                  match set_value update_cell target_value sh with
                  | Raise _ => skip sh
                  | Ok sh' =>
                      {| used_range := sh';
                         total_updates := total_updates st + 1;
                         update_details := incr rule_name 1 (update_details st);
                         all_affected_rows :=
                           {[row_idx + 1]} ∪ all_affected_rows st |}
                  end
                else skip sh
            end
        end
  end.

(** The body of [for (search_col, update_col), rule_group in
    grouped_rules.items()]. *)
Definition group_step (rows_to_process : Z) (st : state)
    (g : string * string * list entry) : state :=
  let '(search_col, update_col, rule_group) := g in
  let search_col_idx := column_letter_to_index search_col in
  let update_col_idx := column_letter_to_index update_col in
  let lookup := build_lookup rule_group in
  let st := {| used_range := used_range st; total_updates := total_updates st;
               update_details := reset_details rule_group (update_details st);
               all_affected_rows := all_affected_rows st |} in
  foldl (row_step search_col_idx update_col_idx lookup) st
        (range 0 rows_to_process).

(** The row heights of the rule script: every affected row, a failure
    skipped. The heights do not depend on the order of the rows. *)
Definition touch_rows (rows : gset Z) (sh : Sheet) : Sheet :=
  foldl (fun sh row_num =>
           match set_row_height row_num 16 sh with
           | Ok sh' => sh'
           | Raise _ => sh
           end) sh (elements rows).

Definition process_sheet_with_rules (sheet : Sheet) (rules : list rule)
    (max_rows_to_process : Z) : Z * gmap string Z * Sheet :=
  match shape sheet with
  | None => (0, ∅, sheet)
  | Some (rows, cols) =>
      let rows_to_process := Z.min rows max_rows_to_process in
      let grouped_rules := group_rules rules in
      let st :=
        foldl (group_step rows_to_process)
              {| used_range := sheet; total_updates := 0;
                 update_details := ∅; all_affected_rows := ∅ |}
              grouped_rules in
      (total_updates st, update_details st,
       touch_rows (all_affected_rows st) (used_range st))
  end.

(** The default of the parameter [max_rows_to_process] and of the
    configuration key of the same name. *)
Definition default_max_rows : Z := 300.

(** What the sheet loop decides before it touches the sheet. *)
Inductive decision : Type :=
| Skip
| Process (rules : list rule).

Definition sheet_decision (sheet_rules : gmap string (list rule))
    (sheet_name : string) : decision :=
  match sheet_rules !! sheet_name with
  | None => Skip
  | Some [] => Skip
  | Some rules => Process rules
  end.

Record file_state : Type := {
  done_sheets : list Sheet;
  modifications_made : bool;
  file_total : Z;
  file_details : gmap string Z
}.

(** [if rule_name not in update_details: update_details[rule_name] = 0]
    and the [+=] after it, for every item of the sheet's details. *)
Definition add_counts (d1 d2 : gmap string Z) : gmap string Z :=
  map_fold (fun rule_name count d => incr rule_name count d) d1 d2.

(** The body of [for i, sheet in enumerate(wb.sheets, 1)]; [max_rows] is
    the configured [max_rows_to_process], absent by default. *)
Definition sheet_step (sheet_rules : gmap string (list rule)) (max_rows : option Z)
    (st : file_state) (sheet : Sheet) : file_state :=
  match sheet_decision sheet_rules (name sheet) with
  | Skip =>
      {| done_sheets := done_sheets st ++ [sheet];
         modifications_made := modifications_made st;
         file_total := file_total st; file_details := file_details st |}
  | Process rules =>
      let sheet := try_unprotect sheet in
      let '(sheet_updates, sheet_update_details, sheet) :=
        process_sheet_with_rules sheet rules (default default_max_rows max_rows) in
      if 0 <? sheet_updates then
        {| done_sheets := done_sheets st ++ [sheet];
           modifications_made := true;
           file_total := file_total st + sheet_updates;
           file_details := add_counts (file_details st) sheet_update_details |}
      else
        {| done_sheets := done_sheets st ++ [sheet];
           modifications_made := modifications_made st;
           file_total := file_total st; file_details := file_details st |}
  end.

(** [opened] is the outcome of starting Excel, opening the workbook and
    reading its sheets: the list of the sheets, or the exception raised on
    the way, which the outer handler of the function turns into
    [(False, 0, {})]. [save_fails] tells whether [wb.save()] raises. *)
Definition process_excel_with_xlwings (opened : res (list Sheet)) (save_fails : bool)
    (sheet_rules : gmap string (list rule)) (max_rows : option Z)
  : bool * Z * gmap string Z * list Sheet :=
  match opened with
  | Raise _ => (false, 0, ∅, [])
  | Ok wb =>
      let st :=
        foldl (sheet_step sheet_rules max_rows)
              {| done_sheets := []; modifications_made := false;
                 file_total := 0; file_details := ∅ |} wb in
      if modifications_made st then
        if save_fails then (false, 0, ∅, done_sheets st)
        else (true, file_total st, file_details st, done_sheets st)
      else (true, 0, file_details st, done_sheets st)
  end.

End Rules.

(** Instances used to run the scripts on examples. Templates with a
    backslash are left to the library and rejected here. The Unicode tables
    are those of Python on text made of ASCII, the letters U+00C0 to U+00FF,
    the white space characters, and the fullwidth forms of ASCII: the white
    space set is the full one, lower-casing adds 32 to the capital letters
    below U+0100, NFKC turns the no-break space and the ideographic space
    into a space and a fullwidth form into its ASCII character. *)
Definition plain_templates : ReTemplate.
Proof.
  refine {| compile_template := fun repl =>
              if PyStr.contains "\" repl then None else Some (fun _ => repl) |}.
  intros repl ->. reflexivity.
Defined.

Definition plain_lower (c : Z) : Z :=
  if ((65 <=? c) && (c <=? 90))
     || ((192 <=? c) && (c <=? 222) && negb (c =? 215))
  then c + 32 else c.

Definition plain_nfkc (c : Z) : Z :=
  if (c =? 160) || (c =? 12288) then 32
  else if (65281 <=? c) && (c <=? 65374) then c - 65248
  else c.

Definition plain_is_whitespace (c : Z) : bool :=
  ((9 <=? c) && (c <=? 13)) || ((28 <=? c) && (c <=? 32))
  || (c =? 133) || (c =? 160) || (c =? 5760)
  || ((8192 <=? c) && (c <=? 8202))
  || (c =? 8232) || (c =? 8233) || (c =? 8239) || (c =? 8287) || (c =? 12288).

Definition plain_unicode : UnicodeData :=
  {| normalize_NFKC := map plain_nfkc;
     str_lower := map plain_lower;
     is_whitespace := plain_is_whitespace;
     str_lower_nil := eq_refl;
     str_lower_space := fun a b => map_app plain_lower a (32 :: b) |}.

(** ** Notions the statements use *)

Module ColumnOrder.
Import PyStr.

(** A column name: capital letters only. *)
Definition valid_letters (L : string) : bool := forallb is_upper_letter (chars L).

(** Letter by letter, for names of the same length. *)
Fixpoint lex_ltb (a b : string) : bool :=
  match a, b with
  | String c a', String d b' =>
      (ord c <? ord d) || ((ord c =? ord d) && lex_ltb a' b')
  | _, _ => false
  end.

(** The order of the columns of a spreadsheet: A, B, ..., Z, AA, AB, ...:
    shorter names first, names of one length by their letters. *)
Definition column_ltb (a b : string) : bool :=
  (String.length a <? String.length b)%nat
  || ((String.length a =? String.length b)%nat && lex_ltb a b).
End ColumnOrder.

Module Denotation.
Import PyStr Columns Parser.
(** The indices one part of a spec stands for: a single column, or the
    columns from the start to the end of a range. *)
Definition part_indices (part : string) : list Z :=
  if contains ":" part then
    match split ":" part with
    | [start_col; end_col] =>
        range (column_letter_to_index (strip start_col))
              (column_letter_to_index (strip end_col) + 1)
    | _ => []
    end
  else [column_letter_to_index part].
End Denotation.

Module Frame.
Import Columns Xl.

(** Some access [used_range[i, j]] with [P i j] denotes the cell at [pos]. *)
Definition denotes (P : Z -> Z -> Prop) (sh : Sheet) (pos : Z * Z) : Prop :=
  exists i j, P i j /\ getitem sh i j = Ok pos.

Definition event_within (P : Z -> Z -> Prop) (sh : Sheet) (e : event) : Prop :=
  match e with
  | Index i j => P i j
  | Write r c _ => denotes P sh (r, c)
  end.

(** [sh'] comes from [sh] by accesses within [P]: the events added to the
    trace are within [P], and a cell no such access denotes keeps its
    content. *)
Record frame (P : Z -> Z -> Prop) (sh sh' : Sheet) : Prop := {
  frame_name : name sh' = name sh;
  frame_shape : shape sh' = shape sh;
  frame_row : row sh' = row sh;
  frame_protect : protect sh' = protect sh;
  frame_trace : exists new, trace sh' = new ++ trace sh
                            /\ Forall (event_within P sh) new;
  frame_cells : forall pos, ~ denotes P sh pos -> cells sh' !! pos = cells sh !! pos
}.

(** The number of assignments to cell values in a trace. *)
Fixpoint count_writes (t : list event) : nat :=
  match t with
  | [] => 0
  | Write _ _ _ :: t' => S (count_writes t')
  | Index _ _ :: t' => count_writes t'
  end.

Definition writes (sh : Sheet) : nat := count_writes (trace sh).

(** The rows and columns [process_chunk] works on. *)
Definition in_chunk (start_row end_row : Z) (columns : list Z) (i j : Z) : Prop :=
  start_row <= i < end_row /\ j ∈ columns.

(** The accesses of one group of rules. *)
Definition in_group (rows_to_process : Z) (search_col update_col : string) (i j : Z) : Prop :=
  0 <= i < rows_to_process
  /\ (j = column_letter_to_index search_col \/ j = column_letter_to_index update_col).

Definition event_row (e : event) : Z :=
  match e with
  | Index i _ => i
  | Write r _ _ => r
  end.

End Frame.

Module Chain.
Import PyStr Xl FindReplace.
(** What one pair does to a value: the new value and the number of
    matches; a rejected template does nothing. *)
Definition subst_one `{ReTemplate} (p : pattern) (v : string) : string * Z :=
  match subn p.1.2 p.2 v with
  | Ok r => r
  | Raise _ => (v, 0)
  end.

(** The pairs applied one after the other, each to the value the pairs
    before it produced. *)
Fixpoint chain `{ReTemplate} (pats : list pattern) (v : string) : string :=
  match pats with
  | [] => v
  | p :: rest => chain rest (subst_one p v).1
  end.

(** The number of matches of every pair, by position. *)
Fixpoint pair_counts `{ReTemplate} (pats : list pattern) (v : string) : list Z :=
  match pats with
  | [] => []
  | p :: rest => (subst_one p v).2 :: pair_counts rest (subst_one p v).1
  end.

(** The counts of the pairs whose find text is [k], added up. *)
Fixpoint count_for (k : string) (pats : list pattern) (ns : list Z) : Z :=
  match pats, ns with
  | (find_text, _, _) :: ps, n :: ns' =>
      (if decide (find_text = k) then n else 0) + count_for k ps ns'
  | _, _ => 0
  end.

Definition templates_ok `{ReTemplate} (pats : list pattern) : Prop :=
  Forall (fun p : pattern => is_Some (compile_template p.2)) pats.

Definition some_match (ns : list Z) : bool := existsb (Z.ltb 0) ns.

(** Two characters are the same letter: the same character, or a capital
    letter A to Z and its small letter. *)
Definition same_letter (a c : ascii) : bool :=
  let x := ord a in
  let y := ord c in
  (x =? y)
  || ((65 <=? x) && (x <=? 90) && (y =? x + 32))
  || ((65 <=? y) && (y <=? 90) && (x =? y + 32)).

(** Two texts are equal up to letter case. *)
Fixpoint same_text (a b : string) : bool :=
  match a, b with
  | EmptyString, EmptyString => true
  | String x a', String y b' => same_letter x y && same_text a' b'
  | _, _ => false
  end.

(** [out] is [s] with its pieces equal to [lit] up to letter case replaced,
    the pieces taken from left to right without overlap, and [n] is their
    number. *)
Inductive replaced (lit : string) (repl : string -> string)
  : string -> string -> Z -> Prop :=
| replaced_end : replaced lit repl "" "" 0
| replaced_hit m rest out n :
    same_text m lit = true ->
    replaced lit repl rest out n ->
    replaced lit repl (m +:+ rest) (repl m +:+ out) (n + 1)
| replaced_miss c s out n :
    (forall m rest, String c s = m +:+ rest -> same_text m lit = false) ->
    replaced lit repl s out n ->
    replaced lit repl (String c s) (String c out) n.

(** The pairs that are applied: those before the first pair whose
    replacement text the library rejects. *)
Fixpoint accepted `{ReTemplate} (pats : list pattern) : list pattern :=
  match pats with
  | [] => []
  | p :: rest =>
      match compile_template p.2 with
      | Some _ => p :: accepted rest
      | None => []
      end
  end.

(** The sheet takes a write: it is not protected. *)
Definition writable (sh : Sheet) : bool :=
  match protect sh with
  | Unprotected => true
  | _ => false
  end.

Definition all_accepted `{ReTemplate} (pats : list pattern) : bool :=
  forallb (fun p : pattern =>
             match compile_template p.2 with Some _ => true | None => false end)
          pats.
End Chain.

Module RuleSpec.
Import PyStr Xl Rules.
(** [str(current_value) if current_value is not None else ""] *)
Definition cell_text (v : value) : string :=
  match v with
  | VNone => ""
  | v => py_str v
  end.

(** The last rule of the group whose normalised search value is [k]. *)
Definition last_match (k : string) (rule_group : list entry) : option entry :=
  list.last (filter (fun e => e_search_value e = k) rule_group).

End RuleSpec.

Module Names.
Import Rules.
(** No rule name of a group occurs in a later group. *)
Fixpoint names_apart (g : groups) : Prop :=
  match g with
  | [] => True
  | (_, es) :: rest =>
      (forall e e' k es', e ∈ es -> (k, es') ∈ rest -> e' ∈ es' ->
                          e_name e <> e_name e')
      /\ names_apart rest
  end.
End Names.

Module NameWords.
Import UStr.
(** The text starts with a character that is no white space. *)
Definition starts_word `{UnicodeData} (s : list Z) : bool :=
  match s with
  | c :: _ => negb (is_whitespace c)
  | [] => false
  end.

(** The text starts with white space. *)
Definition lead `{UnicodeData} (s : list Z) : bool :=
  match s with
  | c :: _ => is_whitespace c
  | [] => false
  end.

(** [s.split()]: the words of a text, its maximal runs without white
    space. *)
Fixpoint words `{UnicodeData} (s : list Z) : list (list Z) :=
  match s with
  | [] => []
  | c :: s' =>
      if is_whitespace c then words s'
      else if starts_word s' then
             match words s' with
             | w :: ws => (c :: w) :: ws
             | [] => [[c]]
             end
           else [c] :: words s'
  end.

(** [" ".join(ws)] *)
Fixpoint join_words (ws : list (list Z)) : list Z :=
  match ws with
  | [] => []
  | w :: ws' =>
      match ws' with
      | [] => w
      | _ :: _ => w ++ 32 :: join_words ws'
      end
  end.

(** The words of the NFKC form of a sheet name, each lower-cased: what is
    left of a name when letter case, Unicode form and the amount of white
    space are disregarded. *)
Definition name_words `{UnicodeData} (name : string) : list (list Z) :=
  str_lower <$> words (normalize_NFKC (decode name)).
End NameWords.

Module Examples.
Import Xl Rules.

(** An unprotected sheet whose used range starts in row 1. *)
Definition make_sheet (rows cols : Z) (content : list (Z * Z * value)) : Sheet :=
  {| name := "Sheet1"; shape := Some (rows, cols); row := 1;
     cells := list_to_map content; protect := Unprotected;
     row_height := ∅; trace := [] |}.

Definition cell_A : Sheet := make_sheet 1 1 [((0, 0), VStr "A")].

Definition a_b_c : list FindReplace.pattern :=
  [("A", FindReplace.LiteralIgnoreCase "A", "B");
   ("B", FindReplace.LiteralIgnoreCase "B", "C")].

Definition foo_bar : list FindReplace.pattern :=
  [("foo", FindReplace.LiteralIgnoreCase "foo", "bar")].

(** The second replacement text ends in a backslash, which [re] rejects. *)
Definition a_b_bad : list FindReplace.pattern :=
  [("A", FindReplace.LiteralIgnoreCase "A", "B");
   ("B", FindReplace.LiteralIgnoreCase "B", "\")].

Definition cell_xay : Sheet := make_sheet 1 1 [((0, 0), VStr "xay")].
Definition start_of (sh : Sheet) : FindReplace.chunk_state :=
  {| FindReplace.sheet := sh; FindReplace.chunk_replacements := ∅;
     FindReplace.affected_rows := ∅ |}.

Definition big_sheet : Sheet := make_sheet 10000 3 [((0, 0), VStr "A")].

(** A rule without the key ["name"]. *)
Definition unnamed (sc sv uc tv : string) : rule :=
  {| rule_name := None; search_column := sc; search_value := VStr sv;
     update_column := uc; target_value := VStr tv |}.

Definition two_unnamed_rules : list rule :=
  [unnamed "A" "x" "B" "t"; unnamed "C" "y" "D" "u"].

Definition row_x : Sheet := make_sheet 1 4 [((0, 0), VStr "x")].

Definition row_x_upper : Sheet :=
  make_sheet 1 2 [((0, 0), VStr "x"); ((0, 1), VStr "ABC")].

Definition row_x_lower : Sheet :=
  make_sheet 1 2 [((0, 0), VStr "x"); ((0, 1), VStr "abc")].

Definition rule_ABC : list rule := [unnamed "A" "x" "B" "ABC"].

Definition rules_start (sh : Sheet) : state :=
  {| used_range := sh; total_updates := 0; update_details := ∅;
     all_affected_rows := ∅ |}.

(** A configuration with one sheet, limited to column A. *)
Definition summer_config : list (string * FindReplace.config) :=
  [("Été 2024", {["columns" := VStr "A"]})].

End Examples.

(** ** Notions of the further facts *)

Module WellFormed.
Import PyStr Columns ColumnOrder.
(** A column name as the docstring of [parse_column_range] shows them:
    capital letters, at least one. *)
Definition wf_name (s : string) : bool :=
  valid_letters s && negb (String.eqb s "").

(** A part of a spec: a name, or two names around one colon. *)
Definition wf_part (part : string) : bool :=
  if contains ":" part then
    match split ":" part with
    | [start_col; end_col] => wf_name (strip start_col) && wf_name (strip end_col)
    | _ => false
    end
  else wf_name part.
End WellFormed.

Module Touch.
Import PyStr Xl FindReplace Chain.
(** The replacement texts of the pairs are all accepted by the library. *)
Definition pairs_ok `{ReTemplate} (replacement_pairs : list (string * string)) : Prop :=
  Forall (fun p : string * string => is_Some (compile_template p.2)) replacement_pairs.

(** A cell the find/replace engine can change: the sheet is not protected,
    the replacement texts are accepted, the cell holds text that is not
    blank. *)
Definition touchable (ok : Prop) (sh : Sheet) (pos : Z * Z) : Prop :=
  protect sh = Unprotected /\ ok
  /\ exists v, cells sh !! pos = Some (VStr v) /\ strip v <> "".

(** Only touchable cells differ between [sh] and [sh']. *)
Definition stable (ok : Prop) (sh sh' : Sheet) : Prop :=
  protect sh' = protect sh
  /\ forall pos, ~ touchable ok sh pos -> cells sh' !! pos = cells sh !! pos.
End Touch.

Module Grouping.
Import Rules.
(** The column pair a rule is grouped under. *)
Definition rule_key (r : rule) : string * string :=
  (search_column r, update_column r).

(** The entries of the rules of one column pair, in the order of the rules. *)
Definition entries_of_key (key : string * string) (rules : list rule) : list entry :=
  entry_of <$> filter (fun r => rule_key r = key) rules.

(** The entries a key has in [g] ([[]] when the key is absent). *)
Fixpoint group_of (key : string * string) (g : groups) : list entry :=
  match g with
  | [] => []
  | (k, es) :: rest => if decide (k = key) then es else group_of key rest
  end.
End Grouping.

Module Firing.
Import Columns Xl Rules.
(** The rule [r] can fire in row [i] of the sheet: the sheet is not
    protected and both columns of the rule lie in the used range. *)
Definition can_fire (sh : Sheet) (r : rule) (i : Z) : Prop :=
  protect sh = Unprotected
  /\ is_ok (getitem sh i (column_letter_to_index (search_column r))) = true
  /\ is_ok (getitem sh i (column_letter_to_index (update_column r))) = true.

(** The cell holds a value the rule [r] put in row [i]. *)
Definition written_by (sh0 : Sheet) (r : rule) (i : Z) (pos : Z * Z)
    (content : option value) : Prop :=
  can_fire sh0 r i
  /\ getitem sh0 i (column_letter_to_index (update_column r)) = Ok pos
  /\ content = Some (VStr (py_str (target_value r))).

(** The invariant of the loops of [process_sheet_with_rules], relative to
    the sheet [sh0] the run started from and its rules. *)
Record rules_inv (rules : list rule) (n : Z) (sh0 : Sheet) (st : state) : Prop := {
  inv_shape : shape (used_range st) = shape sh0;
  inv_protect : protect (used_range st) = protect sh0;
  inv_cells : forall pos,
    cells (used_range st) !! pos = cells sh0 !! pos
    \/ exists r i, r ∈ rules /\ 0 <= i < n
                   /\ written_by sh0 r i pos (cells (used_range st) !! pos);
  inv_quiet : (forall r i, r ∈ rules -> 0 <= i < n -> ~ can_fire sh0 r i) ->
    cells (used_range st) = cells sh0
    /\ total_updates st = 0
    /\ map_Forall (fun _ c => c = 0) (update_details st)
}.
End Firing.

Module Report.
(** A report of the find/replace engine for the given find texts: one
    entry for every find text, no other entry, no negative count. *)
Definition report_for (find_texts : list string) (details : gmap string Z) : Prop :=
  dom details = list_to_set find_texts
  /\ map_Forall (fun _ count => 0 <= count) details.
End Report.

Module SinglePass.
Import Xl FindReplace.
(** The body of [for row_idx in range(start_row, end_row)] of
    [process_chunk]. *)
Definition row_body `{ReTemplate} (pats : list pattern) (cols : Z)
    (target : option (list Z)) (st : chunk_state) (row_idx : Z) : chunk_state :=
  foldl (fun st col_idx => process_cell pats row_idx col_idx st) st
        (columns_to_check cols target).

(** The count under [k], 0 when there is none. *)
Definition count_of (d : gmap string Z) (k : string) : Z := default 0 (d !! k).

(** [stg] is [stl] with the rows [B] and the counts [b] added. *)
Definition shifted (B : gset Z) (b : string -> Z) (stg stl : chunk_state) : Prop :=
  sheet stg = sheet stl
  /\ affected_rows stg = B ∪ affected_rows stl
  /\ forall k, count_of (chunk_replacements stg) k
               = b k + count_of (chunk_replacements stl) k.

(** The compiled patterns of [process_sheet_in_chunks]. *)
Definition compile_pairs (replacement_pairs : list (string * string)) : list pattern :=
  map (fun '(find_text, replace_text) =>
         (find_text, LiteralIgnoreCase find_text, replace_text))
      replacement_pairs.
End SinglePass.

(** *** The rules [main] files under each sheet ([excel_processor.py]) *)

Module RulesMain.
Import Xl.
(** An element of ["search_and_update_rules"] of the configuration: every
    key can be absent; the sheet name is a string when present. *)
Record json_rule : Type := {
  j_enabled : option value;
  j_sheet_name : option string;
  j_name : option value;
  j_search_column : option value;
  j_search_value : option value;
  j_update_column : option value;
  j_target_value : option value
}.

(** The dictionary [main] appends to the rules of a sheet. *)
Record built_rule : Type := {
  b_name : value;
  b_search_column : value;
  b_search_value : value;
  b_update_column : value;
  b_target_value : value
}.

Definition build (rule : json_rule) : built_rule :=
  {| b_name := default (VStr "Unnamed rule") (j_name rule);
     b_search_column := default VNone (j_search_column rule);
     b_search_value := default VNone (j_search_value rule);
     b_update_column := default VNone (j_update_column rule);
     b_target_value := default VNone (j_target_value rule) |}.

(** [rule.get('enabled', True)] is truthy and [rule.get('sheet_name')] is
    the non-empty [sheet_name]. *)
Definition active_on (sheet_name : string) (rule : json_rule) : bool :=
  truthy (default (VBool true) (j_enabled rule))
  && bool_decide (j_sheet_name rule = Some sheet_name)
  && negb (String.eqb sheet_name "").

(** The body of [for rule in search_update_rules] of [main]. *)
Definition add_rule (sheet_rules : gmap string (list built_rule)) (rule : json_rule)
  : gmap string (list built_rule) :=
  if negb (truthy (default (VBool true) (j_enabled rule))) then sheet_rules
  else
    match j_sheet_name rule with
    | None => sheet_rules
    | Some sheet_name =>
        if String.eqb sheet_name "" then sheet_rules
        else <[sheet_name := default [] (sheet_rules !! sheet_name) ++ [build rule]]>
               sheet_rules
    end.

Definition organize_rules (search_update_rules : list json_rule)
  : gmap string (list built_rule) :=
  foldl add_rule ∅ search_update_rules.
End RulesMain.

Module MoreExamples.
Import Xl Rules.
(** A protected sheet whose protection the empty password does not lift. *)
Definition locked_row : Sheet :=
  {| name := "Sheet1"; shape := Some (1, 2); row := 1;
     cells := list_to_map [((0, 0), VStr "x"); ((0, 1), VStr "abc")];
     protect := Locked; row_height := ∅; trace := [] |}.

Definition named (n sc sv uc tv : string) : rule :=
  {| rule_name := Some n; search_column := sc; search_value := VStr sv;
     update_column := uc; target_value := VStr tv |}.

Definition two_named_rules : list rule :=
  [named "first" "A" "x" "B" "t"; named "second" "C" "y" "D" "u"].
End MoreExamples.

(** * Facts *)

Import PyStr UStr Columns Parser Xl ColumnOrder Denotation Frame Chain RuleSpec
  Names NameWords Examples.

(** ** Column letters *)

Lemma ord_chr n : 0 <= n < 256 -> ord (chr n) = n.
Proof.
  intros Hn. unfold ord, chr.
  rewrite N_ascii_embedding by lia. lia.
Qed.

Lemma chr_ord c : chr (ord c) = c.
Proof. unfold ord, chr. rewrite N2Z.id. apply ascii_N_embedding. Qed.

Lemma ord_range c : 0 <= ord c < 256.
Proof.
  unfold ord. pose proof (N_ascii_bounded c). lia.
Qed.

Lemma upper_char_letter c : is_upper_letter c = true -> upper_char c = c.
Proof.
  unfold is_upper_letter, upper_char. intros H.
  destruct (97 <=? ord c) eqn:E1; [|done]. lia.
Qed.

Lemma upper_valid L : valid_letters L = true -> upper L = L.
Proof.
  unfold valid_letters, upper. induction L as [|c L IH]; simpl; [done|].
  intros [Hc HL]%andb_prop. rewrite upper_char_letter by done.
  by rewrite IH.
Qed.

Lemma index_loop_zero temp letter : temp <= 0 -> index_loop temp letter = letter.
Proof.
  intros H. simp index_loop. destruct (Z_lt_dec 0 temp); [lia|]. by simpl.
Qed.

Lemma index_loop_step temp letter :
  0 < temp ->
  index_loop temp letter =
  index_loop ((temp - 1) / 26) (String (chr ((temp - 1) mod 26 + ord "A")) letter).
Proof.
  intros H. rewrite index_loop_equation_1 at 1.
  destruct (Z_lt_dec 0 temp); [|lia]. by simpl.
Qed.

Lemma append_cons a (s t : string) : String a s +:+ t = String a (s +:+ t).
Proof. reflexivity. Qed.

Lemma append_empty_r (s : string) : s +:+ "" = s.
Proof. induction s as [|a s IH]; [done|]. by rewrite append_cons, IH. Qed.

Lemma index_loop_letters L : forall result letter,
  valid_letters L = true -> 0 <= result ->
  index_loop (letters_loop L result) letter = index_loop result (L +:+ letter).
Proof.
  induction L as [|c L IH]; intros result letter HL Hr; [done|].
  apply andb_prop in HL as [Hc HL]. simpl.
  unfold is_upper_letter in Hc. apply andb_prop in Hc as [H1 H2].
  change (ord "A") with 65.
  rewrite IH by (done || lia).
  rewrite append_cons.
  rewrite index_loop_step by lia.
  replace (result * 26 + (ord c - 65 + 1) - 1) with ((ord c - 65) + result * 26) by lia.
  rewrite Z.div_add, Z_mod_plus_full by lia.
  rewrite Z.div_small, Z.mod_small by lia.
  change (ord "A") with 65.
  replace (ord c - 65 + 65) with (ord c) by lia.
  rewrite chr_ord. done.
Qed.

Lemma round_trip L :
  valid_letters L = true -> column_index_to_letter (column_letter_to_index L) = L.
Proof.
  intros HL. unfold column_index_to_letter, column_letter_to_index.
  rewrite upper_valid by done.
  replace (letters_loop L 0 - 1 + 1) with (letters_loop L 0) by lia.
  rewrite index_loop_letters by (done || lia).
  rewrite index_loop_zero by lia. apply append_empty_r.
Qed.

Lemma letter_digit c :
  is_upper_letter c = true -> 1 <= ord c - ord "A" + 1 <= 26.
Proof.
  unfold is_upper_letter. change (ord "A") with 65.
  intros [H1 H2]%andb_prop. lia.
Qed.

(** A longer or equally long word with a larger prefix value is larger. *)
Lemma letters_loop_lt b : forall a r1 r2,
  valid_letters a = true -> valid_letters b = true ->
  (String.length a <= String.length b)%nat -> 0 <= r1 < r2 ->
  letters_loop a r1 < letters_loop b r2.
Proof.
  induction b as [|d b IH]; intros [|c a] r1 r2 Ha Hb Hlen Hr; simpl in *;
    try lia.
  - apply andb_prop in Hb as [Hd Hb]. apply letter_digit in Hd.
    apply (IH "" r1); simpl; [done|done|lia|lia].
  - apply andb_prop in Hb as [Hd Hb]. apply letter_digit in Hd.
    apply andb_prop in Ha as [Hc Ha]. apply letter_digit in Hc.
    apply IH; [done|done|lia|lia].
Qed.

Lemma letters_loop_lex a : forall b r,
  valid_letters a = true -> valid_letters b = true ->
  String.length a = String.length b -> 0 <= r ->
  lex_ltb a b = true -> letters_loop a r < letters_loop b r.
Proof.
  induction a as [|c a IH]; intros [|d b] r Ha Hb Hlen Hr Hlex;
    simpl in *; try done.
  apply andb_prop in Hb as [Hd Hb]. pose proof (letter_digit _ Hd).
  apply andb_prop in Ha as [Hc Ha]. pose proof (letter_digit _ Hc).
  apply orb_prop in Hlex as [Hlt | [Heq Hlex]%andb_prop].
  - apply letters_loop_lt; [done|done|lia|lia].
  - apply Z.eqb_eq in Heq. rewrite Heq. apply IH; [done|done|lia|lia|done].
Qed.

Lemma column_letter_to_index_increasing a b :
  valid_letters a = true -> valid_letters b = true ->
  column_ltb a b = true -> column_letter_to_index a < column_letter_to_index b.
Proof.
  intros Ha Hb Hlt. unfold column_letter_to_index.
  rewrite !upper_valid by done.
  apply orb_prop in Hlt as [Hlen | [Hlen Hlex]%andb_prop].
  - apply Nat.ltb_lt in Hlen. destruct b as [|d b]; simpl in *; [lia|].
    apply andb_prop in Hb as [Hd Hb]. pose proof (letter_digit _ Hd).
    assert (letters_loop a 0 < letters_loop b (0 * 26 + (ord d - ord "A" + 1))); [|lia].
    apply letters_loop_lt; [done|done|lia|lia].
  - apply Nat.eqb_eq in Hlen.
    assert (letters_loop a 0 < letters_loop b 0); [|lia].
    by apply letters_loop_lex.
Qed.

(** C3. For column names [L1], [L2] of capital letters: converting [L1] to
    its zero-based index and back gives [L1] again, and if [L1] comes before
    [L2] in the order of spreadsheet columns (A, ..., Z, AA, ...) then the
    index of [L1] is smaller than the index of [L2]. *)
Theorem column_letters_round_trip_increasing (L1 L2 : string) :
  valid_letters L1 = true -> valid_letters L2 = true ->
  column_index_to_letter (column_letter_to_index L1) = L1
  /\ (column_ltb L1 L2 = true ->
      column_letter_to_index L1 < column_letter_to_index L2).
Proof.
  intros H1 H2. split; [by apply round_trip|].
  by apply column_letter_to_index_increasing.
Qed.

Lemma column_letters_witness :
  column_index_to_letter (column_letter_to_index "Z") = "Z"
  /\ (column_ltb "Z" "AA" = true ->
      column_letter_to_index "Z" < column_letter_to_index "AA").
Proof.
  apply (column_letters_round_trip_increasing "Z" "AA"); reflexivity.
Defined.

(** ** The parser *)


(** *** Splitting and counting *)

Lemma split_length sep s : length (split sep s) = S (count sep s).
Proof.
  induction s as [|c s IH]; simpl; [done|].
  destruct (Ascii.eqb c sep); simpl; [by rewrite IH|].
  destruct (split sep s); simpl in *; lia.
Qed.

Lemma contains_count sep s : contains sep s = negb (count sep s =? 0)%nat.
Proof.
  induction s as [|c s IH]; simpl; [done|].
  destruct (Ascii.eqb c sep); simpl; done.
Qed.

Lemma split_no_sep sep s : contains sep s = false -> split sep s = [s].
Proof.
  induction s as [|c s IH]; simpl; [done|].
  destruct (Ascii.eqb c sep); simpl; [done|].
  intros H. by rewrite IH.
Qed.

Lemma split_app sep s e :
  contains sep s = false ->
  split sep (s +:+ String sep e) = s :: split sep e.
Proof.
  induction s as [|c s IH]; intros H.
  - change ("" +:+ String sep e) with (String sep e). simpl.
    by rewrite Ascii.eqb_refl.
  - rewrite append_cons. simpl in *.
    destruct (Ascii.eqb c sep); simpl in *; [done|].
    by rewrite IH.
Qed.

Lemma contains_app sep s t :
  contains sep (s +:+ t) = contains sep s || contains sep t.
Proof.
  induction s as [|c s IH]; [done|].
  rewrite append_cons. simpl. rewrite IH. by rewrite orb_assoc.
Qed.

Lemma count_of_chars_app sep l1 l2 :
  count sep (of_chars (l1 ++ l2)) = (count sep (of_chars l1) + count sep (of_chars l2))%nat.
Proof. induction l1 as [|c l1 IH]; simpl; [done|]. rewrite IH. lia. Qed.

Lemma of_chars_chars s : of_chars (chars s) = s.
Proof. induction s; simpl; congruence. Qed.

Lemma chars_of_chars l : chars (of_chars l) = l.
Proof. induction l; simpl; congruence. Qed.

Lemma count_reverse sep s : count sep (reverse s) = count sep s.
Proof.
  unfold reverse. induction s as [|c s IH]; simpl; [done|].
  rewrite count_of_chars_app, IH. simpl. lia.
Qed.

Lemma count_lstrip sep s : is_space sep = false -> count sep (lstrip s) = count sep s.
Proof.
  intros Hsep. induction s as [|c s IH]; simpl; [done|].
  destruct (is_space c) eqn:Hc; simpl; [|done].
  rewrite IH. destruct (Ascii.eqb c sep) eqn:E; [|done].
  apply Ascii.eqb_eq in E. congruence.
Qed.

Lemma count_strip sep s : is_space sep = false -> count sep (strip s) = count sep s.
Proof.
  intros Hsep. unfold strip, rstrip.
  by rewrite count_reverse, count_lstrip, count_reverse, count_lstrip.
Qed.

(** *** One part *)

Lemma add_part_outcome part columns :
  match add_part part columns with
  | Ok _ => (count ":" part <= 1)%nat
  | Raise e => e = ValueError /\ (2 <= count ":" part)%nat
  end.
Proof.
  unfold add_part. rewrite contains_count.
  pose proof (split_length ":" part) as Hlen.
  destruct (count ":" part) as [|[|n]] eqn:Hc; simpl.
  - lia.
  - destruct (split ":" part) as [|a [|b [|c l]]]; simpl in *; try lia.
  - destruct (split ":" part) as [|a [|b [|c l]]]; simpl in *; try lia.
    all: split; [done|lia].
Qed.

Lemma for_each_add_part_outcome parts : forall columns,
  match for_each add_part parts columns with
  | Ok _ => Forall (fun part => (count ":" part <= 1)%nat) parts
  | Raise e => e = ValueError /\ Exists (fun part => (2 <= count ":" part)%nat) parts
  end.
Proof.
  induction parts as [|part parts IH]; intros columns; simpl; [constructor|].
  pose proof (add_part_outcome part columns) as Hp.
  destruct (add_part part columns) as [columns'|e]; simpl.
  - specialize (IH columns').
    destruct (for_each add_part parts columns'); [by constructor|].
    destruct IH as [-> IH]. split; [done|by apply Exists_cons_tl].
  - destruct Hp as [-> Hp]. split; [done|by apply Exists_cons_hd].
Qed.

Lemma colon_not_space : is_space ":" = false.
Proof. reflexivity. Qed.

(** C1, amended. The parser has no error of its own. On a string it fails
    only with [ValueError], and exactly when one of the comma-separated parts
    holds two or more colons; the empty string gives "no restriction"; every
    other string, whatever its characters, gives a list of indices. *)
Theorem parse_column_range_outcome (spec : string) :
  match parse_column_range (Some spec) with
  | Raise e =>
      e = ValueError
      /\ Exists (fun part => (2 <= count ":" part)%nat) (split "," spec)
  | Ok None => spec = ""
  | Ok (Some l) =>
      spec <> ""
      /\ Forall (fun part => (count ":" part <= 1)%nat) (split "," spec)
  end.
Proof.
  destruct spec as [|c spec]; [done|].
  unfold parse_column_range.
  set (s := String c spec).
  pose proof (for_each_add_part_outcome (map strip (split "," s)) ∅) as H.
  destruct (for_each add_part (map strip (split "," s)) ∅) as [columns|e]; simpl.
  - split; [done|].
    rewrite Forall_map in H. eapply Forall_impl; [|exact H].
    intros part. simpl. by rewrite count_strip.
  - destruct H as [-> H]. split; [done|].
    rewrite Exists_exists in *. destruct H as (p & Hin & Hp).
    apply in_map_iff in Hin as (part & <- & Hin).
    exists part. split; [done|]. by rewrite count_strip in Hp.
Qed.

(** C1 as stated fails: a digit and an empty range end are accepted and
    give a list of indices. *)
Lemma parse_accepts_malformed :
  parse_column_range (Some "1") = Ok (Some [-16])
  /\ parse_column_range (Some "A:") = Ok (Some [])
  /\ parse_column_range (Some ":") = Ok (Some [-1])
  /\ parse_column_range (Some "A,") = Ok (Some [-1; 0]).
Proof. vm_compute. done. Qed.

(** *** Reversed ranges *)

Lemma range_empty a b : b <= a -> range a b = [].
Proof. intros H. unfold range, seqZ. replace (Z.to_nat (b - a)) with 0%nat by lia. done. Qed.

(** C7. A range part whose start converts to a larger index than its end
    leaves the set of columns as it was and raises nothing; ["C:A"] parses to
    the empty list. *)
Theorem reversed_range_adds_nothing (start_col end_col : string) (columns : gset Z) :
  contains ":" start_col = false -> contains ":" end_col = false ->
  column_letter_to_index (strip end_col) < column_letter_to_index (strip start_col) ->
  add_part (start_col +:+ ":" +:+ end_col) columns = Ok columns
  /\ parse_column_range (Some "C:A") = Ok (Some []).
Proof.
  intros Hs He Hlt. split; [|by vm_compute].
  unfold add_part.
  rewrite contains_app. simpl. rewrite orb_true_r.
  change (":" +:+ end_col) with (String ":" end_col).
  rewrite split_app by done. rewrite split_no_sep by done.
  rewrite range_empty by lia. done.
Qed.

(** *** The result is sorted and without duplicates *)

Lemma StronglySorted_le_lt (l : list Z) :
  StronglySorted Z.le l -> NoDup l -> StronglySorted Z.lt l.
Proof.
  induction 1 as [|x l Hs IH Hx]; intros Hnd; [constructor|].
  inversion Hnd as [|? ? Hx' Hnd']; subst. constructor; [by apply IH|].
  rewrite Forall_forall in *. intros y Hy.
  specialize (Hx y Hy). assert (x <> y); [|lia].
  intros ->. apply Hx'. first [done | by apply list_elem_of_In].
Qed.

Lemma sorted_strict (columns : gset Z) : StronglySorted Z.lt (sorted columns).
Proof.
  unfold sorted. apply StronglySorted_le_lt.
  - apply StronglySorted_merge_sort; apply _.
  - rewrite merge_sort_Permutation. apply NoDup_elements.
Qed.

Lemma foldl_add_indices (l : list Z) (columns : gset Z) x :
  x ∈ foldl (fun cols idx => {[idx]} ∪ cols) columns l <-> x ∈ l \/ x ∈ columns.
Proof.
  revert columns. induction l as [|a l IH]; intros columns; simpl.
  - rewrite elem_of_nil. tauto.
  - rewrite IH, elem_of_cons, elem_of_union, elem_of_singleton. tauto.
Qed.

Lemma add_part_elements part columns columns' x :
  add_part part columns = Ok columns' ->
  x ∈ columns' <-> x ∈ part_indices part \/ x ∈ columns.
Proof.
  unfold add_part, part_indices. destruct (contains ":" part).
  - destruct (split ":" part) as [|a [|b [|c l]]]; try done.
    intros [= <-]. apply foldl_add_indices.
  - intros [= <-]. rewrite elem_of_union, elem_of_singleton, list_elem_of_singleton. tauto.
Qed.

Lemma for_each_add_part_elements parts : forall columns columns' x,
  for_each add_part parts columns = Ok columns' ->
  x ∈ columns' <-> (exists part, part ∈ parts /\ x ∈ part_indices part) \/ x ∈ columns.
Proof.
  induction parts as [|part parts IH]; intros columns columns' x; simpl.
  - intros [= <-]. split; [by right|]. intros [(p & Hp & _)|H]; [|done].
    by apply elem_of_nil in Hp.
  - destruct (add_part part columns) as [c1|e] eqn:Hadd; [|done]. simpl.
    intros Hrest. rewrite (IH _ _ _ Hrest), (add_part_elements _ _ _ _ Hadd).
    split.
    + intros [(p & Hp & Hx)|[Hx|Hx]].
      * left. exists p. split; [by right|done].
      * left. exists part. split; [by left|done].
      * by right.
    + intros [(p & Hp & Hx)|Hx]; [|right; by right].
      apply elem_of_cons in Hp as [->|Hp]; [right; by left|].
      left. by exists p.
Qed.

Lemma elem_of_sorted (columns : gset Z) x : x ∈ sorted columns <-> x ∈ columns.
Proof. unfold sorted. by rewrite merge_sort_Permutation, elem_of_elements. Qed.

Lemma parse_column_range_elements spec l x :
  parse_column_range (Some spec) = Ok (Some l) ->
  x ∈ l <-> exists part, part ∈ map strip (split "," spec) /\ x ∈ part_indices part.
Proof.
  destruct spec as [|c spec]; [done|]. unfold parse_column_range.
  destruct (for_each add_part _ ∅) as [columns|e] eqn:Hf; [|done]. simpl.
  intros [= <-]. rewrite elem_of_sorted, (for_each_add_part_elements _ _ _ _ Hf).
  rewrite elem_of_empty. tauto.
Qed.

(** C8. A list the parser returns is strictly ascending, hence without
    duplicates, and holds exactly the indices that the parts of the spec
    stand for; ["A,C:E,G"] gives [[0; 2; 3; 4; 6]]; an absent or empty spec
    gives [None], which differs from the empty list that ["C:A"] gives. *)
Theorem parse_column_range_sorted (column_spec : option string) (l : list Z) :
  parse_column_range column_spec = Ok (Some l) ->
  StronglySorted Z.lt l
  /\ (exists spec,
        column_spec = Some spec
        /\ forall x, x ∈ l <->
                     exists part, part ∈ map strip (split "," spec)
                                  /\ x ∈ part_indices part)
  /\ parse_column_range (Some "A,C:E,G") = Ok (Some [0; 2; 3; 4; 6])
  /\ parse_column_range (Some "B,D:F,H") = Ok (Some [1; 3; 4; 5; 7])
  /\ parse_column_range None = Ok None
  /\ parse_column_range (Some "") = Ok None
  /\ parse_column_range (Some "C:A") = Ok (Some [])
  /\ Ok (@None (list Z)) <> Ok (Some []).
Proof.
  intros H. split; [|split; [|by vm_compute]].
  - destruct column_spec as [[|c spec]|]; simpl in H; try done.
    destruct (for_each add_part _ ∅) as [columns|e]; simpl in H; [|done].
    injection H as <-. apply sorted_strict.
  - destruct column_spec as [spec|]; [|done].
    exists spec. split; [done|]. intros x. by apply parse_column_range_elements.
Qed.

Lemma reversed_range_witness : add_part ("C" +:+ ":" +:+ "A") ∅ = Ok ∅.
Proof.
  destruct (reversed_range_adds_nothing "C" "A" ∅) as [H _];
    [reflexivity|reflexivity|vm_compute; reflexivity|exact H].
Defined.

Lemma parse_column_range_sorted_witness : StronglySorted Z.lt [0; 2; 3; 4; 6].
Proof.
  destruct (parse_column_range_sorted (Some "A,C:E,G") [0; 2; 3; 4; 6]) as [H _];
    [vm_compute; reflexivity|exact H].
Defined.

(** ** Accesses to the used range *)

Lemma getitem_shape sh sh' i j :
  shape sh' = shape sh -> getitem sh' i j = getitem sh i j.
Proof. unfold getitem. by intros ->. Qed.

Lemma denotes_shape P sh sh' pos :
  shape sh' = shape sh -> denotes P sh' pos <-> denotes P sh pos.
Proof.
  intros Hs. unfold denotes. split; intros (i & j & HP & Hg); exists i, j;
    (split; [done|]); [by rewrite <- (getitem_shape _ _ _ _ Hs)|by rewrite (getitem_shape _ _ _ _ Hs)].
Qed.

Lemma denotes_weaken (P Q : Z -> Z -> Prop) sh pos :
  (forall i j, P i j -> Q i j) -> denotes P sh pos -> denotes Q sh pos.
Proof. intros HPQ (i & j & HP & Hg). exists i, j. eauto. Qed.

Lemma event_within_weaken (P Q : Z -> Z -> Prop) sh e :
  (forall i j, P i j -> Q i j) -> event_within P sh e -> event_within Q sh e.
Proof. intros HPQ. destruct e; simpl; [auto|by apply denotes_weaken]. Qed.

Lemma event_within_shape P sh sh' e :
  shape sh' = shape sh -> event_within P sh' e -> event_within P sh e.
Proof. intros Hs. destruct e; simpl; [done|]. by rewrite denotes_shape. Qed.

Lemma frame_refl P sh : frame P sh sh.
Proof. split; try done. exists []. split; [done|constructor]. Qed.

Lemma frame_weaken (P Q : Z -> Z -> Prop) sh sh' :
  (forall i j, P i j -> Q i j) -> frame P sh sh' -> frame Q sh sh'.
Proof.
  intros HPQ [Hn Hs Hr Hp (new & Ht & Hnew) Hc]. split; try done.
  - exists new. split; [done|]. eapply Forall_impl; [|exact Hnew].
    intros e. by apply event_within_weaken.
  - intros pos Hpos. apply Hc. intros Hd. apply Hpos. by eapply denotes_weaken.
Qed.

Lemma frame_trans P sh1 sh2 sh3 :
  frame P sh1 sh2 -> frame P sh2 sh3 -> frame P sh1 sh3.
Proof.
  intros [Hn1 Hs1 Hr1 Hp1 (new1 & Ht1 & Hnew1) Hc1]
         [Hn2 Hs2 Hr2 Hp2 (new2 & Ht2 & Hnew2) Hc2].
  split; try congruence.
  - exists (new2 ++ new1). split.
    + rewrite Ht2, Ht1. by rewrite app_assoc.
    + apply Forall_app. split; [|done].
      eapply Forall_impl; [|exact Hnew2]. intros e. by apply event_within_shape.
  - intros pos Hpos. rewrite Hc2, Hc1; [done|done|].
    by rewrite denotes_shape.
Qed.

Lemma frame_log_index (P : Z -> Z -> Prop) sh i j :
  P i j -> frame P sh (log (Index i j) sh).
Proof.
  intros HP. split; try done. exists [Index i j]. split; [done|].
  constructor; [done|constructor].
Qed.

Lemma frame_write (P : Z -> Z -> Prop) sh sh' pos s :
  denotes P sh pos ->
  set_value pos s (log (Write pos.1 pos.2 s) sh) = Ok sh' ->
  frame P sh sh'.
Proof.
  intros Hd Hset. unfold set_value in Hset. simpl in Hset.
  destruct (protect sh) eqn:Hp; [|done..]. injection Hset as <-.
  split; simpl; try done.
  - exists [Write pos.1 pos.2 s]. split; [done|].
    constructor; [|constructor]. simpl. by destruct pos.
  - intros pos' Hpos'. apply lookup_insert_ne. by intros ->.
Qed.

Lemma frame_log_write (P : Z -> Z -> Prop) sh pos s :
  denotes P sh pos -> frame P sh (log (Write pos.1 pos.2 s) sh).
Proof.
  intros Hd. split; try done. exists [Write pos.1 pos.2 s]. split; [done|].
  constructor; [|constructor]. simpl. by destruct pos.
Qed.

(** A loop whose body stays within [P a] stays within the union. *)
Lemma foldl_frame {A S} (f : S -> A -> S) (proj : S -> Sheet)
    (P : A -> Z -> Z -> Prop) (l : list A) :
  (forall s a, a ∈ l -> frame (P a) (proj s) (proj (f s a))) ->
  forall s, frame (fun i j => exists a, a ∈ l /\ P a i j) (proj s) (proj (foldl f s l)).
Proof.
  induction l as [|a l IH]; intros Hf s; simpl; [apply frame_refl|].
  eapply frame_trans.
  - eapply frame_weaken; [|apply (Hf s a); by left].
    intros i j HP. exists a. split; [by left|done].
  - eapply frame_weaken; [|apply IH].
    + intros i j (b & Hb & HP). exists b. split; [by right|done].
    + intros s' b Hb. apply Hf. by right.
Qed.

(** An event that some iteration of a loop adds is in the final trace. *)
Lemma foldl_trace_covers {A S} (f : S -> A -> S) (proj : S -> Sheet)
    (e : event) (Q : A -> Prop) (l : list A) :
  (forall s a e', e' ∈ trace (proj s) -> e' ∈ trace (proj (f s a))) ->
  (forall s a, Q a -> e ∈ trace (proj (f s a))) ->
  forall s a, a ∈ l -> Q a -> e ∈ trace (proj (foldl f s l)).
Proof.
  intros Hgrow Hmark.
  assert (Hkeep : forall l s, e ∈ trace (proj s) -> e ∈ trace (proj (foldl f s l))).
  { clear l. induction l as [|b l IH]; intros s He; simpl; [done|].
    apply IH, Hgrow, He. }
  induction l as [|b l IH]; intros s a Ha HQ; simpl.
  - by apply elem_of_nil in Ha.
  - apply elem_of_cons in Ha as [->|Ha]; [by apply Hkeep, Hmark|by eapply IH].
Qed.

Lemma frame_trace_grows P sh sh' e :
  frame P sh sh' -> e ∈ trace sh -> e ∈ trace sh'.
Proof.
  intros [_ _ _ _ (new & -> & _) _] He. apply elem_of_app. by right.
Qed.

(** ** The find/replace engine *)

Lemma elem_of_range a b i : i ∈ range a b <-> a <= i < b.
Proof. unfold range. rewrite elem_of_seqZ. lia. Qed.

Section FindReplaceFacts.
Context `{RT : ReTemplate}.
Import FindReplace.

Lemma process_cell_sheet pats i j st :
  sheet (process_cell pats i j st) = log (Index i j) (sheet st)
  \/ exists pos s, getitem (sheet st) i j = Ok pos
       /\ (sheet (process_cell pats i j st)
            = log (Write pos.1 pos.2 s) (log (Index i j) (sheet st))
           \/ set_value pos s (log (Write pos.1 pos.2 s) (log (Index i j) (sheet st)))
              = Ok (sheet (process_cell pats i j st))).
Proof.
  unfold process_cell. set (sh0 := log (Index i j) (sheet st)).
  assert (Hg : getitem sh0 i j = getitem (sheet st) i j) by done.
  rewrite Hg. destruct (getitem (sheet st) i j) as [pos|e]; [|by left].
  destruct (get_value sh0 pos) as [|v|b|r t]; try by left.
  destruct (negb (String.eqb v "") && (0 <? Z.of_nat (String.length (strip v))));
    [|by left].
  destruct (apply_patterns pats v false (chunk_replacements st)) as [[[v' m]|e] counts];
    [|by left].
  destruct m; [|by left].
  right. exists pos, v'. split; [done|].
  destruct (set_value pos v' (log (Write pos.1 pos.2 v') sh0)) as [sh'|e] eqn:Hset;
    [by right|by left].
Qed.

Lemma process_cell_frame pats i j st :
  frame (fun i' j' => i' = i /\ j' = j) (sheet st) (sheet (process_cell pats i j st)).
Proof.
  destruct (process_cell_sheet pats i j st) as [->|(pos & s & Hg & [->| Hset])].
  - by apply frame_log_index.
  - eapply frame_trans; [by apply frame_log_index|].
    apply frame_log_write. by exists i, j.
  - eapply frame_trans; [by apply (frame_log_index _ _ i j)|].
    eapply frame_write; [|exact Hset]. by exists i, j.
Qed.

Lemma process_cell_writes pats i j st :
  (writes (sheet (process_cell pats i j st)) <= writes (sheet st) + 1)%nat.
Proof.
  unfold writes.
  destruct (process_cell_sheet pats i j st) as [->|(pos & s & Hg & [->| Hset])];
    simpl; try lia.
  unfold set_value in Hset. simpl in Hset.
  destruct (protect (sheet st)); [|done..]. injection Hset as <-. simpl. lia.
Qed.

Lemma process_cell_marks pats i j st :
  Index i j ∈ trace (sheet (process_cell pats i j st)).
Proof.
  destruct (process_cell_sheet pats i j st) as [->|(pos & s & Hg & [->| Hset])];
    simpl; [by left|right; by left|].
  unfold set_value in Hset. simpl in Hset.
  destruct (protect (sheet st)); [|done..]. injection Hset as <-. simpl.
  right; by left.
Qed.

Lemma row_loop_frame pats columns row_idx st :
  frame (fun i j => i = row_idx /\ j ∈ columns) (sheet st)
        (sheet (foldl (fun st col_idx => process_cell pats row_idx col_idx st) st columns)).
Proof.
  eapply frame_weaken;
    [|apply (foldl_frame (fun st col_idx => process_cell pats row_idx col_idx st) sheet
                         (fun col_idx i j => i = row_idx /\ j = col_idx))].
  - intros i j (a & Ha & -> & ->). done.
  - intros s a _. apply process_cell_frame.
Qed.

Lemma process_chunk_frame sh start_row end_row cols pats target :
  frame (in_chunk start_row end_row (columns_to_check cols target)) sh
        (process_chunk sh start_row end_row cols pats target).2.
Proof.
  unfold process_chunk. simpl.
  set (init := {| sheet := sh |}).
  change sh with (sheet init) at 1.
  eapply frame_weaken;
    [|apply (foldl_frame _ sheet
               (fun row_idx i j => i = row_idx /\ j ∈ columns_to_check cols target))].
  - intros i j (a & Ha%elem_of_range & -> & Hj). done.
  - intros s a _. apply row_loop_frame.
Qed.

Lemma process_chunk_covers sh start_row end_row cols pats target i j :
  start_row <= i < end_row -> j ∈ columns_to_check cols target ->
  Index i j ∈ trace (process_chunk sh start_row end_row cols pats target).2.
Proof.
  intros Hi Hj. unfold process_chunk. simpl.
  apply (foldl_trace_covers _ sheet (Index i j) (fun a => a = i)) with (a := i);
    [| |by apply elem_of_range|done].
  - intros s a e He. eapply frame_trace_grows; [apply row_loop_frame|done].
  - intros s a ->.
    apply (foldl_trace_covers (fun st col_idx => process_cell pats i col_idx st) sheet
                              (Index i j) (fun b => b = j)) with (a := j);
      [| |done|done].
    + intros s' b e He. eapply frame_trace_grows; [apply process_cell_frame|done].
    + intros s' b ->. apply process_cell_marks.
Qed.

Lemma set_row_height_frame P r h sh sh' :
  set_row_height r h sh = Ok sh' -> frame P sh sh'.
Proof.
  unfold set_row_height. destruct (protect sh) eqn:Hp; [|done..].
  intros [= <-]. split; simpl; try done. exists []. split; [done|constructor].
Qed.

Lemma touch_rows_frame P rows sh : frame P sh (FindReplace.touch_rows rows sh).
Proof.
  unfold FindReplace.touch_rows. generalize (sorted rows). intros l. revert sh.
  induction l as [|r l IH]; intros sh; simpl; [apply frame_refl|].
  eapply frame_trans; [|apply IH].
  destruct (set_row_height r 16 sh) as [sh'|e] eqn:Hset;
    [by eapply set_row_height_frame|apply frame_refl].
Qed.

Lemma chunk_size_for_pos rows : 0 < chunk_size_for rows.
Proof. unfold chunk_size_for. repeat case_match; lia. Qed.

Lemma elem_of_range_step rows step start :
  0 < step ->
  start ∈ range_step 0 rows step <->
  exists k, start = k * step /\ 0 <= k /\ k * step < rows.
Proof.
  intros Hstep. unfold range_step. rewrite list_elem_of_fmap. split.
  - intros (k & -> & Hk%elem_of_seqZ). exists k. split; [lia|]. split; [lia|].
    assert (k + 1 <= (rows - 0 + step - 1) / step) as Hk' by lia.
    assert ((k + 1) * step <= rows - 0 + step - 1); [|lia].
    etrans; [apply Z.mul_le_mono_nonneg_r; [lia|exact Hk']|].
    rewrite Z.mul_comm. apply Z.mul_div_le. lia.
  - intros (k & -> & Hk0 & Hk). exists k. split; [lia|]. apply elem_of_seqZ.
    split; [lia|].
    assert (k + 1 <= (rows - 0 + step - 1) / step); [|lia].
    apply Z.div_le_lower_bound; lia.
Qed.

Lemma used_range_chunk_step rows cols cs pats target st start :
  used_range (chunk_step rows cols cs pats target st start)
  = (process_chunk (used_range st) start (Z.min (start + cs) rows) cols pats target).2.
Proof.
  unfold chunk_step.
  destruct (process_chunk _ _ _ _ _ _) as [[cr ar] ur]. simpl.
  by destruct (nonempty_dict cr).
Qed.

Lemma process_sheet_in_chunks_frame sh pairs rows cols target :
  frame (fun i j => 0 <= i < rows /\ j ∈ columns_to_check cols target) sh
        (process_sheet_in_chunks sh pairs rows cols target).2.
Proof.
  unfold process_sheet_in_chunks. simpl.
  set (pats := map _ pairs). set (init := {| used_range := sh |}).
  set (st := foldl _ init _).
  assert (Hst : frame (fun i j => 0 <= i < rows /\ j ∈ columns_to_check cols target)
                      sh (used_range st)).
  { change sh with (used_range init). subst st.
    eapply frame_weaken;
      [|apply (foldl_frame _ used_range
                 (fun start =>
                    in_chunk start (Z.min (start + chunk_size_for rows) rows)
                             (columns_to_check cols target)))].
    - intros i j (start & Hstart & [Hi Hj]).
      apply elem_of_range_step in Hstart as (k & -> & Hk & Hlt);
        [|apply chunk_size_for_pos].
      pose proof (chunk_size_for_pos rows). split; [nia|done].
    - intros s a _. rewrite used_range_chunk_step. apply process_chunk_frame. }
  destruct (0 <? chunks_with_changes st); [|done].
  eapply frame_trans; [exact Hst|apply touch_rows_frame].
Qed.

Lemma touch_rows_trace rows sh : trace (FindReplace.touch_rows rows sh) = trace sh.
Proof.
  destruct (touch_rows_frame (fun _ _ => False) rows sh) as [_ _ _ _ (new & -> & Hnew) _].
  destruct new as [|e new]; [done|]. inversion Hnew as [|? ? He _]; subst.
  destruct e; simpl in He; [done|]. by destruct He as (? & ? & [] & _).
Qed.

Lemma process_sheet_in_chunks_covers sh pairs rows cols target i j :
  0 <= i < rows -> j ∈ columns_to_check cols target ->
  Index i j ∈ trace (process_sheet_in_chunks sh pairs rows cols target).2.
Proof.
  intros Hi Hj. unfold process_sheet_in_chunks. simpl.
  set (pats := map _ pairs). set (init := {| used_range := sh |}).
  set (st := foldl _ init _).
  assert (Hst : Index i j ∈ trace (used_range st)).
  { pose proof (chunk_size_for_pos rows) as Hcs.
    set (cs := chunk_size_for rows) in *.
    assert (Hin : i / cs * cs ∈ range_step 0 rows cs).
    { apply elem_of_range_step; [done|]. exists (i / cs).
      pose proof (Z.mul_div_le i cs Hcs).
      assert (0 <= i / cs) by (apply Z.div_pos; lia). split; [done|]. lia. }
    subst st.
    apply (foldl_trace_covers _ used_range (Index i j) (fun a => a = i / cs * cs))
      with (a := i / cs * cs); [| |done|done].
    - intros s a e He. rewrite used_range_chunk_step.
      eapply frame_trace_grows; [apply process_chunk_frame|done].
    - intros s a ->. rewrite used_range_chunk_step.
      apply process_chunk_covers; [|done].
      pose proof (Z.mul_div_le i cs Hcs).
      pose proof (Z.mod_pos_bound i cs Hcs).
      pose proof (Z.div_mod i cs ltac:(lia)). lia. }
  destruct (0 <? chunks_with_changes st); [|done].
  by rewrite touch_rows_trace.
Qed.

End FindReplaceFacts.

(** *** The pairs of one cell *)

Section ChainFacts.
Context `{RT : ReTemplate}.
Import FindReplace.

(** The literal matches at the start of [s] exactly when [s] starts with a
    text that equals the literal up to letter case. *)
Lemma match_here_spec lit : forall s m,
  match_here lit s = Some m <->
  exists rest, s = m +:+ rest /\ lower m = lower lit.
Proof.
  induction lit as [|a lit IH]; intros s m; simpl.
  - split.
    + intros [= <-]. by exists s.
    + intros (rest & -> & Hm). destruct m; [done|discriminate].
  - destruct s as [|c s].
    + split; [done|]. intros (rest & Hs & Hm).
      destruct m; [discriminate|discriminate].
    + destruct (Ascii.eqb (lower_char a) (lower_char c)) eqn:E.
      * apply Ascii.eqb_eq in E. split.
        -- destruct (match_here lit s) as [m'|] eqn:Hm'; [|done].
           intros [= <-]. apply IH in Hm' as (rest & -> & Hl).
           exists rest. split; [done|]. unfold lower in *. simpl. congruence.
        -- intros (rest & Hs & Hm). destruct m as [|c' m]; [discriminate|].
           rewrite append_cons in Hs. injection Hs as <- ->.
           unfold lower in Hm. simpl in Hm. injection Hm as _ Hm.
           assert (match_here lit (m +:+ rest) = Some m) as ->; [|done].
           apply IH. by exists rest.
      * apply Ascii.eqb_neq in E. split; [done|].
        intros (rest & Hs & Hm). destruct m as [|c' m]; [discriminate|].
        rewrite append_cons in Hs. injection Hs as <- ->.
        unfold lower in Hm. simpl in Hm. injection Hm as Hc _. congruence.
Qed.

Lemma scan_nonneg lit repl s : forall skip, 0 <= (scan lit repl skip s).2.
Proof.
  induction s as [|c s IH]; intros [|k]; simpl; try done.
  - destruct (match_here lit ""); simpl; lia.
  - destruct (match_here lit (String c s)).
    + destruct lit.
      * specialize (IH 0%nat). destruct (scan "" repl 0 s). simpl in *. lia.
      * specialize (IH (String.length lit)). destruct (scan _ repl _ s). simpl in *. lia.
    + specialize (IH 0%nat). destruct (scan lit repl 0 s). simpl in *. lia.
Qed.

Lemma scan_zero lit repl s :
  (scan lit repl 0 s).2 = 0 -> (scan lit repl 0 s).1 = s.
Proof.
  induction s as [|c s IH]; simpl.
  - destruct (match_here lit ""); simpl; [intros; lia|done].
  - destruct (match_here lit (String c s)).
    + destruct lit.
      * pose proof (scan_nonneg "" repl s 0).
        destruct (scan "" repl 0 s). simpl in *. intros; lia.
      * pose proof (scan_nonneg (String a lit) repl s (String.length lit)).
        destruct (scan (String a lit) repl (String.length lit) s). simpl in *.
        intros; lia.
    + destruct (scan lit repl 0 s) as [out n]. simpl in *.
      intros Hn. by rewrite IH.
Qed.

Lemma lookup_incr f n (d : gmap string Z) k :
  default 0 (incr f n d !! k)
  = default 0 (d !! k) + (if decide (f = k) then n else 0).
Proof.
  unfold incr. destruct (decide (f = k)) as [->|Hne].
  - by rewrite lookup_insert_eq.
  - rewrite lookup_insert_ne by done. lia.
Qed.

Lemma ord_lower_char a :
  ord (lower_char a)
  = if (65 <=? ord a) && (ord a <=? 90) then ord a + 32 else ord a.
Proof.
  unfold lower_char. pose proof (ord_range a).
  destruct ((65 <=? ord a) && (ord a <=? 90)) eqn:E; [|done].
  apply ord_chr. lia.
Qed.

Lemma ord_inj a c : ord a = ord c -> a = c.
Proof. intros H. by rewrite <- (chr_ord a), <- (chr_ord c), H. Qed.

Lemma same_letter_spec a c :
  same_letter a c = true <-> lower_char a = lower_char c.
Proof.
  assert (lower_char a = lower_char c <-> ord (lower_char a) = ord (lower_char c)) as ->.
  { split; [by intros ->|apply ord_inj]. }
  rewrite !ord_lower_char. unfold same_letter.
  pose proof (ord_range a). pose proof (ord_range c).
  set (x := ord a) in *. set (y := ord c) in *.
  destruct (65 <=? x) eqn:E1, (x <=? 90) eqn:E2, (65 <=? y) eqn:E3, (y <=? 90) eqn:E4;
    simpl; rewrite ?orb_false_r;
    rewrite ?orb_true_iff, ?Z.eqb_eq; lia.
Qed.

Lemma same_text_spec a : forall b,
  same_text a b = true <-> lower a = lower b.
Proof.
  unfold lower. induction a as [|x a IH]; intros [|y b]; simpl; try done.
  rewrite andb_true_iff, same_letter_spec, IH. split.
  - by intros [-> ->].
  - intros [= H1 H2]. done.
Qed.

Lemma same_text_length a : forall b,
  same_text a b = true -> String.length a = String.length b.
Proof.
  induction a as [|x a IH]; intros [|y b]; simpl; try done.
  intros [_ H]%andb_prop. f_equal. by apply IH.
Qed.

(** The literal matches at the start of [s] exactly when [s] starts with a
    text equal to the literal up to letter case. *)
Lemma match_here_same_text lit s m :
  match_here lit s = Some m <->
  exists rest, s = m +:+ rest /\ same_text m lit = true.
Proof.
  rewrite match_here_spec. by setoid_rewrite same_text_spec.
Qed.

Lemma length_append (a b : string) :
  String.length (a +:+ b) = (String.length a + String.length b)%nat.
Proof.
  induction a as [|c a IH]; [done|]. rewrite append_cons. simpl. by rewrite IH.
Qed.

Lemma scan_skip lit repl m : forall rest,
  scan lit repl (String.length m) (m +:+ rest) = scan lit repl 0 rest.
Proof.
  induction m as [|c m IH]; intros rest; [done|].
  rewrite append_cons. simpl. apply IH.
Qed.

Lemma scan_replaced lit repl (n : nat) : forall s,
  lit <> "" -> (String.length s <= n)%nat ->
  replaced lit repl s (scan lit repl 0 s).1 (scan lit repl 0 s).2.
Proof.
  induction n as [|n IH]; intros s Hlit Hlen.
  - destruct s; [|simpl in Hlen; lia]. destruct lit; [done|]. simpl. constructor.
  - destruct s as [|c s].
    { destruct lit; [done|]. simpl. constructor. }
    destruct lit as [|a lit]; [done|].
    cbn [scan].
    destruct (match_here (String a lit) (String c s)) as [m|] eqn:Hm.
    + pose proof Hm as Hm'.
      apply match_here_same_text in Hm' as (rest & Hs & Hsame).
      destruct m as [|c' m]; [done|].
      rewrite append_cons in Hs. injection Hs as <- ->.
      pose proof (same_text_length _ _ Hsame) as Hl. simpl in Hl.
      injection Hl as Hl. rewrite <- Hl, scan_skip.
      assert (Hrest : (String.length rest <= n)%nat).
      { simpl in Hlen. rewrite length_append in Hlen. lia. }
      specialize (IH rest Hlit Hrest).
      destruct (scan (String a lit) repl 0 rest) as [out k]. simpl in IH |- *.
      rewrite <- append_cons. by constructor.
    + assert (Hs : (String.length s <= n)%nat) by (simpl in Hlen; lia).
      specialize (IH s Hlit Hs).
      destruct (scan (String a lit) repl 0 s) as [out k]. simpl in IH |- *.
      constructor; [|done].
      intros m rest Heq. destruct (same_text m (String a lit)) eqn:E; [|done].
      assert (match_here (String a lit) (String c s) = Some m); [|congruence].
      apply match_here_same_text. by exists rest.
Qed.

Lemma subst_one_replaced find_text lit replace_text repl s :
  lit <> "" ->
  compile_template replace_text = Some repl ->
  replaced lit repl s
           (subst_one (find_text, LiteralIgnoreCase lit, replace_text) s).1
           (subst_one (find_text, LiteralIgnoreCase lit, replace_text) s).2.
Proof.
  intros Hlit Hc. unfold subst_one, subn. simpl. rewrite Hc.
  by apply (scan_replaced lit repl (String.length s)).
Qed.

Lemma accepted_all pats : all_accepted pats = true -> accepted pats = pats.
Proof.
  induction pats as [|p pats IH]; [done|]. simpl.
  destruct (compile_template p.2); [|done]. intros H. by rewrite IH.
Qed.

Lemma apply_patterns_any pats : forall v m d,
  exists r d',
    apply_patterns pats v m d = (r, d')
    /\ (forall k, default 0 (d' !! k)
                  = default 0 (d !! k)
                    + count_for k (accepted pats) (pair_counts (accepted pats) v))
    /\ (if all_accepted pats
        then r = Ok (chain pats v, m || some_match (pair_counts pats v))
        else exists e, r = Raise e).
Proof.
  induction pats as [|[[find_text re] repl] pats IH]; intros v m d.
  - exists (Ok (v, m)), d. simpl. rewrite orb_false_r. split; [done|].
    split; [intros; lia|done].
  - cbn [apply_patterns accepted all_accepted forallb pair_counts snd fst].
    unfold subn. cbn [snd fst].
    destruct (compile_template repl) as [f|] eqn:Hf.
    2: { exists (Raise ReError), d. split; [done|]. split; [|by exists ReError].
         intros k. change (count_for k [] (pair_counts [] v)) with 0. lia. }
    destruct re as [lit].
    assert (Hone : subst_one (find_text, LiteralIgnoreCase lit, repl) v
                   = scan lit f 0 v).
    { unfold subst_one, subn. simpl. by rewrite Hf. }
    rewrite Hone.
    pose proof (scan_nonneg lit f v 0) as Hn.
    pose proof (scan_zero lit f v) as Hz.
    destruct (scan lit f 0 v) as [new_value num_subs]. simpl in *.
    destruct (0 <? num_subs) eqn:Hpos.
    + destruct (IH new_value true (incr find_text num_subs d))
        as (r & d' & -> & Hd' & Hr).
      exists r, d'. split; [done|]. split.
      * intros k. rewrite Hd', lookup_incr. cbn [count_for]. rewrite Hone.
        cbn [fst snd]. destruct (decide (find_text = k)); lia.
      * fold (all_accepted pats). cbn [andb chain pair_counts].
        destruct (all_accepted pats); [|done]. rewrite Hr, Hone.
        cbn [fst snd some_match existsb]. by destruct m.
    + assert (num_subs = 0) as -> by lia. rewrite Hz in * by done.
      destruct (IH v m d) as (r & d' & -> & Hd' & Hr).
      exists r, d'. split; [done|]. split.
      * intros k. rewrite Hd'. cbn [count_for]. rewrite Hone.
        cbn [fst snd]. destruct (decide (find_text = k)); lia.
      * fold (all_accepted pats). cbn [andb chain pair_counts].
        destruct (all_accepted pats); [|done]. rewrite Hr, Hone.
        cbn [fst snd some_match existsb]. done.
Qed.

Lemma process_cell_any pats i j st pos v :
  getitem (sheet st) i j = Ok pos ->
  cells (sheet st) !! pos = Some (VStr v) ->
  strip v <> "" ->
  let st' := process_cell pats i j st in
  let applied := accepted pats in
  let ns := pair_counts applied v in
  let written := all_accepted pats && some_match ns in
  (forall k, default 0 (chunk_replacements st' !! k)
             = default 0 (chunk_replacements st !! k) + count_for k applied ns)
  /\ writes (sheet st') = (writes (sheet st) + (if written then 1 else 0))%nat
  /\ cells (sheet st')
     = (if written && writable (sheet st)
        then <[pos := VStr (chain pats v)]> (cells (sheet st))
        else cells (sheet st)).
Proof.
  intros Hg Hc Hv. cbv zeta. unfold process_cell.
  set (sh0 := log (Index i j) (sheet st)).
  assert (Hg0 : getitem sh0 i j = Ok pos) by done. rewrite Hg0.
  unfold get_value. simpl. rewrite Hc. simpl.
  assert (v <> "") as Hne by (intros ->; by apply Hv).
  assert (String.eqb v "" = false) as -> by by apply String.eqb_neq.
  assert ((0 <? Z.of_nat (String.length (strip v))) = true) as ->.
  { apply Z.ltb_lt. destruct (strip v); [done|]. simpl String.length. lia. }
  simpl.
  destruct (apply_patterns_any pats v false (chunk_replacements st))
    as (r & d' & -> & Hd' & Hr).
  destruct (all_accepted pats) eqn:Hall.
  - rewrite Hr, (accepted_all pats Hall). simpl.
    rewrite (accepted_all pats Hall) in Hd'.
    destruct (some_match (pair_counts pats v)); simpl.
    + unfold set_value, writable. simpl. unfold writes.
      destruct (protect (sheet st)); simpl; (split; [done|split; [lia|done]]).
    + unfold writes. simpl. split; [done|]. split; [lia|done].
  - destruct Hr as [e ->]. simpl. unfold writes. simpl.
    split; [done|]. split; [lia|done].
Qed.

Lemma chain_examples :
  chain a_b_c "A" = "C" /\ pair_counts a_b_c "A" = [1; 1]
  /\ chain a_b_c "xay" = "xCy" /\ pair_counts a_b_c "xay" = [1; 1]
  /\ chain foo_bar "Foo and foo" = "bar and bar"
  /\ pair_counts foo_bar "Foo and foo" = [2].
Proof.
  unfold a_b_c, foo_bar. simpl. unfold subst_one, subn. simpl.
  rewrite !compile_template_plain by reflexivity. simpl. done.
Qed.

End ChainFacts.

(** *** Totals *)

Section Counts.
Import FindReplace.

Lemma sum_values_empty : sum_values ∅ = 0.
Proof. unfold sum_values. by rewrite map_fold_empty. Qed.

Lemma sum_values_insert_fresh (d : gmap string Z) k v :
  d !! k = None -> sum_values (<[k := v]> d) = v + sum_values d.
Proof.
  intros Hk. unfold sum_values.
  rewrite map_fold_insert_L; [done| |done]. intros. lia.
Qed.

Lemma sum_values_insert (d : gmap string Z) k v :
  sum_values (<[k := v]> d) = sum_values d - default 0 (d !! k) + v.
Proof.
  destruct (d !! k) as [old|] eqn:Hk; simpl.
  - rewrite <- (insert_delete_eq d k v).
    rewrite <- (insert_delete_id d k old) at 2 by done.
    rewrite !sum_values_insert_fresh by apply lookup_delete_eq. lia.
  - rewrite sum_values_insert_fresh by done. lia.
Qed.

Lemma sum_values_incr k n (d : gmap string Z) :
  sum_values (incr k n d) = sum_values d + n.
Proof. unfold incr. rewrite sum_values_insert. lia. Qed.

Lemma sum_values_add_counts (d1 d2 : gmap string Z) :
  sum_values (add_counts d1 d2) = sum_values d1 + sum_values d2.
Proof.
  unfold add_counts.
  apply (map_fold_weak_ind
           (fun r m => sum_values r = sum_values d1 + sum_values m)).
  - rewrite sum_values_empty. lia.
  - intros k v m r Hk IH. rewrite sum_values_incr, IH.
    rewrite sum_values_insert_fresh by done. lia.
Qed.

Lemma initial_details_zero {B} (pairs : list (string * B)) (d : gmap string Z) :
  map_Forall (fun _ v => v = 0) d ->
  map_Forall (fun _ v => v = 0)
             (foldl (fun d '(find_text, _) => <[find_text := 0]> d) d pairs).
Proof.
  revert d. induction pairs as [|[k b] l IH]; intros d Hd; simpl; [done|].
  apply IH. by apply map_Forall_insert_2.
Qed.

Lemma sum_values_all_zero (d : gmap string Z) :
  map_Forall (fun _ v => v = 0) d -> sum_values d = 0.
Proof.
  induction d as [|k v d Hk IH] using map_ind; intros Hd.
  - apply sum_values_empty.
  - rewrite sum_values_insert_fresh by done.
    apply map_Forall_insert in Hd as [-> Hd]; [|done]. rewrite IH by done. lia.
Qed.

Section Totals.
Context `{RT : ReTemplate}.

Lemma chunk_step_total rows cols cs pats target st start :
  total_replacements st = sum_values (replacement_details st) ->
  total_replacements (chunk_step rows cols cs pats target st start)
  = sum_values (replacement_details (chunk_step rows cols cs pats target st start)).
Proof.
  intros Hst. unfold chunk_step.
  destruct (process_chunk _ _ _ _ _ _) as [[cr ar] ur].
  destruct (nonempty_dict cr); simpl; [|done].
  rewrite sum_values_add_counts. lia.
Qed.

Lemma process_sheet_in_chunks_total sh pairs rows cols target :
  (process_sheet_in_chunks sh pairs rows cols target).1.1
  = sum_values (process_sheet_in_chunks sh pairs rows cols target).1.2.
Proof.
  unfold process_sheet_in_chunks. simpl.
  set (pats := map _ pairs). set (init := {| used_range := sh |}).
  assert (Hinit : total_replacements init = sum_values (replacement_details init)).
  { simpl. symmetry. apply sum_values_all_zero.
    apply initial_details_zero, map_Forall_empty. }
  revert Hinit. generalize init. generalize (range_step 0 rows (chunk_size_for rows)).
  induction l as [|start l IH]; intros st Hst; simpl; [done|].
  apply IH. by apply chunk_step_total.
Qed.

(** In the find/replace engine the total of a sheet is the sum of the
    counts returned with it. *)
Lemma find_replace_total_is_sum sheet pairs target :
  (process_sheet_intelligently sheet pairs target).1.1
  = sum_values (process_sheet_intelligently sheet pairs target).1.2.
Proof.
  unfold process_sheet_intelligently.
  destruct (target_indices target) as [column_indices|e];
    [|simpl; by rewrite sum_values_empty].
  destruct (shape sheet) as [[rows cols]|]; [|simpl; by rewrite sum_values_empty].
  apply process_sheet_in_chunks_total.
Qed.

End Totals.

End Counts.

(** ** The rule engine *)

Section RulesFacts.
Import Rules.

Lemma row_step_sheet sidx uidx lookup st r :
  let sh1 := log (Index r sidx) (used_range st) in
  let sh2 := log (Index r uidx) sh1 in
  used_range (row_step sidx uidx lookup st r) = sh1
  \/ used_range (row_step sidx uidx lookup st r) = sh2
  \/ exists pos t, getitem (used_range st) r uidx = Ok pos
       /\ (used_range (row_step sidx uidx lookup st r) = log (Write pos.1 pos.2 t) sh2
           \/ set_value pos t (log (Write pos.1 pos.2 t) sh2)
              = Ok (used_range (row_step sidx uidx lookup st r))).
Proof.
  intros sh1 sh2. unfold row_step. fold sh1.
  assert (Hg1 : forall j, getitem sh1 r j = getitem (used_range st) r j) by done.
  rewrite Hg1. destruct (getitem (used_range st) r sidx) as [scell|e]; [|by left].
  destruct (negb (truthy (get_value sh1 scell))); [by left|].
  destruct (lookup !! _) as [[target rule_name]|]; [|by left].
  fold sh2.
  assert (Hg2 : getitem sh2 r uidx = getitem (used_range st) r uidx) by done.
  rewrite Hg2. destruct (getitem (used_range st) r uidx) as [ucell|e];
    [|right; by left].
  destruct (negb (String.eqb _ _)); [|right; by left].
  right. right. exists ucell, target. split; [done|].
  destruct (set_value ucell target _) as [sh'|e] eqn:Hset; [by right|by left].
Qed.

Lemma row_step_frame sidx uidx lookup st r :
  frame (fun i j => i = r /\ (j = sidx \/ j = uidx)) (used_range st)
        (used_range (row_step sidx uidx lookup st r)).
Proof.
  destruct (row_step_sheet sidx uidx lookup st r)
    as [->|[->|(pos & t & Hg & [->|Hset])]].
  - apply frame_log_index. auto.
  - eapply frame_trans; [apply (frame_log_index _ _ r sidx); auto|].
    apply (frame_log_index _ _ r uidx); auto.
  - eapply frame_trans; [apply (frame_log_index _ _ r sidx); auto|].
    eapply frame_trans; [apply (frame_log_index _ _ r uidx); auto|].
    apply frame_log_write. exists r, uidx. auto.
  - eapply frame_trans; [apply (frame_log_index _ _ r sidx); auto|].
    eapply frame_trans; [apply (frame_log_index _ _ r uidx); auto|].
    eapply frame_write; [|exact Hset]. exists r, uidx. auto.
Qed.

Lemma row_step_marks sidx uidx lookup st r :
  Index r sidx ∈ trace (used_range (row_step sidx uidx lookup st r)).
Proof.
  destruct (row_step_sheet sidx uidx lookup st r)
    as [->|[->|(pos & t & Hg & [->|Hset])]]; simpl.
  - by left.
  - right; by left.
  - right; right; by left.
  - unfold set_value in Hset. simpl in Hset.
    destruct (protect (used_range st)); [|done..]. injection Hset as <-. simpl.
    right; right; by left.
Qed.

Lemma group_step_frame rows_to_process st sc uc rule_group :
  frame (in_group rows_to_process sc uc) (used_range st)
        (used_range (group_step rows_to_process st (sc, uc, rule_group))).
Proof.
  unfold group_step.
  set (st0 := {| used_range := used_range st |}).
  change (used_range st) with (used_range st0).
  eapply frame_weaken;
    [|apply (foldl_frame _ used_range
               (fun r i j => i = r /\ (j = column_letter_to_index sc
                                       \/ j = column_letter_to_index uc)))].
  - intros i j (a & Ha%elem_of_range & -> & Hj). split; [lia|done].
  - intros s a _. apply row_step_frame.
Qed.

Lemma group_step_covers rows_to_process st sc uc rule_group i :
  0 <= i < rows_to_process ->
  Index i (column_letter_to_index sc)
  ∈ trace (used_range (group_step rows_to_process st (sc, uc, rule_group))).
Proof.
  intros Hi. unfold group_step.
  apply (foldl_trace_covers _ used_range _ (fun a => a = i)) with (a := i);
    [| |by apply elem_of_range|done].
  - intros s a e He. eapply frame_trace_grows; [apply row_step_frame|done].
  - intros s a ->. apply row_step_marks.
Qed.

Lemma rules_touch_rows_frame P rows sh : frame P sh (Rules.touch_rows rows sh).
Proof.
  unfold Rules.touch_rows. generalize (elements rows). intros l. revert sh.
  induction l as [|r l IH]; intros sh; simpl; [apply frame_refl|].
  eapply frame_trans; [|apply IH].
  destruct (set_row_height r 16 sh) as [sh'|e] eqn:Hset;
    [by eapply set_row_height_frame|apply frame_refl].
Qed.

Lemma process_sheet_with_rules_frame sheet rules cap rows cols :
  shape sheet = Some (rows, cols) ->
  frame (fun i j => exists g, g ∈ group_rules rules
                     /\ in_group (Z.min rows cap) g.1.1 g.1.2 i j)
        sheet (process_sheet_with_rules sheet rules cap).2.
Proof.
  intros Hshape. unfold process_sheet_with_rules. rewrite Hshape. simpl.
  eapply frame_trans; [|apply rules_touch_rows_frame].
  set (init := {| used_range := sheet |}).
  change sheet with (used_range init) at 1.
  apply (foldl_frame (group_step (Z.min rows cap)) used_range
           (fun g => in_group (Z.min rows cap) g.1.1 g.1.2)).
  intros s [[sc uc] es] _. apply group_step_frame.
Qed.

Lemma process_sheet_with_rules_covers sheet rules cap rows cols g i :
  shape sheet = Some (rows, cols) ->
  g ∈ group_rules rules -> 0 <= i < Z.min rows cap ->
  Index i (column_letter_to_index g.1.1)
  ∈ trace (process_sheet_with_rules sheet rules cap).2.
Proof.
  intros Hshape Hg Hi. unfold process_sheet_with_rules. rewrite Hshape. simpl.
  eapply frame_trace_grows; [apply (rules_touch_rows_frame (fun _ _ => True))|].
  apply (foldl_trace_covers (group_step (Z.min rows cap)) used_range _
                            (fun a => a = g)) with (a := g); [| |done|done].
  - intros s [[sc uc] es] e He.
    eapply frame_trace_grows; [apply group_step_frame|done].
  - intros s a ->. destruct g as [[sc uc] es]. by apply group_step_covers.
Qed.

Lemma build_lookup_snoc es e :
  build_lookup (es ++ [e])
  = <[e_search_value e := (e_target_value e, e_name e)]> (build_lookup es).
Proof. unfold build_lookup. by rewrite foldl_app. Qed.

Lemma build_lookup_spec es k :
  build_lookup es !! k
  = (fun e => (e_target_value e, e_name e)) <$> last_match k es.
Proof.
  unfold last_match. induction es as [|e es IH] using rev_ind; [done|].
  rewrite build_lookup_snoc, list.filter_app.
  destruct (decide (e_search_value e = k)) as [Hk|Hk].
  - rewrite (filter_cons_True _ e []) by done. rewrite filter_nil, last_snoc.
    rewrite <- Hk. by rewrite lookup_insert_eq.
  - rewrite (filter_cons_False _ e []) by done. rewrite filter_nil, app_nil_r.
    by rewrite lookup_insert_ne.
Qed.

(** C4, amended. For a row whose search cell holds a truthy value: the
    rule applied is the last rule of the group whose normalised search value
    equals the whole trimmed, lower-cased text of the cell; without such a
    rule nothing changes. With it, when the update cell can be indexed and
    the sheet is not protected, the update cell is overwritten with the
    target and the counter of the rule's name and the total go up by one
    exactly when the trimmed text of the update cell differs, letter case
    included, from the trimmed target. *)
Theorem rule_row_step_spec (rule_group : list entry) (sidx uidx : Z)
    (st : state) (r : Z) (scell : Z * Z) (v : value) :
  getitem (used_range st) r sidx = Ok scell ->
  get_value (used_range st) scell = v ->
  truthy v = true ->
  let st' := row_step sidx uidx (build_lookup rule_group) st r in
  let unchanged :=
    cells (used_range st') = cells (used_range st)
    /\ update_details st' = update_details st
    /\ total_updates st' = total_updates st in
  match last_match (lower (strip (py_str v))) rule_group with
  | None => unchanged
  | Some e =>
      forall ucell,
        getitem (used_range st) r uidx = Ok ucell ->
        protect (used_range st) = Unprotected ->
        if String.eqb (strip (cell_text (get_value (used_range st) ucell)))
                      (strip (e_target_value e))
        then unchanged
        else cells (used_range st')
             = <[ucell := VStr (e_target_value e)]> (cells (used_range st))
             /\ update_details st' = incr (e_name e) 1 (update_details st)
             /\ total_updates st' = total_updates st + 1
  end.
Proof.
  intros Hs Hv Ht. simpl. unfold row_step.
  set (sh1 := log (Index r sidx) (used_range st)).
  assert (Hg1 : getitem sh1 r sidx = Ok scell) by done. rewrite Hg1.
  assert (Hv1 : get_value sh1 scell = v) by done. rewrite Hv1, Ht. simpl.
  rewrite build_lookup_spec.
  destruct (last_match (lower (strip (py_str v))) rule_group) as [e|]; simpl;
    [|done].
  intros ucell Hu Hp.
  set (sh2 := log (Index r uidx) sh1).
  assert (Hg2 : getitem sh2 r uidx = Ok ucell) by done. rewrite Hg2.
  assert (Hv2 : get_value sh2 ucell = get_value (used_range st) ucell) by done.
  rewrite Hv2. fold (cell_text (get_value (used_range st) ucell)).
  destruct (String.eqb _ _); simpl; [done|].
  unfold set_value. simpl. rewrite Hp. done.
Qed.

Lemma resolve_nonneg n i r : 0 <= i -> resolve n i = Ok r -> r = i.
Proof.
  intros Hi. unfold resolve.
  assert ((i <? 0) = false) as -> by lia.
  destruct ((i <? 0) || (n <=? i)); [done|]. by intros [= <-].
Qed.

Lemma getitem_row sh i j r c :
  0 <= i -> getitem sh i j = Ok (r, c) -> r = i.
Proof.
  intros Hi. unfold getitem. destruct (shape sh) as [[n m]|]; [|done].
  destruct (resolve n i) as [r'|] eqn:Hr; [|done]. simpl.
  destruct (resolve m j) as [c'|]; [|done]. simpl. intros [= <- <-].
  by eapply resolve_nonneg.
Qed.

(** Accesses within the first [n] rows leave a trace within these rows
    and do not change the rows after them. *)
Lemma frame_rows (P : Z -> Z -> Prop) (n : Z) sh sh' :
  (forall i j, P i j -> 0 <= i < n) ->
  frame P sh sh' ->
  (exists new, trace sh' = new ++ trace sh
               /\ Forall (fun e => 0 <= event_row e < n) new)
  /\ (forall r c, n <= r -> cells sh' !! (r, c) = cells sh !! (r, c)).
Proof.
  intros HP [_ _ _ _ (new & Ht & Hnew) Hc]. split.
  - exists new. split; [done|]. eapply Forall_impl; [|exact Hnew].
    intros [i j|r c s]; simpl; [apply HP|].
    intros (i & j & Hij & Hg). pose proof (HP _ _ Hij) as Hi.
    apply getitem_row in Hg; [|lia]. lia.
  - intros r c Hr. apply Hc. intros (i & j & Hij & Hg).
    pose proof (HP _ _ Hij) as Hi. apply getitem_row in Hg; [|lia]. lia.
Qed.

Lemma reset_details_sum es : forall d,
  (forall e, e ∈ es -> default 0 (d !! e_name e) = 0) ->
  sum_values (reset_details es d) = sum_values d.
Proof.
  unfold reset_details. induction es as [|e es IH]; intros d Hd; simpl; [done|].
  rewrite IH.
  - rewrite sum_values_insert, Hd by (by left). lia.
  - intros e' He'. destruct (decide (e_name e = e_name e')) as [->|Hne].
    + by rewrite lookup_insert_eq.
    + rewrite lookup_insert_ne by done. apply Hd. by right.
Qed.

Lemma reset_details_other es n : forall d,
  (forall e, e ∈ es -> e_name e <> n) ->
  reset_details es d !! n = d !! n.
Proof.
  unfold reset_details. induction es as [|e es IH]; intros d Hn; simpl; [done|].
  rewrite IH by (intros e' He'; apply Hn; by right).
  apply lookup_insert_ne, Hn. by left.
Qed.

Lemma build_lookup_name es k t n :
  build_lookup es !! k = Some (t, n) -> exists e, e ∈ es /\ e_name e = n.
Proof.
  rewrite build_lookup_spec. unfold last_match.
  destruct (list.last _) as [e|] eqn:Hl; [|done]. simpl. intros [= <- <-].
  exists e. split; [|done].
  apply last_Some in Hl as (l' & Hl).
  assert (e ∈ filter (fun e0 => e_search_value e0 = k) es) as He.
  { rewrite Hl. apply elem_of_app. right. by left. }
  by apply list_elem_of_filter in He as [_ He].
Qed.

(** What [row_step] does to the counters: nothing, or one more update
    under a name of the lookup. *)
Lemma row_step_counters sidx uidx lookup st r :
  (total_updates (row_step sidx uidx lookup st r) = total_updates st
   /\ update_details (row_step sidx uidx lookup st r) = update_details st)
  \/ exists k t n, lookup !! k = Some (t, n)
       /\ total_updates (row_step sidx uidx lookup st r) = total_updates st + 1
       /\ update_details (row_step sidx uidx lookup st r)
          = incr n 1 (update_details st).
Proof.
  unfold row_step.
  destruct (getitem _ r sidx) as [scell|e]; [|by left].
  destruct (negb (truthy _)); [by left|].
  destruct (lookup !! _) as [[t n]|] eqn:Hl; [|by left].
  destruct (getitem _ r uidx) as [ucell|e]; [|by left].
  destruct (negb (String.eqb _ _)); [|by left].
  destruct (set_value _ _ _) as [sh'|e]; [|by left].
  right. eexists _, t, n. split; [exact Hl|]. split; reflexivity.
Qed.

Lemma lookup_incr_other f n (d : gmap string Z) k :
  f <> k -> incr f n d !! k = d !! k.
Proof. intros Hne. unfold incr. by rewrite lookup_insert_ne. Qed.

Lemma rows_total sidx uidx es (l : list Z) : forall st,
  total_updates st = sum_values (update_details st) ->
  let st' := foldl (row_step sidx uidx (build_lookup es)) st l in
  total_updates st' = sum_values (update_details st')
  /\ forall n, (forall e, e ∈ es -> e_name e <> n) ->
               update_details st' !! n = update_details st !! n.
Proof.
  induction l as [|r l IH]; intros st Hst; simpl; [done|].
  destruct (row_step_counters sidx uidx (build_lookup es) st r)
    as [[Ht Hd]|(k & t & n & Hl & Ht & Hd)].
  - destruct (IH (row_step sidx uidx (build_lookup es) st r)) as [H1 H2];
      [by rewrite Ht, Hd|].
    split; [exact H1|]. intros n Hn. by rewrite H2, Hd.
  - destruct (IH (row_step sidx uidx (build_lookup es) st r)) as [H1 H2].
    { rewrite Ht, Hd, sum_values_incr. lia. }
    split; [exact H1|]. intros n' Hn'. rewrite H2, Hd by done.
    apply build_lookup_name in Hl as (e & He & <-).
    apply lookup_incr_other. by apply Hn'.
Qed.

Lemma group_step_total rows_to_process st sc uc es :
  total_updates st = sum_values (update_details st) ->
  (forall e, e ∈ es -> update_details st !! e_name e = None) ->
  let st' := group_step rows_to_process st (sc, uc, es) in
  total_updates st' = sum_values (update_details st')
  /\ forall n, (forall e, e ∈ es -> e_name e <> n) ->
               update_details st' !! n = update_details st !! n.
Proof.
  intros Hst Hfresh. simpl. unfold group_step.
  set (st0 := {| used_range := used_range st |}).
  destruct (rows_total (column_letter_to_index sc) (column_letter_to_index uc) es
              (range 0 rows_to_process) st0) as [H1 H2].
  { simpl. rewrite reset_details_sum; [done|].
    intros e He. by rewrite Hfresh. }
  split; [exact H1|]. intros n Hn. rewrite H2 by done. simpl.
  by apply reset_details_other.
Qed.

Lemma groups_total rows_to_process (g : groups) : forall st,
  names_apart g ->
  total_updates st = sum_values (update_details st) ->
  (forall k es e, (k, es) ∈ g -> e ∈ es -> update_details st !! e_name e = None) ->
  let st' := foldl (group_step rows_to_process) st g in
  total_updates st' = sum_values (update_details st').
Proof.
  induction g as [|[[sc uc] es] g IH]; intros st Hg Hst Hfresh; simpl; [done|].
  destruct Hg as [Hhere Hrest].
  destruct (group_step_total rows_to_process st sc uc es Hst) as [H1 H2].
  { intros e He. eapply Hfresh; [by left|done]. }
  apply IH; [done|done|].
  intros k es' e' Hk He'. rewrite H2.
  - eapply Hfresh; [by right|done].
  - intros e He. by eapply Hhere.
Qed.

(** X16. In the rule engine the total is the sum of the counts when no rule
    name is shared between two groups of rules. *)
Lemma rule_total_is_sum sheet rules cap :
  names_apart (group_rules rules) ->
  (process_sheet_with_rules sheet rules cap).1.1
  = sum_values (process_sheet_with_rules sheet rules cap).1.2.
Proof.
  intros Hg. unfold process_sheet_with_rules.
  destruct (shape sheet) as [[rows cols]|]; simpl; [|by rewrite sum_values_empty].
  apply groups_total; [done|simpl; by rewrite sum_values_empty|].
  intros k es e _ _. simpl. apply lookup_empty.
Qed.

End RulesFacts.

(** ** Which sheets are processed *)

Section Selection.
Context `{UD : UnicodeData}.
Import FindReplace.

(** *** The normalised name *)

Lemma text_lstrip_snoc l c :
  text_lstrip (l ++ [c])
  = match text_lstrip l with
    | [] => if is_whitespace c then [] else [c]
    | r => r ++ [c]
    end.
Proof.
  induction l as [|x l IH]; simpl.
  - by destruct (is_whitespace c).
  - destruct (is_whitespace x); [exact IH|done].
Qed.

Lemma text_rstrip_cons c s :
  text_rstrip (c :: s)
  = match text_rstrip s with
    | [] => if is_whitespace c then [] else [c]
    | r => c :: r
    end.
Proof.
  unfold text_rstrip. simpl. rewrite text_lstrip_snoc.
  destruct (text_lstrip (rev s)) as [|x r] eqn:E; simpl.
  - by destruct (is_whitespace c).
  - rewrite rev_app_distr. simpl.
    destruct (rev r ++ [x]) eqn:E'; [by destruct (rev r)|done].
Qed.

Lemma join_words_cons c w ws :
  c :: join_words (w :: ws) = join_words ((c :: w) :: ws).
Proof. simpl. by destruct ws. Qed.

Lemma collapse_rstrip t :
  collapse_spaces true (text_rstrip t) = join_words (words t)
  /\ collapse_spaces false (text_rstrip t)
     = (if lead (text_rstrip t) then 32 :: join_words (words t)
        else join_words (words t))
  /\ (text_rstrip t = [] <-> words t = [])
  /\ starts_word (text_rstrip t) = starts_word t.
Proof.
  induction t as [|c t (IH1 & IH2 & IH3 & IH4)]; [by repeat split|].
  rewrite text_rstrip_cons. cbn [words starts_word].
  set (r := text_rstrip t) in *.
  assert (Hm : match r with
               | [] => if is_whitespace c then [] else [c]
               | x :: r0 => c :: x :: r0
               end
               = if is_whitespace c && bool_decide (r = []) then [] else c :: r).
  { destruct r; destruct (is_whitespace c); done. }
  rewrite Hm. clear Hm. clearbody r.
  destruct (is_whitespace c) eqn:Hc; cbn [andb negb].
  - case_bool_decide as Hr.
    + assert (words t = []) as -> by by apply IH3. by repeat split.
    + cbn [collapse_spaces lead starts_word]. rewrite Hc. cbn [negb].
      split; [exact IH1|]. split; [by rewrite IH1|]. split; [|done].
      rewrite <- IH3. split; [done|]. intros. done.
  - cbn [collapse_spaces lead starts_word]. rewrite Hc. cbn [negb].
    assert (Hw : c :: collapse_spaces false r
                 = join_words
                     (if starts_word t
                      then match words t with
                           | [] => [[c]]
                           | w :: ws => (c :: w) :: ws
                           end
                      else [c] :: words t)).
    { rewrite IH2. rewrite <- IH4.
      destruct r as [|x r].
      - assert (words t = []) as -> by by apply IH3. done.
      - cbn [lead starts_word].
        destruct (words t) as [|w ws] eqn:Ew.
        { assert (x :: r = []) by by apply IH3. done. }
        destruct (is_whitespace x); cbn [negb].
        + done.
        + apply join_words_cons. }
    split; [exact Hw|]. split; [exact Hw|]. split; [|done].
    split; [done|]. destruct (starts_word t); [|done]. by destruct (words t).
Qed.

Lemma words_lstrip s : words (text_lstrip s) = words s.
Proof.
  induction s as [|c s IH]; [done|]. simpl.
  destruct (is_whitespace c) eqn:Hc; [exact IH|]. simpl. by rewrite Hc.
Qed.

Lemma lead_lstrip s : starts_word (text_lstrip s) = negb (bool_decide (text_lstrip s = [])).
Proof.
  induction s as [|c s IH]; [done|]. simpl.
  destruct (is_whitespace c) eqn:Hc; [exact IH|]. simpl. by rewrite Hc.
Qed.

Lemma collapse_strip_words s :
  collapse_spaces false (text_strip s) = join_words (words s).
Proof.
  unfold text_strip.
  destruct (collapse_rstrip (text_lstrip s)) as (_ & H2 & H3 & H4).
  rewrite H2, words_lstrip.
  destruct (text_rstrip (text_lstrip s)) as [|x r] eqn:Er; [done|].
  rewrite lead_lstrip in H4. cbn [starts_word lead] in *.
  destruct (is_whitespace x); [|done].
  case_bool_decide as Hnil; [|done].
  assert (x :: r = []); [|done].
  apply H3. rewrite Hnil. done.
Qed.

Lemma str_lower_join ws :
  str_lower (join_words ws) = join_words (str_lower <$> ws).
Proof.
  induction ws as [|w ws IH]; [apply str_lower_nil|].
  destruct ws as [|w2 ws]; [done|].
  change (join_words (w :: w2 :: ws)) with (w ++ 32 :: join_words (w2 :: ws)).
  rewrite str_lower_space, IH. done.
Qed.

Lemma normalize_name_words name :
  _normalize_sheet_name (VStr name) = join_words (name_words name).
Proof.
  unfold _normalize_sheet_name, name_words.
  by rewrite collapse_strip_words, str_lower_join.
Qed.

(** *** The configuration of a sheet *)

Lemma find_config_Some confs nn cfg :
  find_config confs nn = Some cfg <->
  exists pre cname post,
    confs = pre ++ (cname, cfg) :: post
    /\ _normalize_sheet_name (VStr cname) = nn
    /\ Forall (fun e : string * config => _normalize_sheet_name (VStr e.1) <> nn) pre.
Proof.
  induction confs as [|[cname' cfg'] confs IH]; simpl.
  - split; [done|]. intros (pre & cname & post & Heq & _). by destruct pre.
  - case_bool_decide as E.
    + split.
      * intros [= <-]. exists [], cname', confs. split; [done|]. split; [done|constructor].
      * intros (pre & cname & post & Heq & Hn & Hpre).
        destruct pre as [|[c0 g0] pre]; simpl in Heq.
        { by injection Heq as -> ->. }
        injection Heq as -> -> ->. inversion Hpre; subst. simpl in *. done.
    + rewrite IH. split.
      * intros (pre & cname & post & -> & Hn & Hpre).
        exists ((cname', cfg') :: pre), cname, post. split; [done|]. split; [done|].
        by constructor.
      * intros (pre & cname & post & Heq & Hn & Hpre).
        destruct pre as [|[c0 g0] pre]; simpl in Heq.
        { injection Heq as -> ->. done. }
        injection Heq as -> -> ->. inversion Hpre; subst.
        exists pre, cname, post. done.
Qed.

Lemma nonempty_dict_spec {V} (d : gmap string V) : nonempty_dict d = true <-> d <> ∅.
Proof.
  unfold nonempty_dict. rewrite negb_true_iff, bool_decide_eq_false. done.
Qed.

Lemma sheet_decision_configured confs sheet_name :
  confs <> [] ->
  sheet_decision confs sheet_name
  = match find_config confs (_normalize_sheet_name (VStr sheet_name)) with
    | None => Skip
    | Some sheet_config =>
        if negb (nonempty_dict sheet_config) then Skip
        else if negb (truthy (default (VBool true) (sheet_config !! "enabled")))
             then Skip
             else Process (default VNone (sheet_config !! "columns"))
    end.
Proof. by destruct confs. Qed.

(** C2, amended. In the find/replace script the normalised name of a sheet
    is made of the words of its NFKC form, lower-cased and joined by single
    spaces, so two names with the same such words (names that differ only in
    letter case, Unicode form or white space) get the same decision; a sheet
    is processed exactly when no configuration is given, or the first entry
    whose normalised name equals the sheet's normalised name is a non-empty
    dictionary that is not disabled. In the rule script a sheet is processed
    exactly when its name itself is a key of the rules with a non-empty
    list. *)
Theorem sheet_selection (confs : list (string * config))
    (sheet_rules : gmap string (list Rules.rule)) (name1 name2 : string) :
  name_words name1 = name_words name2 ->
  (forall name, _normalize_sheet_name (VStr name) = join_words (name_words name))
  /\ sheet_decision confs name1 = sheet_decision confs name2
  /\ (forall t,
        sheet_decision confs name1 = Process t <->
        (confs = [] /\ t = VNone)
        \/ exists pre cname cfg post,
             confs = pre ++ (cname, cfg) :: post
             /\ Forall (fun e : string * config =>
                          _normalize_sheet_name (VStr e.1)
                          <> _normalize_sheet_name (VStr name1)) pre
             /\ _normalize_sheet_name (VStr cname) = _normalize_sheet_name (VStr name1)
             /\ cfg <> ∅
             /\ truthy (default (VBool true) (cfg !! "enabled")) = true
             /\ t = default VNone (cfg !! "columns"))
  /\ (forall rs,
        Rules.sheet_decision sheet_rules name1 = Rules.Process rs <->
        sheet_rules !! name1 = Some rs /\ rs <> []).
Proof.
  intros Hn. split; [exact normalize_name_words|]. split; [|split].
  - unfold sheet_decision. by rewrite !normalize_name_words, Hn.
  - intros t. destruct (decide (confs = [])) as [->|Hconfs].
    { split.
      - intros [= <-]. by left.
      - intros [[_ ->]|(pre & cname & cfg & post & Heq & _)]; [done|].
        by destruct pre. }
    rewrite sheet_decision_configured by done.
    destruct (find_config confs (_normalize_sheet_name (VStr name1))) as [cfg|] eqn:Hf.
    + pose proof Hf as Hf'. apply find_config_Some in Hf' as (pre & cname & post & Heq & Hc & Hpre).
      destruct (nonempty_dict cfg) eqn:Hne; simpl.
      * apply nonempty_dict_spec in Hne.
        destruct (truthy (default (VBool true) (cfg !! "enabled"))) eqn:Hen; simpl.
        -- split.
           ++ intros [= <-]. right. exists pre, cname, cfg, post. done.
           ++ intros [[-> _]|(pre' & cname' & cfg' & post' & Heq' & Hpre' & Hc' & _ & _ & ->)].
              { done. }
              assert (find_config confs (_normalize_sheet_name (VStr name1)) = Some cfg') as Hf2.
              { apply find_config_Some. exists pre', cname', post'. done. }
              rewrite Hf in Hf2. by injection Hf2 as <-.
        -- split; [done|].
           intros [[-> _]|(pre' & cname' & cfg' & post' & Heq' & Hpre' & Hc' & _ & Hen' & _)].
           { done. }
           assert (find_config confs (_normalize_sheet_name (VStr name1)) = Some cfg') as Hf2.
           { apply find_config_Some. exists pre', cname', post'. done. }
           rewrite Hf in Hf2. injection Hf2 as <-. congruence.
      * split; [done|].
        intros [[-> _]|(pre' & cname' & cfg' & post' & Heq' & Hpre' & Hc' & Hne' & _)].
        { done. }
        assert (find_config confs (_normalize_sheet_name (VStr name1)) = Some cfg') as Hf2.
        { apply find_config_Some. exists pre', cname', post'. done. }
        rewrite Hf in Hf2. injection Hf2 as <-.
        apply nonempty_dict_spec in Hne'. congruence.
    + split; [done|].
      intros [[-> _]|(pre' & cname' & cfg' & post' & Heq' & Hpre' & Hc' & _)].
      { done. }
      assert (find_config confs (_normalize_sheet_name (VStr name1)) = Some cfg') as Hf2.
      { apply find_config_Some. exists pre', cname', post'. done. }
      congruence.
  - intros rs. unfold Rules.sheet_decision.
    destruct (sheet_rules !! name1) as [[|r l]|]; split; try done.
    + by intros [[= <-] ?].
    + intros [= <-]. done.
    + by intros [[= <-] _].
    + by intros [? _].
Qed.

End Selection.

Import Grouping.

(** ** Groups of rules *)

Section GroupingFacts.
Import Rules.

Lemma group_append_keys key e (g : groups) :
  (key ∈ g.*1 -> (group_append key e g).*1 = g.*1)
  /\ (key ∉ g.*1 -> (group_append key e g).*1 = g.*1 ++ [key]).
Proof.
  induction g as [|[k es] g IH].
  - split; [by intros ?%elem_of_nil|done].
  - cbn [group_append]. destruct (decide (k = key)) as [->|Hne];
      rewrite !fmap_cons; cbn [fst].
    + split; [done|]. intros Hn. exfalso. apply Hn. by left.
    + destruct IH as [IH1 IH2]. split.
      * intros [?|Hin]%elem_of_cons; [congruence|]. by rewrite IH1.
      * intros Hn. rewrite IH2; [done|]. intros Hin. apply Hn. by right.
Qed.

Lemma group_append_NoDup key e (g : groups) :
  NoDup g.*1 -> NoDup (group_append key e g).*1.
Proof.
  intros Hnd. destruct (decide (key ∈ g.*1)) as [Hin|Hn].
  - by rewrite (proj1 (group_append_keys key e g) Hin).
  - rewrite (proj2 (group_append_keys key e g) Hn).
    apply list.NoDup_app. split; [done|]. split; [|apply list.NoDup_singleton].
    intros x Hx ->%list_elem_of_singleton. done.
Qed.

Lemma group_of_cons key k es (g : groups) :
  group_of key ((k, es) :: g) = if decide (k = key) then es else group_of key g.
Proof. reflexivity. Qed.

Lemma group_of_nonempty key (g : groups) :
  group_of key g <> [] -> (key, group_of key g) ∈ g.
Proof.
  induction g as [|[k es] g IH]; [done|]. rewrite group_of_cons.
  destruct (decide (k = key)) as [->|Hne]; [by left|]. intros H. right. by apply IH.
Qed.

Lemma group_of_append key k e (g : groups) :
  group_of key (group_append k e g)
  = group_of key g ++ (if decide (k = key) then [e] else []).
Proof.
  induction g as [|[k' es] g IH]; simpl.
  - by destruct (decide (k = key)).
  - destruct (decide (k' = k)) as [->|Hne]; simpl.
    + destruct (decide (k = key)); [done|]. by rewrite app_nil_r.
    + destruct (decide (k' = key)) as [->|Hne']; [|apply IH].
      destruct (decide (k = key)); [congruence|]. by rewrite app_nil_r.
Qed.

Lemma group_of_elem key es (g : groups) :
  NoDup g.*1 -> (key, es) ∈ g -> group_of key g = es.
Proof.
  induction g as [|[k es'] g IH]; intros Hnd Hin; [by apply elem_of_nil in Hin|].
  rewrite group_of_cons. simpl in Hnd. apply list.NoDup_cons in Hnd as [Hk Hnd].
  apply elem_of_cons in Hin as [[= <- <-]|Hin].
  - by rewrite decide_True.
  - rewrite decide_False; [by apply IH|]. intros ->. apply Hk.
    apply list_elem_of_fmap. by exists (key, es).
Qed.

Lemma group_append_nonempty key e (g : groups) :
  Forall (fun p : string * string * list entry => p.2 <> []) g ->
  Forall (fun p : string * string * list entry => p.2 <> []) (group_append key e g).
Proof.
  induction g as [|[k es] g IH]; intros Hg; simpl.
  - by repeat constructor.
  - inversion Hg as [|? ? Hes Hg']; subst.
    destruct (decide (k = key)); constructor; simpl; auto.
    by destruct es.
Qed.

Lemma group_rules_snoc rules r :
  group_rules (rules ++ [r])
  = group_append (rule_key r) (entry_of r) (group_rules rules).
Proof. unfold group_rules. by rewrite foldl_app. Qed.

Lemma group_rules_invariants rules :
  NoDup (group_rules rules).*1
  /\ Forall (fun p : string * string * list entry => p.2 <> []) (group_rules rules)
  /\ forall key, group_of key (group_rules rules) = entries_of_key key rules.
Proof.
  induction rules as [|r rules IH] using rev_ind.
  - split; [constructor|]. split; [constructor|done].
  - destruct IH as (Hnd & Hne & Hof). rewrite group_rules_snoc.
    split; [by apply group_append_NoDup|]. split; [by apply group_append_nonempty|].
    intros key. rewrite group_of_append, Hof. unfold entries_of_key.
    rewrite list.filter_app, fmap_app. f_equal.
    destruct (decide (rule_key r = key)).
    + by rewrite (filter_cons_True _ r []).
    + by rewrite (filter_cons_False _ r []).
Qed.

(** X13. [grouped_rules] has no column pair twice, and a column pair has
    a group exactly when some rule has that pair; its group holds the entries
    of the rules of that pair, in the order of the rules. *)
Theorem group_rules_partition (rules : list rule) :
  NoDup (group_rules rules).*1
  /\ (forall key es,
        (key, es) ∈ group_rules rules <->
        es <> [] /\ es = entries_of_key key rules).
Proof.
  destruct (group_rules_invariants rules) as (Hnd & Hne & Hof).
  split; [done|]. intros key es. split.
  - intros Hin. split.
    + rewrite Forall_forall in Hne. apply list_elem_of_In in Hin.
      apply (Hne _ Hin).
    + rewrite <- Hof. symmetry. by apply group_of_elem.
  - intros [Hes ->]. rewrite <- Hof in *. by apply group_of_nonempty.
Qed.

Lemma group_rules_from_rule sc uc es e rules :
  (sc, uc, es) ∈ group_rules rules -> e ∈ es ->
  exists r, r ∈ rules /\ search_column r = sc /\ update_column r = uc
            /\ entry_of r = e.
Proof.
  intros Hin He.
  destruct (group_rules_invariants rules) as (Hnd & _ & Hof).
  rewrite <- (group_of_elem _ _ _ Hnd Hin), Hof in He.
  unfold entries_of_key in He.
  apply list_elem_of_fmap in He as (r & -> & Hr).
  apply list_elem_of_filter in Hr as [Hk Hr]. unfold rule_key in Hk.
  injection Hk as <- <-. by exists r.
Qed.

Lemma group_rules_has_rule r rules :
  r ∈ rules ->
  exists es, (search_column r, update_column r, es) ∈ group_rules rules
             /\ entry_of r ∈ es.
Proof.
  intros Hr. destruct (group_rules_invariants rules) as (_ & _ & Hof).
  exists (group_of (rule_key r) (group_rules rules)).
  assert (Hin : entry_of r ∈ group_of (rule_key r) (group_rules rules)).
  { rewrite Hof. unfold entries_of_key. apply list_elem_of_fmap.
    exists r. split; [done|]. by apply list_elem_of_filter. }
  split; [|done]. apply (group_of_nonempty (rule_key r)).
  intros E. rewrite E in Hin. by apply elem_of_nil in Hin.
Qed.
End GroupingFacts.

(** ** The claims about the engines *)

Section CellFacts.
Context `{RT : ReTemplate}.
Import FindReplace.

(** C5, amended. For a text cell with content the pairs are applied one
    after the other, each to the value the pairs before it produced, up to
    the first pair whose replacement text the library rejects, and the count
    of every pair applied is added under its find text. The cell is written,
    once, exactly when no replacement text is rejected and some pair
    matched; the write puts the value the pairs produce into the cell unless
    the sheet is protected. No cell is written more than once, whatever the
    pairs. A find text matches a piece of the value exactly when the two are
    equal up to letter case, and one pair replaces these pieces from left to
    right without overlap. The pairs A->B, B->C turn ["A"] into ["C"] and
    ["xay"] into ["xCy"], one match each; foo->bar turns ["Foo and foo"]
    into ["bar and bar"], two matches. *)
Theorem pairs_apply_in_order (pats : list pattern) (i j : Z) (st : chunk_state)
    (pos : Z * Z) (v : string) :
  getitem (sheet st) i j = Ok pos ->
  cells (sheet st) !! pos = Some (VStr v) ->
  strip v <> "" ->
  (let st' := process_cell pats i j st in
   let applied := accepted pats in
   let ns := pair_counts applied v in
   let written := all_accepted pats && some_match ns in
   (forall k, default 0 (chunk_replacements st' !! k)
              = default 0 (chunk_replacements st !! k) + count_for k applied ns)
   /\ writes (sheet st') = (writes (sheet st) + (if written then 1 else 0))%nat
   /\ cells (sheet st')
      = (if written && writable (sheet st)
         then <[pos := VStr (chain pats v)]> (cells (sheet st))
         else cells (sheet st)))
  /\ (forall pats' i' j' st',
        (writes (sheet (process_cell pats' i' j' st')) <= writes (sheet st') + 1)%nat)
  /\ (forall lit s m,
        match_here lit s = Some m <->
        exists rest, s = m +:+ rest /\ same_text m lit = true)
  /\ (forall find_text lit replace_text repl s,
        lit <> "" ->
        compile_template replace_text = Some repl ->
        replaced lit repl s
                 (subst_one (find_text, LiteralIgnoreCase lit, replace_text) s).1
                 (subst_one (find_text, LiteralIgnoreCase lit, replace_text) s).2)
  /\ chain a_b_c "A" = "C" /\ pair_counts a_b_c "A" = [1; 1]
  /\ chain a_b_c "xay" = "xCy" /\ pair_counts a_b_c "xay" = [1; 1]
  /\ chain foo_bar "Foo and foo" = "bar and bar"
  /\ pair_counts foo_bar "Foo and foo" = [2].
Proof.
  intros Hg Hc Hv. split; [by apply process_cell_any|].
  split; [intros; apply process_cell_writes|].
  split; [apply match_here_same_text|].
  split; [apply subst_one_replaced|]. apply chain_examples.
Qed.

(** C9, amended. [process_chunk] indexes the used range only in the rows of
    the chunk and the effective columns, it indexes all of these, and a cell
    that no such index denotes keeps its content. The effective columns are
    the restriction filtered to indices below [cols] when the restriction is
    a non-empty list, and the first [min cols 108] columns when it is absent
    or the empty list. *)
Theorem effective_columns_frame (sh : Sheet) (start_row end_row cols : Z)
    (pats : list pattern) (target : option (list Z)) :
  let effective :=
    match target with
    | Some (idx :: rest) => filter (fun col_idx => col_idx < cols) (idx :: rest)
    | _ => range 0 (Z.min cols 108)
    end in
  let P := in_chunk start_row end_row effective in
  let sh' := (process_chunk sh start_row end_row cols pats target).2 in
  (exists new, trace sh' = new ++ trace sh /\ Forall (event_within P sh) new)
  /\ (forall pos, ~ denotes P sh pos -> cells sh' !! pos = cells sh !! pos)
  /\ (forall i j, P i j -> Index i j ∈ trace sh').
Proof.
  simpl.
  destruct (process_chunk_frame sh start_row end_row cols pats target)
    as [_ _ _ _ Ht Hc].
  split; [exact Ht|]. split; [exact Hc|].
  intros i j [Hi Hj]. by apply process_chunk_covers.
Qed.

End CellFacts.

Lemma pairs_apply_in_order_witness :
  let st' := @FindReplace.process_cell plain_templates a_b_c 0 0 (start_of cell_xay) in
  cells (FindReplace.sheet st') !! (0, 0) = Some (VStr "xCy")
  /\ default 0 (FindReplace.chunk_replacements st' !! "A") = 1
  /\ default 0 (FindReplace.chunk_replacements st' !! "B") = 1
  /\ writes (FindReplace.sheet st') = 1%nat.
Proof.
  assert (Hv : strip "xay" <> "") by (vm_compute; discriminate).
  destruct (@pairs_apply_in_order plain_templates a_b_c 0 0 (start_of cell_xay)
              (0, 0) "xay" eq_refl eq_refl Hv)
    as ((Hcounts & Hwrites & Hcells) & _).
  simpl. rewrite Hcells, Hwrites, (Hcounts "A"), (Hcounts "B").
  vm_compute. repeat split; reflexivity.
Defined.

(** C5 as stated fails: when the library rejects the replacement text of a
    later pair, here a text that ends in a backslash, the cell ["A"] is not
    written and the later pair is not applied, yet the match of the first
    pair is counted. *)
Lemma rejected_template_leaves_cell :
  let r := @FindReplace.process_chunk plain_templates cell_A 0 1 1 a_b_bad None in
  r.1.1 !! "A" = Some 1
  /\ r.1.1 !! "B" = Some 0
  /\ cells r.2 !! (0, 0) = Some (VStr "A")
  /\ writes r.2 = 0%nat.
Proof. vm_compute. repeat split; reflexivity. Qed.

(** C9 as stated fails: with the empty list as restriction (what ["C:A"]
    parses to) the filtered restriction is empty, yet the cell in column A
    is read and rewritten. *)
Lemma empty_restriction_scans_all :
  let sh' := (@FindReplace.process_chunk plain_templates cell_A 0 1 1 a_b_c (Some [])).2 in
  filter (fun col_idx => col_idx < 1) ([] : list Z) = []
  /\ parse_column_range (Some "C:A") = Ok (Some [])
  /\ cells cell_A !! (0, 0) = Some (VStr "A")
  /\ cells sh' !! (0, 0) = Some (VStr "C")
  /\ trace sh' = [Write 0 0 "C"; Index 0 0].
Proof. vm_compute. repeat split; reflexivity. Qed.

Section RowCap.
Context `{RT : ReTemplate}.

(** C6. On a sheet with [rows] used rows, the find/replace engine indexes
    only rows below [min rows 300] and the rule engine only rows below
    [min rows cap]; the cells of later rows keep their content; every row
    below the bound is indexed, in every column to check (find/replace, once
    the column spec has parsed) and in the search column of every rule. The
    default cap is 300, so that 10,000 used rows give 300. *)
Theorem row_cap (sheet : Sheet) (rows cols : Z)
    (pairs : list (string * string)) (target : value)
    (rules : list Rules.rule) (cap : Z) :
  shape sheet = Some (rows, cols) ->
  (let sh' := (FindReplace.process_sheet_intelligently sheet pairs target).2 in
   let n := Z.min rows 300 in
   (exists new, trace sh' = new ++ trace sheet
                /\ Forall (fun e => 0 <= event_row e < n) new)
   /\ (forall r c, n <= r -> cells sh' !! (r, c) = cells sheet !! (r, c))
   /\ (forall column_indices i j,
         FindReplace.target_indices target = Ok column_indices ->
         0 <= i < n ->
         j ∈ FindReplace.columns_to_check
               (FindReplace.limit_cols cols column_indices) column_indices ->
         Index i j ∈ trace sh'))
  /\ (let sh' := (Rules.process_sheet_with_rules sheet rules cap).2 in
      let n := Z.min rows cap in
      (exists new, trace sh' = new ++ trace sheet
                   /\ Forall (fun e => 0 <= event_row e < n) new)
      /\ (forall r c, n <= r -> cells sh' !! (r, c) = cells sheet !! (r, c))
      /\ (forall rule i,
            rule ∈ rules -> 0 <= i < n ->
            Index i (column_letter_to_index (Rules.search_column rule)) ∈ trace sh'))
  /\ Rules.default_max_rows = 300
  /\ Z.min 10000 300 = 300.
Proof.
  intros Hshape. split; [|split; [|done]].
  - simpl. unfold FindReplace.process_sheet_intelligently.
    destruct (FindReplace.target_indices target) as [column_indices|e] eqn:Hti.
    + rewrite Hshape.
      pose proof (process_sheet_in_chunks_frame sheet pairs (Z.min rows 300)
                    (FindReplace.limit_cols cols column_indices) column_indices) as Hf.
      apply (frame_rows _ (Z.min rows 300)) in Hf as [Ht Hc]; [|by intros i j [Hi _]].
      split; [exact Ht|]. split; [exact Hc|].
      intros ci i j [= <-] Hi Hj. by apply process_sheet_in_chunks_covers.
    + simpl. split; [|split].
      * exists []. split; [reflexivity|constructor].
      * intros r c _. reflexivity.
      * intros ci i j Hci. discriminate.
  - simpl.
    pose proof (process_sheet_with_rules_frame sheet rules cap rows cols Hshape) as Hf.
    apply (frame_rows _ (Z.min rows cap)) in Hf as [Ht Hc];
      [|by intros i j (g & _ & Hi & _)].
    split; [exact Ht|]. split; [exact Hc|].
    intros rule i Hrule Hi.
    destruct (group_rules_has_rule rule rules Hrule) as (es & Hg & _).
    by apply (process_sheet_with_rules_covers sheet rules cap rows cols
                (Rules.search_column rule, Rules.update_column rule, es) i).
Qed.

End RowCap.

Lemma row_cap_witness :
  let fr := (@FindReplace.process_sheet_intelligently plain_templates big_sheet
               [("A", "B")] VNone).2 in
  let ru := (Rules.process_sheet_with_rules big_sheet rule_ABC 300).2 in
  (forall r c, 300 <= r -> cells fr !! (r, c) = cells big_sheet !! (r, c))
  /\ Index 299 0 ∈ trace fr
  /\ (forall r c, 300 <= r -> cells ru !! (r, c) = cells big_sheet !! (r, c))
  /\ Index 299 0 ∈ trace ru.
Proof.
  destruct (@row_cap plain_templates big_sheet 10000 3 [("A", "B")] VNone
              rule_ABC 300 eq_refl)
    as ((_ & Hc & Hcov) & (_ & Hc' & Hcov') & _).
  split; [exact Hc|]. split.
  - apply (Hcov None 299 0); [reflexivity|lia|].
    change (0 ∈ range 0 (Z.min 3 108)). apply elem_of_range. lia.
  - split; [exact Hc'|].
    apply (Hcov' (unnamed "A" "x" "B" "ABC") 299); [by left|lia].
Defined.

(** C10 at its failing input: two rules without a name, on different
    column pairs. The first group makes one update; the second group resets
    the counter of the shared name. The total is 1, the counts sum to 0. *)
Lemma rule_counts_lost_across_groups :
  let r := Rules.process_sheet_with_rules row_x two_unnamed_rules 300 in
  r.1.1 = 1
  /\ r.1.2 !! "Unnamed rule" = Some 0
  /\ sum_values r.1.2 = 0
  /\ cells r.2 !! (0, 1) = Some (VStr "t").
Proof. vm_compute. repeat split; reflexivity. Qed.

(** C4 as stated fails: the update cell is compared trimmed but not
    lower-cased. A cell ["ABC"] with target ["ABC"] is left alone although
    its lower-cased text differs from the target; a cell ["abc"] with target
    ["ABC"] is overwritten although the lower-cased texts agree. *)
Lemma update_comparison_is_case_sensitive :
  let same := Rules.process_sheet_with_rules row_x_upper rule_ABC 300 in
  let other := Rules.process_sheet_with_rules row_x_lower rule_ABC 300 in
  lower (strip "ABC") <> "ABC"
  /\ same.1.1 = 0
  /\ trace same.2 = [Index 0 1; Index 0 0]
  /\ lower (strip "abc") = lower (strip "ABC")
  /\ other.1.1 = 1
  /\ cells other.2 !! (0, 1) = Some (VStr "ABC").
Proof. vm_compute. repeat split; (reflexivity || discriminate). Qed.

Lemma rule_row_step_spec_witness :
  let st' := Rules.row_step 0 1 (Rules.build_lookup (Rules.entry_of <$> rule_ABC))
                            (rules_start row_x_lower) 0 in
  cells (Rules.used_range st') !! (0, 1) = Some (VStr "ABC")
  /\ Rules.total_updates st' = 1.
Proof.
  pose proof (rule_row_step_spec (Rules.entry_of <$> rule_ABC) 0 1
                (rules_start row_x_lower) 0 (0, 0) (VStr "x")
                eq_refl eq_refl eq_refl) as H.
  simpl in H.
  change (last_match (lower (strip "x")) (Rules.entry_of <$> rule_ABC))
    with (Some (Rules.entry_of (unnamed "A" "x" "B" "ABC"))) in H.
  specialize (H (0, 1) eq_refl eq_refl).
  change (String.eqb _ _) with false in H.
  destruct H as (Hc & _ & Ht). simpl. rewrite Hc, Ht. split; reflexivity.
Defined.

(** C2 as stated fails for the rule script: ["sheet1"] and ["Sheet1"] have
    the same normalised form, but rules configured for ["Sheet1"] do not
    select the sheet ["sheet1"]. *)
Lemma rule_sheet_names_are_literal :
  @FindReplace._normalize_sheet_name plain_unicode (VStr "sheet1")
  = @FindReplace._normalize_sheet_name plain_unicode (VStr "Sheet1")
  /\ Rules.sheet_decision {["Sheet1" := rule_ABC]} "sheet1" = Rules.Skip
  /\ Rules.sheet_decision {["Sheet1" := rule_ABC]} "Sheet1" = Rules.Process rule_ABC.
Proof. vm_compute. repeat split; reflexivity. Qed.

Lemma sheet_selection_witness :
  @FindReplace.sheet_decision plain_unicode summer_config " ÉTÉ   2024"
  = @FindReplace.sheet_decision plain_unicode summer_config "été ２０２４ "
  /\ @FindReplace.sheet_decision plain_unicode summer_config " ÉTÉ   2024"
     = FindReplace.Process (VStr "A")
  /\ @FindReplace._normalize_sheet_name plain_unicode (VStr " ÉTÉ   2024")
     = decode "été 2024".
Proof.
  destruct (@sheet_selection plain_unicode summer_config ∅
              " ÉTÉ   2024" "été ２０２４ " eq_refl) as (Hn & Hd & _).
  split; [exact Hd|]. split; [vm_compute; reflexivity|].
  rewrite Hn. vm_compute. reflexivity.
Defined.

(** * Further facts *)

Import WellFormed Touch Grouping Firing Report SinglePass RulesMain MoreExamples.

(** ** More on column letters *)

Lemma valid_letters_app a b :
  valid_letters (a +:+ b) = valid_letters a && valid_letters b.
Proof.
  unfold valid_letters. induction a as [|c a IH]; [done|].
  rewrite append_cons. simpl. rewrite IH. by rewrite andb_assoc.
Qed.

Lemma letters_loop_app a b r :
  letters_loop (a +:+ b) r = letters_loop b (letters_loop a r).
Proof.
  revert r. induction a as [|c a IH]; intros r; [done|].
  rewrite append_cons. simpl. by rewrite IH.
Qed.

Lemma append_assoc (a b c : string) : (a +:+ b) +:+ c = a +:+ (b +:+ c).
Proof.
  induction a as [|x a IH]; [done|]. by rewrite !append_cons, IH.
Qed.

Lemma index_loop_build (n : nat) : forall temp letter,
  0 <= temp -> (Z.to_nat temp <= n)%nat ->
  index_loop temp letter = index_loop temp "" +:+ letter
  /\ valid_letters (index_loop temp "") = true
  /\ letters_loop (index_loop temp "") 0 = temp
  /\ (0 < temp -> index_loop temp "" <> "").
Proof.
  induction n as [|n IH]; intros temp letter Ht Hn.
  - assert (temp = 0) as -> by lia. rewrite !index_loop_zero by lia.
    repeat split; (done || lia).
  - destruct (decide (temp = 0)) as [->|Hne].
    { rewrite !index_loop_zero by lia. repeat split; (done || lia). }
    assert (0 < temp) as Hpos by lia.
    assert (0 <= (temp - 1) / 26) as Hq by (apply Z.div_pos; lia).
    assert ((temp - 1) / 26 < temp) as Hlt by (apply Z.div_lt_upper_bound; lia).
    pose proof (Z.mod_pos_bound (temp - 1) 26 ltac:(lia)) as Hm.
    pose proof (Z.div_mod (temp - 1) 26 ltac:(lia)) as Hdm.
    set (q := (temp - 1) / 26) in *. set (m := (temp - 1) mod 26) in *.
    set (c := chr (m + ord "A")).
    assert (Hc : ord c = m + 65).
    { unfold c. change (ord "A") with 65. apply ord_chr. lia. }
    destruct (IH q (String c letter) Hq ltac:(lia)) as (E1 & _).
    destruct (IH q (String c "") Hq ltac:(lia)) as (E2 & Hv & Hl & _).
    rewrite (index_loop_step temp letter), (index_loop_step temp "") by done.
    fold q m c. rewrite E1, E2. split; [|split; [|split]].
    + by rewrite append_assoc.
    + rewrite valid_letters_app, Hv. unfold valid_letters. simpl.
      unfold is_upper_letter. rewrite Hc.
      assert ((65 <=? m + 65) = true) as -> by lia.
      assert ((m + 65 <=? 90) = true) as -> by lia. done.
    + rewrite letters_loop_app, Hl. simpl. rewrite Hc.
      change (ord "A") with 65. lia.
    + intros _ Habs. destruct (index_loop q ""); discriminate.
Qed.

(** X1. [column_index_to_letter] gives the empty string for a negative
    index; for an index that is not negative it gives a non-empty string of
    capital letters that [column_letter_to_index] converts back to the
    index. *)
Theorem column_index_round_trip (col_index : Z) :
  (col_index < 0 -> column_index_to_letter col_index = "")
  /\ (0 <= col_index ->
      valid_letters (column_index_to_letter col_index) = true
      /\ column_index_to_letter col_index <> ""
      /\ column_letter_to_index (column_index_to_letter col_index) = col_index).
Proof.
  unfold column_index_to_letter. split.
  - intros Hn. apply index_loop_zero. lia.
  - intros Hn.
    destruct (index_loop_build (Z.to_nat (col_index + 1)) (col_index + 1) ""
                ltac:(lia) ltac:(lia)) as (_ & Hv & Hl & Hne).
    split; [done|]. split; [apply Hne; lia|].
    unfold column_letter_to_index. rewrite upper_valid by done. lia.
Qed.

Lemma column_index_round_trip_witness :
  column_letter_to_index (column_index_to_letter 701) = 701.
Proof.
  destruct (column_index_round_trip 701) as [_ H].
  destruct (H ltac:(lia)) as (_ & _ & E). exact E.
Defined.

Lemma upper_lower_char c : upper_char (lower_char c) = upper_char c.
Proof. destruct c as [[] [] [] [] [] [] [] []]; reflexivity. Qed.

Lemma upper_upper_char c : upper_char (upper_char c) = upper_char c.
Proof. destruct c as [[] [] [] [] [] [] [] []]; reflexivity. Qed.

(** X2. [column_letter_to_index] does not depend on the case of the
    letters: a column name written in small letters or in capital letters
    has the index of the name as given. *)
Theorem column_letter_to_index_ignores_case (col_letter : string) :
  column_letter_to_index (lower col_letter) = column_letter_to_index col_letter
  /\ column_letter_to_index (upper col_letter) = column_letter_to_index col_letter.
Proof.
  unfold column_letter_to_index.
  assert (upper (lower col_letter) = upper col_letter) as ->.
  { unfold upper, lower. induction col_letter as [|c s IH]; [done|].
    simpl. by rewrite upper_lower_char, IH. }
  assert (upper (upper col_letter) = upper col_letter) as ->.
  { unfold upper. induction col_letter as [|c s IH]; [done|].
    simpl. by rewrite upper_upper_char, IH. }
  done.
Qed.

(** ** More on the parser *)

Lemma for_each_add_part_raises parts columns :
  Exists (fun part => (2 <= count ":" part)%nat) parts ->
  for_each add_part parts columns = Raise ValueError.
Proof.
  intros Hex. pose proof (for_each_add_part_outcome parts columns) as H.
  destruct (for_each add_part parts columns) as [c|e].
  - exfalso. rewrite Exists_exists in Hex. destruct Hex as (p & Hp & Hc).
    rewrite Forall_forall in H. specialize (H p Hp). lia.
  - by destruct H as [-> _].
Qed.

Lemma for_each_add_part_ok parts columns :
  Forall (fun part => (count ":" part <= 1)%nat) parts ->
  exists columns', for_each add_part parts columns = Ok columns'.
Proof.
  intros Hall. pose proof (for_each_add_part_outcome parts columns) as H.
  destruct (for_each add_part parts columns) as [c|e]; [by exists c|].
  exfalso. destruct H as [_ Hex]. rewrite Exists_exists in Hex.
  destruct Hex as (p & Hp & Hc). rewrite Forall_forall in Hall.
  specialize (Hall p Hp). lia.
Qed.

(** X3. Two non-empty specs whose comma-separated parts, trimmed, are the
    same up to order and repetition are parsed to the same outcome. *)
Theorem parse_ignores_order_and_repeats (spec1 spec2 : string) :
  spec1 <> "" -> spec2 <> "" ->
  (forall part, part ∈ map strip (split "," spec1)
                <-> part ∈ map strip (split "," spec2)) ->
  parse_column_range (Some spec1) = parse_column_range (Some spec2).
Proof.
  intros H1 H2 Hparts.
  destruct spec1 as [|c1 s1]; [done|]. destruct spec2 as [|c2 s2]; [done|].
  unfold parse_column_range.
  set (p1 := map strip (split "," (String c1 s1))) in *.
  set (p2 := map strip (split "," (String c2 s2))) in *.
  pose proof (for_each_add_part_outcome p1 ∅) as O1.
  pose proof (for_each_add_part_outcome p2 ∅) as O2.
  destruct (for_each add_part p1 ∅) as [cols1|e1] eqn:E1;
    destruct (for_each add_part p2 ∅) as [cols2|e2] eqn:E2; simpl.
  - do 2 f_equal. f_equal. apply set_eq. intros x.
    rewrite (for_each_add_part_elements _ _ _ x E1).
    rewrite (for_each_add_part_elements _ _ _ x E2).
    split; (intros [(p & Hp & Hx)|Hx]; [left; exists p; split; [by apply Hparts|done]
                                       |by right]).
  - exfalso. destruct O2 as [_ Hex]. rewrite Exists_exists in Hex.
    destruct Hex as (p & Hp & Hc). rewrite Forall_forall in O1.
    apply list_elem_of_In, Hparts, list_elem_of_In in Hp. specialize (O1 p Hp). lia.
  - exfalso. destruct O1 as [_ Hex]. rewrite Exists_exists in Hex.
    destruct Hex as (p & Hp & Hc). rewrite Forall_forall in O2.
    apply list_elem_of_In, Hparts, list_elem_of_In in Hp. specialize (O2 p Hp). lia.
  - destruct O1 as [-> _]. by destruct O2 as [-> _].
Qed.

Lemma parse_ignores_order_and_repeats_witness :
  parse_column_range (Some "A,C:E") = parse_column_range (Some "C:E , A,A").
Proof.
  apply parse_ignores_order_and_repeats; [done|done|].
  intros part. vm_compute (map strip _). vm_compute (map strip (split "," "C:E , A,A")).
  rewrite !elem_of_cons, !elem_of_nil. tauto.
Defined.

Lemma wf_name_index s : wf_name s = true -> 0 <= column_letter_to_index s.
Proof.
  unfold wf_name. intros [Hv Hne]%andb_prop.
  unfold column_letter_to_index. rewrite upper_valid by done.
  destruct s as [|c s]; [done|]. simpl.
  apply andb_prop in Hv as [Hc Hs]. pose proof (letter_digit _ Hc) as Hd.
  assert (letters_loop "" 0 < letters_loop s (0 * 26 + (ord c - ord "A" + 1)));
    [|simpl in *; lia].
  apply letters_loop_lt; [done|done|simpl; lia|lia].
Qed.

Lemma wf_part_count part : wf_part part = true -> (count ":" part <= 1)%nat.
Proof.
  unfold wf_part. rewrite contains_count.
  pose proof (split_length ":" part) as Hlen.
  destruct (count ":" part) as [|[|n]]; simpl; [lia|lia|].
  destruct (split ":" part) as [|a [|b [|c l]]]; simpl in *; try done; lia.
Qed.

Lemma wf_part_indices part x :
  wf_part part = true -> x ∈ part_indices part -> 0 <= x.
Proof.
  unfold wf_part, part_indices. destruct (contains ":" part).
  - destruct (split ":" part) as [|a [|b [|c l]]]; try done.
    intros [Ha Hb]%andb_prop Hx%elem_of_range.
    apply wf_name_index in Ha. lia.
  - intros Hp Hx%list_elem_of_singleton. subst. by apply wf_name_index.
Qed.

(** X4. A spec whose parts are each a column name of capital letters, or
    two such names around one colon, is parsed without an error, and no
    index of the result is negative. *)
Theorem well_formed_spec_parses (spec : string) :
  forallb wf_part (map strip (split "," spec)) = true ->
  exists l, parse_column_range (Some spec) = Ok (Some l)
            /\ Forall (fun x => 0 <= x) l.
Proof.
  intros Hwf. rewrite forallb_forall in Hwf.
  destruct spec as [|c s]; [by specialize (Hwf "" ltac:(by left))|].
  destruct (for_each_add_part_ok (map strip (split "," (String c s))) ∅)
    as [columns Hc].
  { rewrite Forall_forall. intros p Hp. by apply wf_part_count, Hwf. }
  exists (sorted columns). split.
  - unfold parse_column_range. by rewrite Hc.
  - rewrite Forall_forall. intros x Hx%list_elem_of_In.
    assert (Hparse : parse_column_range (Some (String c s)) = Ok (Some (sorted columns))).
    { unfold parse_column_range. by rewrite Hc. }
    apply (parse_column_range_elements _ _ x Hparse) in Hx as (p & Hp & Hx).
    apply (wf_part_indices p); [|done]. by apply Hwf, list_elem_of_In.
Qed.

Lemma well_formed_spec_parses_witness :
  exists l, parse_column_range (Some "B, D:F ,H") = Ok (Some l)
            /\ Forall (fun x => 0 <= x) l.
Proof. apply well_formed_spec_parses. reflexivity. Defined.

(** ** Letter case *)

Lemma is_space_lower c : is_space (lower_char c) = is_space c.
Proof. destruct c as [[] [] [] [] [] [] [] []]; reflexivity. Qed.

Lemma lstrip_lower s : lstrip (lower s) = lower (lstrip s).
Proof.
  unfold lower. induction s as [|c s IH]; [done|]. simpl.
  rewrite is_space_lower. by destruct (is_space c).
Qed.

Lemma of_chars_app l1 l2 : of_chars (l1 ++ l2) = of_chars l1 +:+ of_chars l2.
Proof. induction l1 as [|c l1 IH]; [done|]. simpl. by rewrite IH. Qed.

Lemma map_chars_app f a b : map_chars f (a +:+ b) = map_chars f a +:+ map_chars f b.
Proof. induction a as [|c a IH]; [done|]. rewrite append_cons. simpl. by rewrite IH. Qed.

Lemma reverse_lower s : reverse (lower s) = lower (reverse s).
Proof.
  unfold reverse, lower. induction s as [|c s IH]; [done|]. simpl.
  rewrite !of_chars_app, map_chars_app, IH. done.
Qed.

Lemma strip_lower s : strip (lower s) = lower (strip s).
Proof.
  unfold strip, rstrip.
  by rewrite lstrip_lower, reverse_lower, lstrip_lower, reverse_lower.
Qed.

(** ** Letter case in a column spec *)

Lemma lower_char_comma c : Ascii.eqb (lower_char c) "," = Ascii.eqb c ",".
Proof. destruct c as [[] [] [] [] [] [] [] []]; reflexivity. Qed.

Lemma lower_char_colon c : Ascii.eqb (lower_char c) ":" = Ascii.eqb c ":".
Proof. destruct c as [[] [] [] [] [] [] [] []]; reflexivity. Qed.

Lemma split_lower sep s :
  (forall c, Ascii.eqb (lower_char c) sep = Ascii.eqb c sep) ->
  split sep (lower s) = lower <$> split sep s.
Proof.
  intros Hsep. unfold lower. induction s as [|c s IH]; [done|]. simpl.
  rewrite Hsep. destruct (Ascii.eqb c sep); [by rewrite IH|].
  rewrite IH. by destruct (split sep s).
Qed.

Lemma contains_lower sep s :
  (forall c, Ascii.eqb (lower_char c) sep = Ascii.eqb c sep) ->
  contains sep (lower s) = contains sep s.
Proof.
  intros Hsep. unfold lower. induction s as [|c s IH]; [done|]. simpl.
  by rewrite Hsep, IH.
Qed.

Lemma upper_lower s : upper (lower s) = upper s.
Proof.
  unfold upper, lower. induction s as [|c s IH]; [done|].
  simpl. by rewrite upper_lower_char, IH.
Qed.

Lemma column_letter_to_index_lower s :
  column_letter_to_index (lower s) = column_letter_to_index s.
Proof. unfold column_letter_to_index. by rewrite upper_lower. Qed.

Lemma add_part_lower part columns :
  add_part (lower part) columns = add_part part columns.
Proof.
  unfold add_part.
  rewrite (contains_lower ":" part lower_char_colon).
  rewrite (split_lower ":" part lower_char_colon).
  destruct (contains ":" part).
  - destruct (split ":" part) as [|a [|b [|c l]]]; try done. simpl.
    by rewrite !strip_lower, !column_letter_to_index_lower.
  - by rewrite column_letter_to_index_lower.
Qed.

(** X5. The parser does not depend on the case of the letters of the
    spec: the spec in small letters is parsed to the same outcome. *)
Theorem parse_column_range_ignores_case (spec : string) :
  parse_column_range (Some (lower spec)) = parse_column_range (Some spec).
Proof.
  destruct spec as [|c s]; [done|].
  change (lower (String c s)) with (String (lower_char c) (lower s)).
  unfold parse_column_range.
  change (String (lower_char c) (lower s)) with (lower (String c s)).
  rewrite (split_lower "," _ lower_char_comma).
  assert (E : forall (parts : list string) columns,
             for_each add_part (map strip (lower <$> parts)) columns
             = for_each add_part (map strip parts) columns).
  { induction parts as [|p parts IH]; intros columns; [done|]. simpl.
    rewrite strip_lower, add_part_lower.
    destruct (add_part (strip p) columns); [apply IH|done]. }
  by rewrite E.
Qed.

(** ** Sheets the find/replace engine gives up on *)

Section SkippedSheets.
Context `{RT : ReTemplate}.
Import FindReplace.

(** X6. When the ["columns"] value of a sheet is a spec with a part that
    holds two colons or more, or a truthy value that is not a string,
    [process_sheet_intelligently] returns the total 0 and no details and
    leaves the sheet as it is. *)
Theorem unusable_columns_skip_sheet (sheet : Sheet)
    (replacement_pairs : list (string * string)) (target_columns : value) :
  (exists spec, target_columns = VStr spec
                /\ Exists (fun part => (2 <= count ":" part)%nat) (split "," spec))
  \/ (truthy target_columns = true /\ forall spec, target_columns <> VStr spec) ->
  process_sheet_intelligently sheet replacement_pairs target_columns
  = (0, ∅, sheet).
Proof.
  intros Hbad. unfold process_sheet_intelligently.
  assert (exists e, target_indices target_columns = Raise e) as [e ->]; [|done].
  unfold target_indices.
  destruct Hbad as [(spec & -> & Hex)|[Ht Hns]].
  - destruct spec as [|c s].
    { apply Exists_exists in Hex as (p & [<-|[]] & Hc). simpl in Hc. lia. }
    simpl. exists ValueError.
    rewrite for_each_add_part_raises; [done|].
    rewrite Exists_exists in *. destruct Hex as (p & Hp & Hc).
    exists (strip p). split; [by apply in_map|]. by rewrite count_strip.
  - rewrite Ht. destruct target_columns; try by eexists. by destruct (Hns s).
Qed.

End SkippedSheets.

Lemma unusable_columns_skip_sheet_witness :
  @FindReplace.process_sheet_intelligently plain_templates cell_A [("A", "B")]
    (VStr "A:B:C") = (0, ∅, cell_A).
Proof.
  apply (@unusable_columns_skip_sheet plain_templates). left.
  exists "A:B:C". split; [reflexivity|]. apply Exists_cons_hd. vm_compute. lia.
Defined.

(** ** The column limit *)

Section LimitFacts.
Import FindReplace.

Lemma list_max_ge (l : list Z) : forall d,
  d <= list_max l d /\ forall x, x ∈ l -> x <= list_max l d.
Proof.
  unfold list_max. induction l as [|a l IH]; intros d; simpl.
  - split; [lia|]. by intros x ?%elem_of_nil.
  - destruct (IH (Z.max d a)) as [H1 H2]. split; [lia|].
    intros x [->|Hx]%elem_of_cons; [lia|by apply H2].
Qed.

(** X7. Lowering the column count to one more than the largest target
    index, as [process_sheet_intelligently] does, does not change the
    columns a chunk checks. *)
Theorem limit_cols_keeps_columns (cols : Z) (column_indices : option (list Z)) :
  columns_to_check (limit_cols cols column_indices) column_indices
  = columns_to_check cols column_indices.
Proof.
  destruct column_indices as [[|idx rest]|]; [done| |done].
  unfold limit_cols, columns_to_check.
  destruct (list_max_ge rest idx) as [H1 H2].
  assert (Hall : Forall (fun x => x <= list_max rest idx) (idx :: rest)).
  { apply list.Forall_forall. intros x [->|Hin]%elem_of_cons; [lia|by apply H2]. }
  clear H1 H2. generalize dependent (list_max rest idx). intros m.
  generalize (idx :: rest). intros l Hall.
  induction Hall as [|x l Hx _ IH]; [done|].
  rewrite !filter_cons, IH.
  destruct (decide (x < Z.min cols (m + 1))), (decide (x < cols)); (done || lia).
Qed.
End LimitFacts.

(** ** Cells the find/replace engine can change *)

Lemma stable_refl ok sh : stable ok sh sh.
Proof. by split. Qed.

Lemma stable_trans ok sh1 sh2 sh3 :
  stable ok sh1 sh2 -> stable ok sh2 sh3 -> stable ok sh1 sh3.
Proof.
  intros [Hp1 Hc1] [Hp2 Hc2]. split; [congruence|].
  intros pos Hpos. rewrite Hc2, Hc1; [done|done|].
  intros (Hu & Hok & v & Hv & Hne). apply Hpos.
  split; [congruence|]. split; [done|]. exists v. by rewrite <- Hc1.
Qed.

Lemma foldl_stable {A S} ok (f : S -> A -> S) (proj : S -> Sheet) (l : list A) :
  (forall s a, stable ok (proj s) (proj (f s a))) ->
  forall s, stable ok (proj s) (proj (foldl f s l)).
Proof.
  intros Hf. induction l as [|a l IH]; intros s; simpl; [apply stable_refl|].
  eapply stable_trans; [apply Hf|apply IH].
Qed.

Section StableFacts.
Context `{RT : ReTemplate}.
Import FindReplace.

Lemma apply_patterns_ok pats : forall v m d r d',
  apply_patterns pats v m d = (Ok r, d') -> templates_ok pats.
Proof.
  induction pats as [|[[find_text re] repl] pats IH]; intros v m d r d' H.
  - constructor.
  - simpl in H. unfold subn in H.
    destruct (compile_template repl) as [f|] eqn:Hf; [|done].
    destruct re as [lit]. destruct (scan lit f 0 v) as [nv n].
    constructor; [by exists f|].
    destruct (0 <? n); by eapply IH.
Qed.

Lemma process_cell_stable pats i j st :
  stable (templates_ok pats) (sheet st) (sheet (process_cell pats i j st)).
Proof.
  unfold process_cell. set (sh0 := log (Index i j) (sheet st)).
  assert (H0 : stable (templates_ok pats) (sheet st) sh0) by by split.
  destruct (getitem sh0 i j) as [pos|e]; [|done].
  unfold get_value. destruct (cells sh0 !! pos) as [[|v|b|r t]|] eqn:Hc; try done.
  simpl.
  destruct (negb (String.eqb v "") && (0 <? Z.of_nat (String.length (strip v))))
    eqn:Hel; [|done].
  destruct (apply_patterns pats v false (chunk_replacements st))
    as [[[v' m]|e] counts] eqn:Hap; [|done].
  destruct m; [|done].
  destruct (set_value pos v' (log (Write pos.1 pos.2 v') sh0)) as [sh'|e] eqn:Hset;
    [|done].
  unfold set_value in Hset. simpl in Hset.
  destruct (protect (sheet st)) eqn:Hp; [|done..]. injection Hset as <-.
  split; [done|]. simpl. intros pos' Hpos'.
  apply lookup_insert_ne. intros <-. apply Hpos'.
  split; [done|]. split; [by eapply apply_patterns_ok|].
  exists v. split; [done|].
  apply andb_prop in Hel as [_ Hlen]. intros Hs. rewrite Hs in Hlen. done.
Qed.

Lemma process_chunk_stable sh start_row end_row cols pats target :
  stable (templates_ok pats) sh (process_chunk sh start_row end_row cols pats target).2.
Proof.
  unfold process_chunk. simpl.
  set (init := {| sheet := sh |}). change sh with (sheet init) at 1.
  apply (foldl_stable _ _ sheet). intros s row_idx.
  apply (foldl_stable _ (fun st col_idx => process_cell pats row_idx col_idx st) sheet).
  intros s' col_idx. apply process_cell_stable.
Qed.

Lemma touch_rows_stable ok rows sh : stable ok sh (FindReplace.touch_rows rows sh).
Proof.
  unfold FindReplace.touch_rows. generalize (sorted rows). intros l. revert sh.
  induction l as [|r l IH]; intros sh; simpl; [apply stable_refl|].
  eapply stable_trans; [|apply IH].
  unfold set_row_height. destruct (protect sh) eqn:Hp; by split.
Qed.

Lemma templates_ok_compiled pairs :
  pairs_ok pairs ->
  templates_ok (map (fun '(find_text, replace_text) =>
                       (find_text, LiteralIgnoreCase find_text, replace_text)) pairs).
Proof.
  unfold pairs_ok, templates_ok. intros H. apply Forall_map.
  eapply Forall_impl; [|exact H]. by intros [a b].
Qed.

Lemma templates_ok_pairs pairs :
  templates_ok (map (fun '(find_text, replace_text) =>
                       (find_text, LiteralIgnoreCase find_text, replace_text)) pairs) ->
  pairs_ok pairs.
Proof.
  unfold pairs_ok, templates_ok. rewrite Forall_map. intros H.
  eapply Forall_impl; [|exact H]. by intros [a b].
Qed.

Lemma process_sheet_in_chunks_stable sh pairs rows cols target :
  stable (pairs_ok pairs) sh (process_sheet_in_chunks sh pairs rows cols target).2.
Proof.
  unfold process_sheet_in_chunks. simpl.
  set (pats := map _ pairs). set (init := {| used_range := sh |}).
  set (st := foldl _ init _).
  assert (Hst : stable (pairs_ok pairs) sh (used_range st)).
  { change sh with (used_range init). subst st.
    apply (foldl_stable _ _ used_range). intros s a.
    rewrite used_range_chunk_step.
    destruct (process_chunk_stable (used_range s) a
                (Z.min (a + chunk_size_for rows) rows) cols pats target) as [Hp Hc].
    split; [done|]. intros pos Hpos. apply Hc.
    intros (Hu & Hok & Hv). apply Hpos. split; [done|].
    split; [by apply templates_ok_pairs|done]. }
  destruct (0 <? chunks_with_changes st); [|done].
  eapply stable_trans; [exact Hst|apply touch_rows_stable].
Qed.

(** X8. The find/replace engine leaves a cell as it is unless the sheet is
    unprotected, the library accepts every replacement text, and the cell
    holds a string that is not blank. *)
Theorem find_replace_changes_only_text (sheet : Sheet)
    (replacement_pairs : list (string * string)) (target_columns : value)
    (pos : Z * Z) :
  ~ (protect sheet = Unprotected
     /\ pairs_ok replacement_pairs
     /\ exists v, cells sheet !! pos = Some (VStr v) /\ strip v <> "") ->
  cells (process_sheet_intelligently sheet replacement_pairs target_columns).2 !! pos
  = cells sheet !! pos.
Proof.
  intros Hpos. unfold process_sheet_intelligently.
  destruct (target_indices target_columns) as [ci|e]; [|done].
  destruct (shape sheet) as [[rows cols]|]; [|done].
  by apply process_sheet_in_chunks_stable.
Qed.

End StableFacts.

Lemma find_replace_changes_only_text_witness :
  cells (@FindReplace.process_sheet_intelligently plain_templates
           (make_sheet 1 2 [((0, 0), VStr "A"); ((0, 1), VOther "1.0" true)])
           [("1", "2")] VNone).2 !! (0, 1)
  = Some (VOther "1.0" true).
Proof.
  apply (@find_replace_changes_only_text plain_templates).
  intros (_ & _ & v & Hv & _). vm_compute in Hv. discriminate.
Defined.

(** ** The report of a scan *)

Section ReportFacts.
Context `{RT : ReTemplate}.
Import FindReplace.

Lemma report_incr k n find_texts d :
  k ∈ find_texts -> 0 <= n -> report_for find_texts d ->
  report_for find_texts (incr k n d).
Proof.
  intros Hk Hn [Hd Hv]. unfold incr. split.
  - rewrite dom_insert_L, Hd. apply set_eq. intros x.
    rewrite elem_of_union, elem_of_singleton, !elem_of_list_to_set.
    split; [intros [->|?]; done|by right].
  - apply map_Forall_insert_2; [|done].
    destruct (d !! k) as [c|] eqn:Hc; simpl; [|lia].
    specialize (Hv k c Hc). simpl in Hv. lia.
Qed.

Lemma apply_patterns_report find_texts pats : forall v m d,
  (forall p, p ∈ pats -> p.1.1 ∈ find_texts) ->
  report_for find_texts d ->
  report_for find_texts (apply_patterns pats v m d).2.
Proof.
  induction pats as [|[[find_text re] repl] pats IH]; intros v m d Hp Hd; [done|].
  simpl. destruct (subn re repl v) as [[nv n]|e]; [|done].
  destruct (0 <? n) eqn:Hn.
  - apply IH; [intros p Hin; apply Hp; by right|].
    apply report_incr; [|lia|done]. apply (Hp (find_text, re, repl)). by left.
  - apply IH; [intros p Hin; apply Hp; by right|done].
Qed.

Lemma process_cell_report find_texts pats i j st :
  (forall p, p ∈ pats -> p.1.1 ∈ find_texts) ->
  report_for find_texts (chunk_replacements st) ->
  report_for find_texts (chunk_replacements (process_cell pats i j st)).
Proof.
  intros Hp Hd. unfold process_cell.
  destruct (getitem _ i j) as [pos|e]; [|done].
  destruct (get_value _ pos) as [|v|b|r t]; try done.
  destruct (negb (String.eqb v "") && _); [|done].
  pose proof (apply_patterns_report find_texts pats v false (chunk_replacements st)
                Hp Hd) as H.
  destruct (apply_patterns pats v false (chunk_replacements st)) as [[[v' m]|e] c];
    simpl in H; [|done].
  destruct m; [|done]. by destruct (set_value _ _ _).
Qed.

Lemma initial_report {B} (l : list (string * B)) : forall d done,
  report_for done d ->
  report_for (done ++ l.*1)
             (foldl (fun d '(find_text, _) => <[find_text := 0]> d) d l).
Proof.
  induction l as [|[k b] l IH]; intros d done Hd.
  - simpl. by rewrite app_nil_r.
  - rewrite fmap_cons. cbn [fst foldl]. rewrite cons_middle, app_assoc.
    apply IH. destruct Hd as [Hd Hv]. split.
    + rewrite dom_insert_L, Hd, list_to_set_app_L. simpl.
      rewrite (right_id_L ∅ (∪)). apply (comm_L (∪)).
    + by apply map_Forall_insert_2.
Qed.

Lemma process_chunk_report sh start_row end_row cols pats target :
  report_for (pats.*1.*1) (process_chunk sh start_row end_row cols pats target).1.1.
Proof.
  unfold process_chunk. simpl.
  assert (Hp : forall p, p ∈ pats -> p.1.1 ∈ pats.*1.*1).
  { intros p Hin. apply list_elem_of_fmap. exists p.1. split; [done|].
    apply list_elem_of_fmap. by exists p. }
  set (init := {| sheet := sh |}).
  assert (H0 : report_for (pats.*1.*1) (chunk_replacements init)).
  { simpl.
    assert (E : foldl (fun d '(find_text, _, _) => <[find_text := 0]> d) ∅ pats
                = foldl (fun d '(find_text, _) => <[find_text := 0]> d)
                        (∅ : gmap string Z) (pats.*1)).
    { generalize (∅ : gmap string Z). clear.
      induction pats as [|[[a b] c] l IH]; intros d; simpl; [done|]. apply IH. }
    rewrite E. apply (initial_report (pats.*1) ∅ []). split; [|done].
    by rewrite dom_empty_L. }
  clearbody init. revert init H0. generalize (range start_row end_row).
  induction l as [|r l IH]; intros st Hst; simpl; [done|]. apply IH.
  revert st Hst. generalize (columns_to_check cols target).
  induction l0 as [|c l0 IH0]; intros st Hst; simpl; [done|].
  apply IH0. by apply process_cell_report.
Qed.

Lemma add_counts_report find_texts d c :
  report_for find_texts d -> report_for find_texts c ->
  report_for find_texts (add_counts d c).
Proof.
  intros Hd [Hc Hv]. unfold add_counts.
  assert (Hsub : dom c ⊆ (list_to_set find_texts : gset string)) by by rewrite Hc.
  clear Hc. revert Hsub Hv.
  apply (map_fold_weak_ind
           (fun r m => dom m ⊆ (list_to_set find_texts : gset string) ->
                       map_Forall (fun _ n => 0 <= n) m ->
                       report_for find_texts r)).
  - done.
  - intros k n m r Hk IH Hdom Hval.
    apply map_Forall_insert in Hval as [Hn Hval]; [|done].
    rewrite dom_insert_L in Hdom.
    apply report_incr; [|done|].
    + apply (elem_of_list_to_set (C := gset string)). apply Hdom.
      apply elem_of_union. left. by apply elem_of_singleton.
    + apply IH; [|done]. intros x Hx. apply Hdom. apply elem_of_union. by right.
Qed.

(** X9. The details [process_sheet_in_chunks] returns have an entry for
    exactly the find texts of the pairs; no count is negative, and the total
    is not negative. *)
Theorem scan_report_has_every_pair (sh : Sheet)
    (replacement_pairs : list (string * string)) (rows cols : Z)
    (target : option (list Z)) :
  let '(total, details, _) :=
    process_sheet_in_chunks sh replacement_pairs rows cols target in
  (forall find_text, find_text ∈ replacement_pairs.*1 <-> is_Some (details !! find_text))
  /\ (forall find_text count, details !! find_text = Some count -> 0 <= count)
  /\ 0 <= total.
Proof.
  pose proof (process_sheet_in_chunks_total sh replacement_pairs rows cols target)
    as Htotal.
  unfold process_sheet_in_chunks in *. simpl in *.
  set (pats := map _ replacement_pairs) in *.
  set (init := {| used_range := sh |}) in *.
  assert (Hkeys : pats.*1.*1 = replacement_pairs.*1).
  { subst pats. clear. induction replacement_pairs as [|[a b] l IH]; [done|].
    cbn [map]. rewrite !fmap_cons. cbn [fst]. by f_equal. }
  assert (H0 : report_for (replacement_pairs.*1) (replacement_details init)).
  { simpl. apply (initial_report replacement_pairs ∅ []). split; [|done].
    by rewrite dom_empty_L. }
  assert (Hst : report_for (replacement_pairs.*1)
                  (replacement_details
                     (foldl (chunk_step rows cols (chunk_size_for rows) pats target)
                            init (range_step 0 rows (chunk_size_for rows))))).
  { clear Htotal. clearbody init. revert init H0.
    generalize (range_step 0 rows (chunk_size_for rows)).
    induction l as [|a l IH]; intros st Hst; simpl; [done|]. apply IH.
    unfold chunk_step.
    pose proof (process_chunk_report (used_range st) a
                  (Z.min (a + chunk_size_for rows) rows) cols pats target) as Hc.
    destruct (process_chunk _ _ _ _ _ _) as [[cr ar] ur]. simpl in Hc.
    rewrite Hkeys in Hc.
    destruct (nonempty_dict cr); simpl; [|done]. by apply add_counts_report. }
  destruct Hst as [Hdom Hval]. split; [|split].
  - intros k. rewrite <- elem_of_dom, Hdom. by rewrite elem_of_list_to_set.
  - intros k c Hk. apply (Hval k c Hk).
  - rewrite Htotal. revert Hval. generalize (replacement_details
       (foldl (chunk_step rows cols (chunk_size_for rows) pats target)
              init (range_step 0 rows (chunk_size_for rows)))).
    intros d. induction d as [|k v d Hk IH] using map_ind; intros Hval.
    + by rewrite sum_values_empty.
    + rewrite sum_values_insert_fresh by done.
      apply map_Forall_insert in Hval as [Hv Hval]; [|done].
      specialize (IH Hval). simpl in Hv. lia.
Qed.

End ReportFacts.

(** ** Chunks *)

Section ChunkFacts.
Context `{RT : ReTemplate}.
Import FindReplace.

Lemma apply_patterns_shifted pats : forall v m d1 d2 (b : string -> Z),
  (forall k, count_of d1 k = b k + count_of d2 k) ->
  (apply_patterns pats v m d1).1 = (apply_patterns pats v m d2).1
  /\ forall k, count_of (apply_patterns pats v m d1).2 k
               = b k + count_of (apply_patterns pats v m d2).2 k.
Proof.
  induction pats as [|[[find_text re] repl] pats IH]; intros v m d1 d2 b Hd; [done|].
  simpl. destruct (subn re repl v) as [[nv n]|e]; [|done].
  destruct (0 <? n); [|by apply IH].
  apply IH. intros k. unfold count_of in *. rewrite !lookup_incr, Hd. lia.
Qed.

Lemma process_cell_shifted pats i j B b stg stl :
  shifted B b stg stl ->
  shifted B b (process_cell pats i j stg) (process_cell pats i j stl).
Proof.
  intros (Hs & Ha & Hc). unfold process_cell. rewrite Hs.
  set (sh0 := log (Index i j) (sheet stl)).
  destruct (getitem sh0 i j) as [pos|e]; [|done].
  destruct (get_value sh0 pos) as [|v|bb|r t]; try done.
  destruct (negb (String.eqb v "") && _); [|done].
  destruct (apply_patterns_shifted pats v false _ _ b Hc) as [E1 E2].
  destruct (apply_patterns pats v false (chunk_replacements stg)) as [r1 c1].
  destruct (apply_patterns pats v false (chunk_replacements stl)) as [r2 c2].
  simpl in E1, E2. subst r2.
  destruct r1 as [[v' m]|e]; [|done].
  destruct m; [|done].
  destruct (set_value pos v' _) as [sh'|e]; [|done].
  split; [done|]. split; [|done]. simpl. rewrite Ha.
  apply set_eq. intros x. rewrite !elem_of_union. tauto.
Qed.

Lemma rows_shifted pats cols target B b (l : list Z) : forall stg stl,
  shifted B b stg stl ->
  shifted B b (foldl (row_body pats cols target) stg l)
              (foldl (row_body pats cols target) stl l).
Proof.
  induction l as [|r l IH]; intros stg stl H; simpl; [done|].
  apply IH. unfold row_body. revert stg stl H.
  generalize (columns_to_check cols target).
  induction l0 as [|c l0 IH0]; intros stg stl H; simpl; [done|].
  apply IH0. by apply process_cell_shifted.
Qed.

Lemma process_cell_no_pairs i j st :
  affected_rows (process_cell [] i j st) = affected_rows st
  /\ chunk_replacements (process_cell [] i j st) = chunk_replacements st.
Proof.
  unfold process_cell. destruct (getitem _ i j) as [pos|e]; [|done].
  destruct (get_value _ pos) as [|v|b|r t]; try done.
  by destruct (negb (String.eqb v "") && _).
Qed.

Lemma rows_no_pairs cols target (l : list Z) : forall st,
  affected_rows (foldl (row_body [] cols target) st l) = affected_rows st
  /\ chunk_replacements (foldl (row_body [] cols target) st l) = chunk_replacements st.
Proof.
  induction l as [|r l IH]; intros st; simpl; [done|].
  destruct (IH (row_body [] cols target st r)) as [-> ->].
  unfold row_body. generalize (columns_to_check cols target). intros cs. revert st.
  induction cs as [|c cs IH0]; intros st; simpl; [done|].
  destruct (IH0 (process_cell [] r c st)) as [-> ->].
  apply process_cell_no_pairs.
Qed.

Lemma zeros_count (pats : list pattern) k : forall d : gmap string Z,
  count_of d k = 0 ->
  count_of (foldl (fun d '(find_text, _, _) => <[find_text := 0]> d) d pats) k = 0.
Proof.
  induction pats as [|[[a re] r] pats IH]; intros d Hd; simpl; [done|].
  apply IH. unfold count_of in *. destruct (decide (a = k)) as [->|Hne].
  - by rewrite lookup_insert_eq.
  - by rewrite lookup_insert_ne.
Qed.

(** [process_chunk] is the loop over its rows, started with zero counts. *)
Lemma process_chunk_rows sh start_row end_row cols pats target :
  exists d0,
    (forall k, count_of d0 k = 0)
    /\ process_chunk sh start_row end_row cols pats target
       = (let st := foldl (row_body pats cols target)
                          {| sheet := sh; chunk_replacements := d0;
                             affected_rows := ∅ |}
                          (range start_row end_row) in
          (chunk_replacements st, affected_rows st, sheet st)).
Proof.
  eexists. split; [|reflexivity].
  intros k. apply zeros_count. unfold count_of. by rewrite lookup_empty.
Qed.

Lemma list_to_set_nil (l : list string) :
  (list_to_set l : gset string) = ∅ -> l = [].
Proof.
  destruct l as [|x l]; [done|]. intros H. exfalso.
  assert (x ∈ (list_to_set (x :: l) : gset string)) as Hx
    by (apply elem_of_list_to_set; by left).
  rewrite H in Hx. by apply elem_of_empty in Hx.
Qed.

Lemma range_split a b c : a <= b <= c -> range a c = range a b ++ range b c.
Proof.
  intros H. unfold range.
  replace (c - a) with ((b - a) + (c - b)) by lia.
  rewrite seqZ_app by lia. do 2 f_equal. lia.
Qed.

Lemma chunks_as_one_pass sh pats rows cols target cs d0 details0 (m : nat) :
  0 < cs ->
  (forall k, count_of d0 k = 0) ->
  (forall k, count_of details0 k = 0) ->
  (m = 0%nat \/ (Z.of_nat m - 1) * cs < rows) ->
  let st := foldl (chunk_step rows cols cs pats target)
                  {| used_range := sh; total_replacements := 0;
                     replacement_details := details0;
                     affected_rows_overall := ∅;
                     chunks_processed := 0; chunks_with_changes := 0 |}
                  ((fun k => 0 + k * cs) <$> seqZ 0 (Z.of_nat m)) in
  let one := foldl (row_body pats cols target)
                   {| sheet := sh; chunk_replacements := d0; affected_rows := ∅ |}
                   (range 0 (Z.min (Z.of_nat m * cs) rows)) in
  used_range st = sheet one
  /\ affected_rows_overall st = affected_rows one
  /\ forall k, count_of (replacement_details st) k
               = count_of (chunk_replacements one) k.
Proof.
  intros Hcs Hd0 Hdet. induction m as [|m IH]; intros Hm.
  - simpl. rewrite range_empty by lia. simpl. split; [done|]. split; [done|].
    intros k. by rewrite Hd0, Hdet.
  - destruct Hm as [?|Hm]; [done|].
    destruct IH as (E1 & E2 & E3); [lia|].
    rewrite seqZ_S, fmap_app, foldl_app. simpl.
    set (st := foldl _ _ _) in *.
    replace (Z.min (Z.of_nat m * cs) rows) with (Z.of_nat m * cs) in * by lia.
    set (s := Z.of_nat m * cs) in *.
    set (e := Z.min (Z.of_nat (S m) * cs) rows).
    rewrite (range_split 0 s e) by lia. rewrite foldl_app.
    set (G := foldl (row_body pats cols target) _ (range 0 s)) in *.
    unfold chunk_step.
    replace (0 + (0 + Z.of_nat m) * cs) with s by lia.
    replace (Z.min (s + cs) rows) with e by lia.
    pose proof (process_chunk_report (used_range st) s e cols pats target)
      as [Hdom _].
    destruct (process_chunk_rows (used_range st) s e cols pats target)
      as (d1 & Hd1 & Eq).
    rewrite Eq in Hdom |- *. clear Eq.
    set (L0 := {| sheet := used_range st; chunk_replacements := d1;
                  affected_rows := ∅ |}) in *.
    assert (HR : shifted (affected_rows G) (count_of (chunk_replacements G)) G L0).
    { split; [done|]. split; [simpl; apply set_eq; intros x;
                               rewrite elem_of_union, elem_of_empty; tauto|].
      intros k. simpl. rewrite Hd1. lia. }
    apply (rows_shifted pats cols target _ _ (range s e)) in HR.
    destruct HR as (R1 & R2 & R3).
    set (L := foldl (row_body pats cols target) L0 (range s e)) in *.
    simpl in Hdom |- *.
    destruct (nonempty_dict (chunk_replacements L)) eqn:Hne; simpl.
    + split; [done|]. split; [by rewrite R2, E2|].
      intros k. rewrite R3, <- E3. unfold count_of, add_counts.
      apply (map_fold_weak_ind
               (fun r mm => default 0 (r !! k)
                            = default 0 (replacement_details st !! k)
                              + default 0 (mm !! k))).
      * rewrite lookup_empty. simpl. lia.
      * intros i x mm r Hi Hr. rewrite lookup_incr, Hr.
        destruct (decide (i = k)) as [->|Hik].
        -- rewrite lookup_insert_eq, Hi. simpl. lia.
        -- rewrite lookup_insert_ne by done. lia.
    + unfold nonempty_dict in Hne. apply negb_false_iff, bool_decide_eq_true in Hne.
      assert (pats = []) as Hp.
      { rewrite Hne, dom_empty_L in Hdom. symmetry in Hdom.
        apply list_to_set_nil in Hdom. destruct pats; [done|discriminate]. }
      subst pats.
      destruct (rows_no_pairs cols target (range s e) L0) as [A1 A2].
      fold L in A1, A2. split; [done|]. split.
      * rewrite R2, A1, E2. simpl. apply set_eq. intros x.
        rewrite elem_of_union, elem_of_empty. tauto.
      * intros k. rewrite R3, Hne, <- E3. unfold count_of at 3.
        rewrite lookup_empty. simpl. lia.
Qed.

Lemma touch_rows_cells rows sh :
  cells (FindReplace.touch_rows rows sh) = cells sh.
Proof.
  unfold FindReplace.touch_rows. generalize (sorted rows). intros l. revert sh.
  induction l as [|r l IH]; intros sh; simpl; [done|].
  rewrite IH. unfold set_row_height. by destruct (protect sh).
Qed.

(** X10. Scanning the rows in chunks gives the same cells, the same
    accesses in the same order, and the same count for every find text as
    one call of [process_chunk] over all the rows. *)
Theorem chunking_does_not_change_the_scan (sh : Sheet)
    (replacement_pairs : list (string * string)) (rows cols : Z)
    (target : option (list Z)) :
  let chunked := process_sheet_in_chunks sh replacement_pairs rows cols target in
  let once := process_chunk sh 0 rows cols (compile_pairs replacement_pairs) target in
  cells chunked.2 = cells once.2
  /\ trace chunked.2 = trace once.2
  /\ forall find_text,
       count_of chunked.1.2 find_text = count_of once.1.1 find_text.
Proof.
  cbv zeta. unfold process_sheet_in_chunks. fold (compile_pairs replacement_pairs).
  set (pats := compile_pairs replacement_pairs).
  destruct (process_chunk_rows sh 0 rows cols pats target) as (d0 & Hd0 & ->).
  pose proof (chunk_size_for_pos rows) as Hcs. set (cs := chunk_size_for rows) in *.
  set (details0 := foldl _ ∅ replacement_pairs).
  assert (Hdet : forall k, count_of details0 k = 0).
  { intros k. unfold count_of.
    pose proof (initial_details_zero replacement_pairs ∅ (map_Forall_empty _)) as Hz.
    fold details0 in Hz. destruct (details0 !! k) as [c|] eqn:Hk; [|done].
    apply (Hz k c Hk). }
  unfold range_step.
  set (n := (rows - 0 + cs - 1) / cs).
  assert (Hn : seqZ 0 n = seqZ 0 (Z.of_nat (Z.to_nat n))).
  { destruct (decide (0 <= n)); [by rewrite Z2Nat.id|].
    rewrite seqZ_nil by lia. replace (Z.to_nat n) with 0%nat by lia. done. }
  rewrite Hn.
  assert (Hlast : Z.to_nat n = 0%nat \/ (Z.of_nat (Z.to_nat n) - 1) * cs < rows).
  { destruct (decide (n <= 0)); [left; lia|right].
    rewrite Z2Nat.id by lia.
    assert (cs * n <= rows - 0 + cs - 1) by (apply Z.mul_div_le; lia). nia. }
  destruct (chunks_as_one_pass sh pats rows cols target cs d0 details0 (Z.to_nat n)
              Hcs Hd0 Hdet Hlast) as (E1 & E2 & E3).
  assert (Hend : range 0 (Z.min (Z.of_nat (Z.to_nat n) * cs) rows) = range 0 rows).
  { destruct (decide (rows <= 0)).
    - rewrite !range_empty by lia. done.
    - f_equal. assert (rows - 0 + cs - 1 < cs * (n + 1)); [|
        assert (0 <= n) by (apply Z.div_pos; lia); rewrite Z2Nat.id by lia; nia].
      pose proof (Z.mod_pos_bound (rows - 0 + cs - 1) cs Hcs).
      pose proof (Z.div_mod (rows - 0 + cs - 1) cs ltac:(lia)). fold n in H0. lia. }
  rewrite Hend in E1, E2, E3.
  set (st := foldl (chunk_step rows cols cs pats target) _ _) in *.
  simpl. split; [|split].
  - destruct (0 <? chunks_with_changes st); [rewrite touch_rows_cells|]; by rewrite E1.
  - destruct (0 <? chunks_with_changes st); [rewrite touch_rows_trace|]; by rewrite E1.
  - exact E3.
Qed.

End ChunkFacts.

(** ** Sheet names *)

Section NameFacts.
Context `{UD : UnicodeData}.
Import FindReplace.

(** X11. Two sheet names whose NFKC forms are made of the same words up to
    the case of the letters (names that differ only in letter case, in
    Unicode form or in white space) have the same normalised name; a name
    that is no string has the empty normalised name. *)
Theorem normalized_name_ignores_case (name1 name2 : string) :
  name_words name1 = name_words name2 ->
  _normalize_sheet_name (VStr name1) = _normalize_sheet_name (VStr name2)
  /\ forall other, (forall s, other <> VStr s) -> _normalize_sheet_name other = [].
Proof.
  intros H. split.
  - by rewrite !normalize_name_words, H.
  - intros other Hother. destruct other; try done. by destruct (Hother s).
Qed.

End NameFacts.

Lemma normalized_name_ignores_case_witness :
  @FindReplace._normalize_sheet_name plain_unicode (VStr "Sub  Catégories")
  = @FindReplace._normalize_sheet_name plain_unicode (VStr " SUB CATÉGORIES").
Proof.
  apply (@normalized_name_ignores_case plain_unicode
           "Sub  Catégories" " SUB CATÉGORIES").
  reflexivity.
Defined.

(** ** The file loop of the find/replace script *)

Section FileFacts.
Context `{RT : ReTemplate} `{UD : UnicodeData}.
Import FindReplace.

(** What the sheet loop of the find/replace script leaves of one sheet. *)
Lemma sheet_step_done pairs confs st sheet :
  exists sheet',
    done_sheets (sheet_step pairs confs st sheet) = done_sheets st ++ [sheet']
    /\ name sheet' = name sheet
    /\ (sheet_decision confs (name sheet) = Skip -> sheet' = sheet).
Proof.
  unfold sheet_step. destruct (sheet_decision confs (name sheet)) as [|t].
  - by exists sheet.
  - assert (Hname : name (process_sheet_intelligently (try_unprotect sheet) pairs t).2
                    = name sheet).
    { assert (name (try_unprotect sheet) = name sheet) as <-.
      { unfold try_unprotect, unprotect. by destruct (protect sheet). }
      generalize (try_unprotect sheet). intros sh.
      unfold process_sheet_intelligently.
      destruct (target_indices t) as [ci|e]; [|done].
      destruct (shape sh) as [[rows cols]|]; [|done].
      apply (process_sheet_in_chunks_frame sh pairs). }
    destruct (process_sheet_intelligently (try_unprotect sheet) pairs t)
      as [[n d] sh'].
    exists sh'. by destruct (0 <? n).
Qed.

Lemma sheet_step_total pairs confs st sheet :
  file_total st = sum_values (file_details st) ->
  (modifications_made st = false -> file_total st = 0) ->
  let st' := sheet_step pairs confs st sheet in
  file_total st' = sum_values (file_details st')
  /\ (modifications_made st' = false -> file_total st' = 0).
Proof.
  intros Ht Hm. simpl. unfold sheet_step.
  destruct (sheet_decision confs (name sheet)) as [|t]; [done|].
  pose proof (find_replace_total_is_sum (try_unprotect sheet) pairs t) as Hsum.
  destruct (process_sheet_intelligently (try_unprotect sheet) pairs t)
    as [[n d] sh']. simpl in Hsum.
  destruct (0 <? n); simpl; [|done].
  split; [|done]. rewrite sum_values_add_counts. lia.
Qed.

Lemma sheets_loop pairs confs (wb : list Sheet) : forall st,
  file_total st = sum_values (file_details st) ->
  (modifications_made st = false -> file_total st = 0) ->
  let st' := foldl (sheet_step pairs confs) st wb in
  file_total st' = sum_values (file_details st')
  /\ (modifications_made st' = false -> file_total st' = 0)
  /\ exists sheets,
       done_sheets st' = done_sheets st ++ sheets
       /\ name <$> sheets = name <$> wb
       /\ forall i sheet, wb !! i = Some sheet ->
            sheet_decision confs (name sheet) = Skip -> sheets !! i = Some sheet.
Proof.
  induction wb as [|sheet wb IH]; intros st Ht Hm; simpl.
  - split; [done|]. split; [done|]. exists []. by rewrite app_nil_r.
  - destruct (sheet_step_total pairs confs st sheet Ht Hm) as [Ht' Hm'].
    destruct (sheet_step_done pairs confs st sheet) as (sheet' & Hd & Hn & Hs).
    destruct (IH _ Ht' Hm') as (H1 & H2 & sheets & Hd' & Hn' & Hs').
    split; [done|]. split; [done|]. exists (sheet' :: sheets).
    split; [by rewrite Hd', Hd, <- app_assoc|]. split; [rewrite !fmap_cons; by f_equal|].
    intros [|i] sh Hi Hskip; simpl in *.
    + injection Hi as ->. by rewrite Hs.
    + by apply Hs'.
Qed.

(** X12. [process_excel_with_xlwings] of the find/replace script returns a
    total equal to the sum of the counts it returns. It reports a failure
    exactly with the total 0 and no counts, and only when Excel or the
    workbook could not be opened or saving fails; when they cannot be opened
    it always does. When the workbook is opened the sheets keep their order
    and names, and a sheet the loop skips is left as it is. *)
Theorem find_replace_file_report (opened : res (list Sheet)) (save_fails : bool)
    (replacement_pairs : list (string * string))
    (sheet_configurations : list (string * config)) :
  let '(success, total, details, sheets) :=
    process_excel_with_xlwings opened save_fails replacement_pairs
                               sheet_configurations in
  total = sum_values details
  /\ (success = false ->
      total = 0 /\ details = ∅ /\ (is_ok opened = false \/ save_fails = true))
  /\ (is_ok opened = false -> success = false /\ sheets = [])
  /\ forall wb, opened = Ok wb ->
       name <$> sheets = name <$> wb
       /\ forall i sheet, wb !! i = Some sheet ->
            sheet_decision sheet_configurations (name sheet) = Skip ->
            sheets !! i = Some sheet.
Proof.
  unfold process_excel_with_xlwings. destruct opened as [wb|e].
  2: { split; [by rewrite sum_values_empty|]. split; [intros _; by auto|].
       split; [done|]. intros wb Hwb. discriminate. }
  set (init := {| done_sheets := [] |}).
  destruct (sheets_loop replacement_pairs sheet_configurations wb init)
    as (Ht & Hm & sheets & Hd & Hn & Hs).
  { simpl. symmetry. apply sum_values_all_zero.
    apply initial_details_zero, map_Forall_empty. }
  { done. }
  simpl in Hd. rewrite Hd.
  destruct (modifications_made _) eqn:Hmod.
  - destruct save_fails.
    + split; [by rewrite sum_values_empty|]. split; [intros _; by auto|].
      split; [done|]. by intros wb' [= <-].
    + split; [done|]. split; [done|]. split; [done|]. by intros wb' [= <-].
  - split; [rewrite <- Ht; symmetry; by apply Hm|]. split; [done|].
    split; [done|]. by intros wb' [= <-].
Qed.

End FileFacts.

(** ** Cells the rule engine can change *)

Section FiringFacts.
Import Rules.

Lemma build_lookup_entry es k t n :
  build_lookup es !! k = Some (t, n) ->
  exists e, e ∈ es /\ e_target_value e = t /\ e_name e = n.
Proof.
  rewrite build_lookup_spec. unfold last_match.
  destruct (list.last _) as [e|] eqn:Hl; [|done]. simpl. intros [= <- <-].
  exists e. split; [|done].
  apply last_Some in Hl as (l' & Hl).
  assert (e ∈ filter (fun e0 => e_search_value e0 = k) es) as He.
  { rewrite Hl. apply elem_of_app. right. by left. }
  by apply list_elem_of_filter in He as [_ He].
Qed.

(** What one row does: nothing to cells and counters, or one update. *)
Lemma row_step_cases sidx uidx lookup st r :
  let st' := row_step sidx uidx lookup st r in
  (cells (used_range st') = cells (used_range st)
   /\ total_updates st' = total_updates st
   /\ update_details st' = update_details st)
  \/ exists ucell t n,
       protect (used_range st) = Unprotected
       /\ is_ok (getitem (used_range st) r sidx) = true
       /\ getitem (used_range st) r uidx = Ok ucell
       /\ (exists k, lookup !! k = Some (t, n))
       /\ cells (used_range st') = <[ucell := VStr t]> (cells (used_range st))
       /\ total_updates st' = total_updates st + 1
       /\ update_details st' = incr n 1 (update_details st).
Proof.
  simpl. unfold row_step.
  set (sh1 := log (Index r sidx) (used_range st)).
  assert (Hg1 : forall j, getitem sh1 r j = getitem (used_range st) r j) by done.
  rewrite Hg1. destruct (getitem (used_range st) r sidx) as [scell|e] eqn:Hs;
    [|by left].
  destruct (negb (truthy _)); [by left|].
  destruct (lookup !! _) as [[t n]|] eqn:Hl; [|by left].
  set (sh2 := log (Index r uidx) sh1).
  assert (Hg2 : getitem sh2 r uidx = getitem (used_range st) r uidx) by done.
  rewrite Hg2. destruct (getitem (used_range st) r uidx) as [ucell|e] eqn:Hu;
    [|by left].
  destruct (negb (String.eqb _ _)); [|by left].
  unfold set_value. simpl.
  destruct (protect (used_range st)) eqn:Hp; [|by left..].
  right. exists ucell, t, n. simpl. repeat split; eauto.
Qed.

Lemma reset_details_zero es d :
  map_Forall (fun _ c => c = 0) d ->
  map_Forall (fun _ c => c = 0) (reset_details es d).
Proof.
  unfold reset_details. revert d.
  induction es as [|e es IH]; intros d Hd; simpl; [done|].
  apply IH. by apply map_Forall_insert_2.
Qed.

Lemma row_step_inv rules n sh0 sc uc es st i :
  (forall e, e ∈ es ->
     exists r, r ∈ rules /\ search_column r = sc /\ update_column r = uc
               /\ entry_of r = e) ->
  0 <= i < n ->
  rules_inv rules n sh0 st ->
  rules_inv rules n sh0
    (row_step (column_letter_to_index sc) (column_letter_to_index uc)
              (build_lookup es) st i).
Proof.
  intros Hes Hi [Hs Hp Hc Hq].
  pose proof (row_step_frame (column_letter_to_index sc) (column_letter_to_index uc)
                (build_lookup es) st i) as [_ Hs' _ Hp' _ _].
  destruct (row_step_cases (column_letter_to_index sc) (column_letter_to_index uc)
              (build_lookup es) st i)
    as [(Ec & Et & Ed)|(ucell & t & nm & Hu & Hsi & Hui & (k & Hl) & Ec & Et & Ed)].
  - split; [congruence|congruence| |].
    + intros pos. rewrite Ec. apply Hc.
    + intros Hno. rewrite Ec, Et, Ed. by apply Hq.
  - apply build_lookup_entry in Hl as (e & He & <- & <-).
    destruct (Hes e He) as (r & Hr & <- & <- & <-).
    assert (Hget : forall j, getitem (used_range st) i j = getitem sh0 i j)
      by (intros j; by apply getitem_shape).
    rewrite Hget in Hsi, Hui.
    assert (Hfire : can_fire sh0 r i).
    { split; [congruence|]. split; [done|]. by rewrite Hui. }
    split; [congruence|congruence| |].
    + intros pos. rewrite Ec. destruct (decide (ucell = pos)) as [<-|Hne].
      * right. exists r, i. split; [done|]. split; [done|].
        split; [done|]. split; [done|]. by rewrite lookup_insert_eq.
      * rewrite lookup_insert_ne by done. apply Hc.
    + intros Hno. by destruct (Hno r i Hr Hi).
Qed.

Lemma group_step_inv rules n sh0 sc uc es st :
  (forall e, e ∈ es ->
     exists r, r ∈ rules /\ search_column r = sc /\ update_column r = uc
               /\ entry_of r = e) ->
  rules_inv rules n sh0 st ->
  rules_inv rules n sh0 (group_step n st (sc, uc, es)).
Proof.
  intros Hes Hinv. unfold group_step.
  set (st0 := {| used_range := used_range st |}).
  assert (H0 : rules_inv rules n sh0 st0).
  { destruct Hinv as [Hs Hp Hc Hq]. split; try done.
    intros Hno. destruct (Hq Hno) as (E1 & E2 & E3). split; [done|].
    split; [done|]. simpl. by apply reset_details_zero. }
  clearbody st0.
  assert (Hrows : forall i, i ∈ range 0 n -> 0 <= i < n)
    by (intros i Hi; by apply elem_of_range in Hi).
  revert st0 H0 Hrows. generalize (range 0 n).
  induction l as [|i l IH]; intros st0 H0 Hrows; simpl; [done|].
  apply IH.
  - apply row_step_inv; [done|apply Hrows; by left|done].
  - intros j Hj. apply Hrows. by right.
Qed.

Lemma rules_touch_rows_fields rows sh :
  cells (Rules.touch_rows rows sh) = cells sh.
Proof.
  unfold Rules.touch_rows. generalize (elements rows). intros l. revert sh.
  induction l as [|r l IH]; intros sh; simpl; [done|].
  rewrite IH. unfold set_row_height. by destruct (protect sh).
Qed.

Lemma process_sheet_with_rules_inv sheet rules cap rows cols :
  shape sheet = Some (rows, cols) ->
  exists st,
    process_sheet_with_rules sheet rules cap
    = (total_updates st, update_details st,
       Rules.touch_rows (all_affected_rows st) (used_range st))
    /\ rules_inv rules (Z.min rows cap) sheet st.
Proof.
  intros Hshape. unfold process_sheet_with_rules. rewrite Hshape.
  eexists. split; [reflexivity|].
  set (init := {| used_range := sheet |}).
  assert (H0 : rules_inv rules (Z.min rows cap) sheet init).
  { split; try done. by left. }
  clearbody init.
  assert (Hg : forall g, g ∈ group_rules rules -> g ∈ group_rules rules) by done.
  revert init H0 Hg. generalize (group_rules rules) at 1 3.
  induction g as [|[[sc uc] es] g IH]; intros init H0 Hg; simpl; [done|].
  apply IH.
  - apply group_step_inv; [|done]. intros e He.
    eapply group_rules_from_rule; [apply Hg; by left|done].
  - intros g' Hg'. apply Hg. by right.
Qed.

(** X14. After [process_sheet_with_rules] every cell holds what it held
    before, unless the sheet is unprotected and the cell is the update cell,
    in a row below the row limit, of a rule of the list whose search cell
    lies in the used range; then it may hold the text of that rule's target
    value instead. *)
Theorem rules_write_targets_in_update_columns (sheet : Sheet) (rules : list rule)
    (cap rows cols : Z) (pos : Z * Z) :
  shape sheet = Some (rows, cols) ->
  let sh' := (process_sheet_with_rules sheet rules cap).2 in
  cells sh' !! pos = cells sheet !! pos
  \/ exists r i,
       r ∈ rules /\ 0 <= i < Z.min rows cap
       /\ protect sheet = Unprotected
       /\ is_ok (getitem sheet i (column_letter_to_index (search_column r))) = true
       /\ getitem sheet i (column_letter_to_index (update_column r)) = Ok pos
       /\ cells sh' !! pos = Some (VStr (py_str (target_value r))).
Proof.
  intros Hshape. simpl.
  destruct (process_sheet_with_rules_inv sheet rules cap rows cols Hshape)
    as (st & -> & [_ _ Hc _]). simpl. rewrite rules_touch_rows_fields.
  destruct (Hc pos) as [E|(r & i & Hr & Hi & (Hp & Hs & _) & Hu & E)]; [by left|].
  right. exists r, i. done.
Qed.

(** X15. When no rule can fire in a row below the row limit (the sheet
    is protected, or a column of the rule lies outside the used range),
    [process_sheet_with_rules] returns the total 0 and only zero counts, and
    leaves the cells as they are. *)
Theorem rules_that_cannot_fire_change_nothing (sheet : Sheet) (rules : list rule)
    (cap rows cols : Z) :
  shape sheet = Some (rows, cols) ->
  (forall r i, r ∈ rules -> 0 <= i < Z.min rows cap -> ~ can_fire sheet r i) ->
  let res := process_sheet_with_rules sheet rules cap in
  res.1.1 = 0
  /\ map_Forall (fun _ c => c = 0) res.1.2
  /\ cells res.2 = cells sheet.
Proof.
  intros Hshape Hno. simpl.
  destruct (process_sheet_with_rules_inv sheet rules cap rows cols Hshape)
    as (st & -> & [_ _ _ Hq]). simpl. rewrite rules_touch_rows_fields.
  destruct (Hq Hno) as (E1 & E2 & E3). done.
Qed.

End FiringFacts.

Lemma rules_write_targets_witness :
  let sh' := (Rules.process_sheet_with_rules row_x_lower rule_ABC 300).2 in
  cells sh' !! (0, 0) = cells row_x_lower !! (0, 0)
  \/ exists r i,
       r ∈ rule_ABC /\ 0 <= i < Z.min 1 300
       /\ protect row_x_lower = Unprotected
       /\ is_ok (getitem row_x_lower i
                   (column_letter_to_index (Rules.search_column r))) = true
       /\ getitem row_x_lower i (column_letter_to_index (Rules.update_column r))
          = Ok (0, 0)
       /\ cells sh' !! (0, 0) = Some (VStr (py_str (Rules.target_value r))).
Proof.
  apply (rules_write_targets_in_update_columns row_x_lower rule_ABC 300 1 2 (0, 0)).
  reflexivity.
Defined.

Lemma locked_sheet_witness :
  let res := Rules.process_sheet_with_rules locked_row rule_ABC 300 in
  res.1.1 = 0
  /\ map_Forall (fun _ c => c = 0) res.1.2
  /\ cells res.2 = cells locked_row.
Proof.
  apply (rules_that_cannot_fire_change_nothing locked_row rule_ABC 300 1 2);
    [reflexivity|].
  intros r i _ _ (Hp & _). vm_compute in Hp. discriminate.
Defined.

Lemma rule_total_is_sum_witness :
  (Rules.process_sheet_with_rules row_x two_named_rules 300).1.1
  = sum_values (Rules.process_sheet_with_rules row_x two_named_rules 300).1.2.
Proof.
  apply rule_total_is_sum.
  change (Rules.group_rules two_named_rules)
    with [("A", "B", [Rules.entry_of (named "first" "A" "x" "B" "t")]);
          ("C", "D", [Rules.entry_of (named "second" "C" "y" "D" "u")])].
  split; [|split; [|done]].
  - intros e e' k es' He Hk He'.
    apply list_elem_of_singleton in He, Hk. injection Hk as -> ->.
    apply list_elem_of_singleton in He'. subst. discriminate.
  - intros e e' k es' _ Hk. by apply elem_of_nil in Hk.
Defined.

(** ** The file loop of the rule script *)

Section RuleFileFacts.
Import Rules.

Lemma rules_sheet_step_done sheet_rules max_rows st sheet :
  exists sheet',
    done_sheets (sheet_step sheet_rules max_rows st sheet) = done_sheets st ++ [sheet']
    /\ name sheet' = name sheet
    /\ (sheet_decision sheet_rules (name sheet) = Skip -> sheet' = sheet).
Proof.
  unfold sheet_step. destruct (sheet_decision sheet_rules (name sheet)) as [|rules].
  - by exists sheet.
  - assert (Hname : name (process_sheet_with_rules (try_unprotect sheet) rules
                            (default default_max_rows max_rows)).2 = name sheet).
    { assert (name (try_unprotect sheet) = name sheet) as <-.
      { unfold try_unprotect, unprotect. by destruct (protect sheet). }
      generalize (try_unprotect sheet). intros sh.
      destruct (shape sh) as [[rows cols]|] eqn:Hshape.
      - by apply (process_sheet_with_rules_frame sh rules _ rows cols).
      - unfold process_sheet_with_rules. by rewrite Hshape. }
    destruct (process_sheet_with_rules (try_unprotect sheet) rules _)
      as [[n d] sh'].
    exists sh'. by destruct (0 <? n).
Qed.

(** X17. [process_excel_with_xlwings] of the rule script, once the
    workbook is opened, returns the sheets in their order with their names,
    and a sheet whose name has no rules, or an empty list of rules, is
    returned as it is. *)
Theorem rule_file_keeps_skipped_sheets (wb : list Sheet) (save_fails : bool)
    (sheet_rules : gmap string (list rule)) (max_rows : option Z) :
  let sheets :=
    (process_excel_with_xlwings (Ok wb) save_fails sheet_rules max_rows).2 in
  name <$> sheets = name <$> wb
  /\ forall i sheet, wb !! i = Some sheet ->
       (sheet_rules !! name sheet = None \/ sheet_rules !! name sheet = Some []) ->
       sheets !! i = Some sheet.
Proof.
  unfold process_excel_with_xlwings.
  set (init := {| done_sheets := [] |}).
  assert (H : forall (l : list Sheet) st, exists sheets,
             done_sheets (foldl (sheet_step sheet_rules max_rows) st l)
             = done_sheets st ++ sheets
             /\ name <$> sheets = name <$> l
             /\ forall i sheet, l !! i = Some sheet ->
                  sheet_decision sheet_rules (name sheet) = Skip ->
                  sheets !! i = Some sheet).
  { induction l as [|sheet l IH]; intros st; simpl.
    - exists []. by rewrite app_nil_r.
    - destruct (rules_sheet_step_done sheet_rules max_rows st sheet)
        as (sheet' & Hd & Hn & Hs).
      destruct (IH (sheet_step sheet_rules max_rows st sheet))
        as (sheets & Hd' & Hn' & Hs').
      exists (sheet' :: sheets).
      split; [by rewrite Hd', Hd, <- app_assoc|]. split; [rewrite !fmap_cons; by f_equal|].
      intros [|i] sh Hi Hskip; simpl in *.
      + injection Hi as ->. by rewrite Hs.
      + by apply Hs'. }
  destruct (H wb init) as (sheets & Hd & Hn & Hs). simpl in Hd.
  assert (Hres : (let st := foldl (sheet_step sheet_rules max_rows) init wb in
                  if modifications_made st
                  then if save_fails then (false, 0, ∅, done_sheets st)
                       else (true, file_total st, file_details st, done_sheets st)
                  else (true, 0, file_details st, done_sheets st)).2 = sheets).
  { simpl. rewrite <- Hd. destruct (modifications_made _); [|done].
    by destruct save_fails. }
  simpl in *. rewrite Hres. split; [done|].
  intros i sheet Hi Hno. apply Hs; [done|]. unfold sheet_decision.
  by destruct Hno as [-> | ->].
Qed.

End RuleFileFacts.

(** ** The sheet rules [main] builds *)

Lemma add_rule_lookup sheet_rules rule sheet_name :
  default [] (add_rule sheet_rules rule !! sheet_name)
  = default [] (sheet_rules !! sheet_name)
    ++ (if active_on sheet_name rule then [build rule] else []).
Proof.
  unfold add_rule, active_on.
  destruct (truthy (default (VBool true) (j_enabled rule))); simpl;
    [|by rewrite app_nil_r].
  destruct (j_sheet_name rule) as [sn|]; [|by rewrite app_nil_r].
  destruct (String.eqb sn "") eqn:Hsn.
  - apply String.eqb_eq in Hsn as ->.
    destruct (bool_decide (Some "" = Some sheet_name)) eqn:E.
    + apply bool_decide_eq_true in E as [= <-]. simpl. by rewrite app_nil_r.
    + simpl. by rewrite app_nil_r.
  - destruct (decide (sn = sheet_name)) as [->|Hne].
    + rewrite lookup_insert_eq, bool_decide_eq_true_2 by done. by rewrite Hsn.
    + rewrite lookup_insert_ne by done.
      rewrite bool_decide_eq_false_2 by congruence. simpl. by rewrite app_nil_r.
Qed.

Lemma add_rule_nonempty sheet_rules rule :
  map_Forall (fun _ rules => rules <> []) sheet_rules ->
  map_Forall (fun _ rules => rules <> []) (add_rule sheet_rules rule).
Proof.
  intros H. unfold add_rule.
  destruct (negb _); [done|]. destruct (j_sheet_name rule) as [sn|]; [|done].
  destruct (String.eqb sn ""); [done|].
  apply map_Forall_insert_2; [|done]. by destruct (default [] _).
Qed.

(** X18. The rules [main] files under a sheet name are the built forms of
    the enabled rules that name the sheet, in the order of the configuration;
    a sheet name without such a rule, and the empty name, is no key. *)
Theorem organize_rules_lookup (search_update_rules : list json_rule)
    (sheet_name : string) :
  let active := filter (fun rule => active_on sheet_name rule = true)
                       search_update_rules in
  organize_rules search_update_rules !! sheet_name
  = if decide (active = []) then None else Some (build <$> active).
Proof.
  simpl. unfold organize_rules.
  assert (H : default [] (foldl add_rule ∅ search_update_rules !! sheet_name)
              = build <$> filter (fun rule => active_on sheet_name rule = true)
                                 search_update_rules
              /\ map_Forall (fun _ rules => rules <> [])
                            (foldl add_rule ∅ search_update_rules)).
  { induction search_update_rules as [|rule l IH] using rev_ind.
    - split; [done|apply map_Forall_empty].
    - destruct IH as [IH1 IH2]. rewrite foldl_app. simpl.
      split; [|by apply add_rule_nonempty].
      rewrite add_rule_lookup, IH1, list.filter_app, fmap_app. f_equal.
      destruct (active_on sheet_name rule) eqn:E.
      + by rewrite (filter_cons_True _ rule []).
      + rewrite (filter_cons_False _ rule []); [done|]. by rewrite E. }
  destruct H as [H1 H2].
  destruct (foldl add_rule ∅ search_update_rules !! sheet_name) as [rules|] eqn:E;
    simpl in H1.
  - specialize (H2 _ _ E). simpl in H2.
    destruct (decide (_ = [])) as [Hnil|_]; [|by rewrite H1].
    rewrite Hnil in H1. done.
  - destruct (decide (_ = [])) as [_|Hne]; [done|].
    destruct (filter _ _); [done|discriminate].
Qed.

(** ** Sheet names and letter case *)
